(** * surrealdb-bun: the connection/session layer of [src/index.ts]

    A shallow embedding of the [Surreal] class (request-id counter, the
    [channels] correlation table, [setup], [send], the inbound [message]
    listener and [query]) together with the parts of the JavaScript runtime
    the class relies on: JSON text, property access, promises and the
    run-to-completion event loop. *)

From Stdlib Require Import ZArith Ascii String List Lia Permutation.
From stdpp Require Import gmap strings list pretty.

Open Scope string_scope.
Open Scope Z_scope.
Open Scope list_scope.

(** ** JavaScript values

    Strings are sequences of bytes (the UTF-8 text that travels in a text
    frame).  A number written as an integer literal is kept exactly (the
    runtime rounds integers beyond 2^53 and prints those from 10^21 on with
    an exponent; request ids are far below); a literal with a fraction or
    an exponent is kept as its source text ([VFloat]), its arithmetic being
    that of the runtime.  [VError] is an instance of [Error] or of a
    subclass. *)

Inductive error_class := SurrealError | TypeError | SyntaxError.

Local Unset Elimination Schemes.

Inductive value : Type :=
| VUndefined
| VNull
| VBool (b : bool)
| VNum (n : Z)
| VFloat (lit : string)
| VStr (s : string)
| VArr (elems : list value)
| VObj (props : list (string * value))
| VError (cls : error_class) (message : value) (detail : value).

Local Set Elimination Schemes.

(** Result of evaluating a piece of code: a value, or a thrown value. *)
Inductive completion :=
| Return (v : value)
| Throw (e : value).

(** ** Objects as ordered property lists *)

Fixpoint obj_get (props : list (string * value)) (k : string) : option value :=
  match props with
  | [] => None
  | (k', v) :: rest => if String.eqb k' k then Some v else obj_get rest k
  end.

(** [o[k] = v]: an existing property keeps its position. *)
Fixpoint obj_set (props : list (string * value)) (k : string) (v : value)
  : list (string * value) :=
  match props with
  | [] => [(k, v)]
  | (k', v') :: rest =>
      if String.eqb k' k then (k', v) :: rest else (k', v') :: obj_set rest k v
  end.

(** Text with double quotes is written with apostrophes: [js] puts the
    double quotes back. *)
Fixpoint js (s : string) : string :=
  match s with
  | EmptyString => EmptyString
  | String c s' => String (if Ascii.eqb c "'" then "034"%char else c) (js s')
  end.

(** ** JSON text: the lexer

    [JSON.parse] is modelled by a character-level automaton producing
    tokens, followed by a stack automaton over the tokens.  Both are folds,
    so they are total and need no fuel. *)

Inductive token :=
| TLBrace | TRBrace | TLBrack | TRBrack | TColon | TComma
| TScalar (v : value).

(** Content of a string literal: a raw character or a [\uXXXX] code unit. *)
Inductive unit16 := Raw (c : ascii) | Esc (cu : N).

Inductive float_state := FDot | FFrac | FE | FESign | FExp.

Inductive lex_mode :=
| LIdle
| LStr (acc : list unit16)
| LEsc (acc : list unit16)
| LHex (acc : list unit16) (seen : nat) (cu : N)
| LMinus
| LZero (neg : bool)
| LInt (neg : bool) (mag : N)
| LFloat (st : float_state) (lit : string)
| LWord (rest : string) (v : value).

Definition lex_state : Type := lex_mode * list token.

Definition is_ws (c : ascii) : bool :=
  let n := N_of_ascii c in
  ((n =? 32) || (n =? 9) || (n =? 10) || (n =? 13))%N.

Definition digit_of (c : ascii) : option N :=
  let n := N_of_ascii c in
  if ((48 <=? n) && (n <=? 57))%N then Some (n - 48)%N else None.

Definition hex_of (c : ascii) : option N :=
  let n := N_of_ascii c in
  if ((48 <=? n) && (n <=? 57))%N then Some (n - 48)%N
  else if ((97 <=? n) && (n <=? 102))%N then Some (n - 87)%N
  else if ((65 <=? n) && (n <=? 70))%N then Some (n - 55)%N
  else None.

(** UTF-8 bytes of a code point. *)
Definition utf8 (cp : N) : string :=
  let b (n : N) := ascii_of_N n in
  (if cp <? 128 then String (b cp) ""
   else if cp <? 2048 then
     String (b (192 + cp / 64)) (String (b (128 + cp mod 64)) "")
   else if cp <? 65536 then
     String (b (224 + cp / 4096))
       (String (b (128 + (cp / 64) mod 64)) (String (b (128 + cp mod 64)) ""))
   else
     String (b (240 + cp / 262144))
       (String (b (128 + (cp / 4096) mod 64))
          (String (b (128 + (cp / 64) mod 64))
             (String (b (128 + cp mod 64)) ""))))%N.

Definition is_high_surrogate (cu : N) : bool := ((55296 <=? cu) && (cu <=? 56319))%N.
Definition is_low_surrogate (cu : N) : bool := ((56320 <=? cu) && (cu <=? 57343))%N.

(** The string denoted by a literal's content; an escaped surrogate pair is
    one code point. *)
Fixpoint decode_units (us : list unit16) : string :=
  match us with
  | [] => ""
  | Raw c :: rest => String c (decode_units rest)
  | Esc hi :: rest =>
      match rest with
      | Esc lo :: rest' =>
          if is_high_surrogate hi && is_low_surrogate lo
          then utf8 (65536 + (hi - 55296) * 1024 + (lo - 56320))%N +:+ decode_units rest'
          else utf8 hi +:+ decode_units rest
      | _ => utf8 hi +:+ decode_units rest
      end
  end.

Definition sign_text (neg : bool) : string := if neg then "-" else "".

Definition int_token (neg : bool) (mag : N) : token :=
  TScalar (VNum (if neg then - Z.of_N mag else Z.of_N mag)).

Definition float_accepting (st : float_state) : bool :=
  match st with FFrac | FExp => true | _ => false end.

Definition lex_idle (toks : list token) (c : ascii) : option lex_state :=
  if is_ws c then Some (LIdle, toks)
  else if Ascii.eqb c "{" then Some (LIdle, toks ++ [TLBrace])
  else if Ascii.eqb c "}" then Some (LIdle, toks ++ [TRBrace])
  else if Ascii.eqb c "[" then Some (LIdle, toks ++ [TLBrack])
  else if Ascii.eqb c "]" then Some (LIdle, toks ++ [TRBrack])
  else if Ascii.eqb c ":" then Some (LIdle, toks ++ [TColon])
  else if Ascii.eqb c "," then Some (LIdle, toks ++ [TComma])
  else if Ascii.eqb c "034" then Some (LStr [], toks)
  else if Ascii.eqb c "-" then Some (LMinus, toks)
  else if Ascii.eqb c "t" then Some (LWord "rue" (VBool true), toks)
  else if Ascii.eqb c "f" then Some (LWord "alse" (VBool false), toks)
  else if Ascii.eqb c "n" then Some (LWord "ull" VNull, toks)
  else match digit_of c with
       | Some 0%N => Some (LZero false, toks)
       | Some d => Some (LInt false d, toks)
       | None => None
       end.

Definition lex_step (st : lex_state) (c : ascii) : option lex_state :=
  let '(mode, toks) := st in
  match mode with
  | LIdle => lex_idle toks c
  | LStr acc =>
      if Ascii.eqb c "034" then Some (LIdle, toks ++ [TScalar (VStr (decode_units acc))])
      else if Ascii.eqb c "092" then Some (LEsc acc, toks)
      else if (N_of_ascii c <? 32)%N then None
      else Some (LStr (acc ++ [Raw c]), toks)
  | LEsc acc =>
      if Ascii.eqb c "034" then Some (LStr (acc ++ [Raw c]), toks)
      else if Ascii.eqb c "092" then Some (LStr (acc ++ [Raw c]), toks)
      else if Ascii.eqb c "/" then Some (LStr (acc ++ [Raw c]), toks)
      else if Ascii.eqb c "b" then Some (LStr (acc ++ [Esc 8]), toks)
      else if Ascii.eqb c "f" then Some (LStr (acc ++ [Esc 12]), toks)
      else if Ascii.eqb c "n" then Some (LStr (acc ++ [Esc 10]), toks)
      else if Ascii.eqb c "r" then Some (LStr (acc ++ [Esc 13]), toks)
      else if Ascii.eqb c "t" then Some (LStr (acc ++ [Esc 9]), toks)
      else if Ascii.eqb c "u" then Some (LHex acc 0 0, toks)
      else None
  | LHex acc seen cu =>
      match hex_of c with
      | Some d =>
          let cu' := (16 * cu + d)%N in
          if (seen =? 3)%nat then Some (LStr (acc ++ [Esc cu']), toks)
          else Some (LHex acc (S seen) cu', toks)
      | None => None
      end
  | LMinus =>
      match digit_of c with
      | Some 0%N => Some (LZero true, toks)
      | Some d => Some (LInt true d, toks)
      | None => None
      end
  | LZero neg =>
      if Ascii.eqb c "." then Some (LFloat FDot (sign_text neg +:+ "0."), toks)
      else if Ascii.eqb c "e" || Ascii.eqb c "E"
      then Some (LFloat FE (sign_text neg +:+ "0e"), toks)
      else lex_idle (toks ++ [int_token neg 0]) c
  | LInt neg mag =>
      match digit_of c with
      | Some d => Some (LInt neg (10 * mag + d), toks)
      | None =>
          if Ascii.eqb c "." then Some (LFloat FDot (sign_text neg +:+ pretty mag +:+ "."), toks)
          else if Ascii.eqb c "e" || Ascii.eqb c "E"
          then Some (LFloat FE (sign_text neg +:+ pretty mag +:+ "e"), toks)
          else lex_idle (toks ++ [int_token neg mag]) c
      end
  | LFloat st lit =>
      let lit' := lit +:+ String c "" in
      match st, digit_of c with
      | FDot, Some _ => Some (LFloat FFrac lit', toks)
      | FFrac, Some _ => Some (LFloat FFrac lit', toks)
      | FE, Some _ => Some (LFloat FExp lit', toks)
      | FESign, Some _ => Some (LFloat FExp lit', toks)
      | FExp, Some _ => Some (LFloat FExp lit', toks)
      | FFrac, None =>
          if Ascii.eqb c "e" || Ascii.eqb c "E" then Some (LFloat FE (lit +:+ "e"), toks)
          else lex_idle (toks ++ [TScalar (VFloat lit)]) c
      | FE, None =>
          if Ascii.eqb c "+" || Ascii.eqb c "-" then Some (LFloat FESign lit', toks)
          else None
      | FExp, None => lex_idle (toks ++ [TScalar (VFloat lit)]) c
      | _, None => None
      end
  | LWord rest v =>
      match rest with
      | String c' rest' =>
          if Ascii.eqb c c'
          then match rest' with
               | EmptyString => Some (LIdle, toks ++ [TScalar v])
               | _ => Some (LWord rest' v, toks)
               end
          else None
      | EmptyString => None
      end
  end.

Fixpoint lex_feed (st : lex_state) (s : string) : option lex_state :=
  match s with
  | EmptyString => Some st
  | String c s' =>
      match lex_step st c with
      | Some st' => lex_feed st' s'
      | None => None
      end
  end.

(** End of input: a pending number is complete, anything else pending is an
    error. *)
Definition lex_finish (st : lex_state) : option (list token) :=
  let '(mode, toks) := st in
  match mode with
  | LIdle => Some toks
  | LZero neg => Some (toks ++ [int_token neg 0])
  | LInt neg mag => Some (toks ++ [int_token neg mag])
  | LFloat st lit => if float_accepting st then Some (toks ++ [TScalar (VFloat lit)]) else None
  | _ => None
  end.

Definition lex (s : string) : option (list token) :=
  match lex_feed (LIdle, []) s with
  | Some st => lex_finish st
  | None => None
  end.

(** ** JSON text: the parser over tokens *)

Inductive ctx :=
| CTop
| CArrFirst
| CArrVal (acc : list value)
| CArrNext (acc : list value)
| CObjFirst
| CObjKey (acc : list (string * value))
| CObjColon (acc : list (string * value)) (k : string)
| CObjVal (acc : list (string * value)) (k : string)
| CObjNext (acc : list (string * value))
| CEnd (v : value).

Definition parse_state : Type := ctx * list ctx.

(** A complete value [v] arrives in context [top]. *)
Definition plug (v : value) (top : ctx) (rest : list ctx) : option parse_state :=
  match top with
  | CTop => Some (CEnd v, rest)
  | CArrFirst => Some (CArrNext [v], rest)
  | CArrVal acc => Some (CArrNext (acc ++ [v]), rest)
  | CObjVal acc k => Some (CObjNext (obj_set acc k v), rest)
  | _ => None
  end.

Definition expects_value (top : ctx) : bool :=
  match top with
  | CTop | CArrFirst | CArrVal _ | CObjVal _ _ => true
  | _ => false
  end.

Definition close (v : value) (rest : list ctx) : option parse_state :=
  match rest with
  | top :: rest' => plug v top rest'
  | [] => None
  end.

Definition parse_step (st : parse_state) (t : token) : option parse_state :=
  let '(top, rest) := st in
  match t with
  | TScalar v =>
      match top, v with
      | CObjFirst, VStr k => Some (CObjColon [] k, rest)
      | CObjKey acc, VStr k => Some (CObjColon acc k, rest)
      | _, _ => plug v top rest
      end
  | TLBrack => if expects_value top then Some (CArrFirst, top :: rest) else None
  | TLBrace => if expects_value top then Some (CObjFirst, top :: rest) else None
  | TRBrack =>
      match top with
      | CArrFirst => close (VArr []) rest
      | CArrNext acc => close (VArr acc) rest
      | _ => None
      end
  | TRBrace =>
      match top with
      | CObjFirst => close (VObj []) rest
      | CObjNext acc => close (VObj acc) rest
      | _ => None
      end
  | TComma =>
      match top with
      | CArrNext acc => Some (CArrVal acc, rest)
      | CObjNext acc => Some (CObjKey acc, rest)
      | _ => None
      end
  | TColon =>
      match top with
      | CObjColon acc k => Some (CObjVal acc k, rest)
      | _ => None
      end
  end.

Fixpoint parse_feed (st : parse_state) (toks : list token) : option parse_state :=
  match toks with
  | [] => Some st
  | t :: toks' =>
      match parse_step st t with
      | Some st' => parse_feed st' toks'
      | None => None
      end
  end.

Definition parse_tokens (toks : list token) : option value :=
  match parse_feed (CTop, []) toks with
  | Some (CEnd v, []) => Some v
  | _ => None
  end.

(** [JSON.parse(text)]: [None] is the thrown [SyntaxError]. *)
Definition JSON_parse (text : string) : option value :=
  match lex text with
  | Some toks => parse_tokens toks
  | None => None
  end.

(** ** Operations of the language on values *)

Section Runtime.

(** The runtime's number-to-string conversion of the number denoted by a
    literal with a fraction or an exponent, and its [JSON.stringify]. *)
Variable Number_toString : string -> string.
Variable JSON_stringify : value -> string.

Definition to_boolean (v : value) : bool :=
  match v with
  | VUndefined | VNull => false
  | VBool b => b
  | VNum n => negb (n =? 0)
  | VFloat lit => negb (String.eqb (Number_toString lit) "0")
  | VStr s => negb (String.eqb s "")
  | VArr _ | VObj _ | VError _ _ _ => true
  end.

Fixpoint join (sep : string) (parts : list string) : string :=
  match parts with
  | [] => ""
  | [x] => x
  | x :: rest => x +:+ sep +:+ join sep rest
  end.

Definition error_name (cls : error_class) : string :=
  match cls with
  | SurrealError => "Error"
  | TypeError => "TypeError"
  | SyntaxError => "SyntaxError"
  end.

(** [String(v)], which is also the property key [v] denotes in [o[v]]. *)
Fixpoint ToString (v : value) : string :=
  match v with
  | VUndefined => "undefined"
  | VNull => "null"
  | VBool b => if b then "true" else "false"
  | VNum n => pretty n
  | VFloat lit => Number_toString lit
  | VStr s => s
  | VArr elems =>
      join "," (map (fun x => match x with
                              | VUndefined | VNull => ""
                              | _ => ToString x
                              end) elems)
  | VObj _ => "[object Object]"
  | VError cls message _ =>
      let msg := match message with VUndefined => "" | _ => ToString message end in
      if String.eqb msg "" then error_name cls else error_name cls +:+ ": " +:+ msg
  end.

(** [Array.prototype.join]: [null] and [undefined] elements are empty. *)
Definition array_join (sep : string) (elems : list value) : string :=
  join sep (map (fun x => match x with
                          | VUndefined | VNull => ""
                          | _ => ToString x
                          end) elems).

Definition type_error : value := VError TypeError VUndefined VUndefined.
Definition syntax_error : value := VError SyntaxError VUndefined VUndefined.

(** [v.k] for the names the class reads ([id], [result], [error],
    [message], [status]); none of them is a built-in property of a
    primitive or of an array. *)
Definition get_prop (v : value) (k : string) : completion :=
  match v with
  | VUndefined | VNull => Throw type_error
  | VObj props => Return (default VUndefined (obj_get props k))
  | VError _ message detail =>
      if String.eqb k "message" then Return message
      else if String.eqb k "detail" then Return detail
      else Return VUndefined
  | _ => Return VUndefined
  end.

(** [v.k = x] in strict code, returning the updated object.  A named
    property put on an array or on an error instance is not represented. *)
Definition set_prop (v : value) (k : string) (x : value) : completion :=
  match v with
  | VObj props => Return (VObj (obj_set props k x))
  | VArr _ | VError _ _ _ => Return v
  | _ => Throw type_error
  end.

(** ** Promises, sockets and the [Surreal] instance *)

Inductive settled := Fulfilled (v : value) | Rejected (e : value).

(** The promise store: [None] is a pending promise. *)
Abbreviation promises := (list (option settled)).

(** A [CallableFunction]: it may settle promises and may throw. *)
Definition callable : Type := value -> promises -> completion * promises.

Definition settle (p : nat) (s : settled) (ps : promises) : promises :=
  match ps !! p with
  | Some None => <[p := Some s]> ps
  | _ => ps
  end.

(** The two functions of [Promise.withResolvers()]. *)
Definition promise_resolve (p : nat) : callable :=
  fun v ps => (Return VUndefined, settle p (Fulfilled v) ps).
Definition promise_reject (p : nat) : callable :=
  fun e ps => (Return VUndefined, settle p (Rejected e) ps).

Record channel := Channel {
  resolve : callable;
  reject : callable;
  sql : string
}.

Record options := Options {
  ns : option string;
  db : option string;
  log : option bool
}.

Record Surreal := MkSurreal {
  url : string;
  opt : option options;
  ws : option nat;
  state : Z;
  channels : gmap string channel
}.

(** [new Surreal(url, opt)]; the [cred] field is written and never read. *)
Definition new_Surreal (url : string) (opt : option options) : Surreal :=
  {| url := url; opt := opt; ws := None; state := 0; channels := ∅ |}.

Inductive ready_state := CONNECTING | OPEN | CLOSING | CLOSED.

Record socket := Socket {
  target : string;
  readyState : ready_state;
  listeners : nat;
  sent : list string
}.

Record runtime := Runtime {
  this : Surreal;
  sockets : list socket;
  store : promises;
  console : list string
}.

(** [private get id()] *)
Definition get_id (s : Surreal) : Z * Surreal :=
  let st := if 1000 <? state s then 0 else state s in
  (st, {| url := url s; opt := opt s; ws := ws s; state := st + 1;
          channels := channels s |}).

Definition truthy_string (s : option string) : bool :=
  match s with
  | Some x => negb (String.eqb x "")
  | None => false
  end.

(** The request text composed in [send]. *)
Definition envelope (id : Z) (method : string) (params : option string) : string :=
  js "{'id':" +:+ pretty id +:+ js ",'method':'" +:+ method +:+ js "'" +:+
  (if truthy_string params then js ",'params':" +:+ default "" params else "") +:+ "}".

Definition use_params (ns db : string) : string :=
  js "['" +:+ ns +:+ js "','" +:+ db +:+ js "']".

Definition is_open (s : socket) : bool :=
  match readyState s with OPEN => true | _ => false end.

(** [this.ws && this.ws.readyState === this.ws.OPEN] *)
Definition ws_open (r : runtime) : bool :=
  match ws (this r) with
  | Some k => match sockets r !! k with
              | Some s => is_open s
              | None => false
              end
  | None => false
  end.

Definition with_this (r : runtime) (s : Surreal) : runtime :=
  {| this := s; sockets := sockets r; store := store r; console := console r |}.

(** [createWebSocket]: one new socket, connecting. *)
Definition createWebSocket (r : runtime) : runtime * nat :=
  let logging := match opt (this r) with
                 | Some o => default false (log o)
                 | None => false
                 end in
  ({| this := this r;
      sockets := sockets r ++ [Socket (url (this r)) CONNECTING 0 []];
      store := store r;
      console := if logging
                 then console r ++ ["[Surreal] new WebSocket " +:+ url (this r)]
                 else console r |},
   length (sockets r)).

(** [ws.send(text)]: transmitted when open, discarded when closing or
    closed, an exception while still connecting. *)
Inductive send_result := Transmitted (s : socket) | Refused.

Definition socket_send (text : string) (s : socket) : send_result :=
  match readyState s with
  | OPEN => Transmitted (Socket (target s) OPEN (listeners s) (sent s ++ [text]))
  | CONNECTING => Refused
  | _ => Transmitted s
  end.

(** Lines 111-118 of [send]: allocate the id, create the promise, register
    the channel, transmit.  Returns the promise awaited and the text. *)
Definition dispatch (method : string) (params : option string) (r : runtime)
  : runtime * (nat * string + value) :=
  let '(id, s1) := get_id (this r) in
  let p := length (store r) in
  let text := envelope id method params in
  let s2 := {| url := url s1; opt := opt s1; ws := ws s1; state := state s1;
               channels := <[pretty id := Channel (promise_resolve p) (promise_reject p) text]>
                             (channels s1) |} in
  let r2 := {| this := s2; sockets := sockets r; store := store r ++ [None];
               console := console r |} in
  match ws s2 with
  | None => (r2, inr type_error)
  | Some k =>
      match sockets r !! k with
      | None => (r2, inr type_error)
      | Some sk =>
          match socket_send text sk with
          | Transmitted sk' =>
              ({| this := s2; sockets := <[k := sk']> (sockets r);
                  store := store r ++ [None]; console := console r |},
               inl (p, text))
          | Refused => (r2, inr type_error)
          end
      end
  end.

(** Lines 120-127 of [send], once the awaited promise is fulfilled with
    [result]. *)
Definition send_finish (text : string) (result : value) : completion :=
  match get_prop result "error" with
  | Throw e => Throw e
  | Return err =>
      if to_boolean err then
        match set_prop err "sql" (VStr text) with
        | Throw e => Throw e
        | Return err' =>
            match get_prop err' "message" with
            | Throw e => Throw e
            | Return m => Throw (VError SurrealError m err')
            end
        end
      else get_prop result "result"
  end.

(** [v === s] for a string [s]. *)
Definition is_string (v : value) (s : string) : bool :=
  match v with
  | VStr x => String.eqb x s
  | _ => false
  end.

(** The callback of [response.result.map] in [query], threading [errs]. *)
Fixpoint query_map (outcomes : list value) (errs : list value)
  : (list value * list value) + value :=
  match outcomes with
  | [] => inl ([], errs)
  | e :: rest =>
      match get_prop e "status", get_prop e "result" with
      | Return status, Return res =>
          if is_string status "ERR" then
            match query_map rest (errs ++ [res]) with
            | inl (results, errs') => inl (VUndefined :: results, errs')
            | inr t => inr t
            end
          else
            match query_map rest errs with
            | inl (results, errs') => inl (res :: results, errs')
            | inr t => inr t
            end
      | Throw t, _ => inr t
      | _, Throw t => inr t
      end
  end.

(** Lines 210-223 of [query], applied to what [send] returned. *)
Definition query_finish (text : string) (response : value) : completion :=
  match get_prop response "result" with
  | Throw e => Throw e
  | Return (VArr outcomes) =>
      match query_map outcomes [] with
      | inr t => Throw t
      | inl (results, errs) =>
          match errs with
          | [] => Return (VArr results)
          | _ => Throw (VError SurrealError (VStr (array_join ";" errs))
                          (VObj [("sql", VStr text)]))
          end
      end
  | Return _ => Throw type_error
  end.

(** Line 206 of [query]. *)
Definition query_text (ql : string) (params : value) : string :=
  JSON_stringify (VStr ql) +:+
  (if to_boolean params then "," +:+ JSON_stringify params else "").

(** ** The inbound [message] listener (lines 78-99) *)

Inductive which := RESOLVE | REJECT.
Inductive invocation := Invoked (f : which) (arg : value).

(** Names every object inherits from [Object.prototype]: [channels[key]]
    finds them when the table has no entry of its own. *)
Definition Object_prototype_names : list string :=
  ["constructor"; "__defineGetter__"; "__defineSetter__"; "hasOwnProperty";
   "__lookupGetter__"; "__lookupSetter__"; "isPrototypeOf";
   "propertyIsEnumerable"; "toString"; "valueOf"; "__proto__";
   "toLocaleString"].

Definition inherited (key : string) : bool :=
  existsb (String.eqb key) Object_prototype_names.

(** The inner [try { channel.resolve(app) } catch (err) { channel.reject(err) }]:
    the calls made, how the block completes, and the promise store. *)
Definition deliver (ch : channel) (app : value) (ps : promises)
  : list invocation * completion * promises :=
  match resolve ch app ps with
  | (Return _, ps1) => ([Invoked RESOLVE app], Return VUndefined, ps1)
  | (Throw err, ps1) =>
      match reject ch err ps1 with
      | (Return _, ps2) => ([Invoked RESOLVE app; Invoked REJECT err], Return VUndefined, ps2)
      | (Throw err2, ps2) => ([Invoked RESOLVE app; Invoked REJECT err], Throw err2, ps2)
      end
  end.

Definition parse_failure (data : string) (err : value) : value :=
  VError SurrealError (VStr ("Failed parse JSON from surreal: " +:+ data)) err.

Definition with_channels (s : Surreal) (m : gmap string channel) : Surreal :=
  {| url := url s; opt := opt s; ws := ws s; state := state s; channels := m |}.

(** One run of the listener on a frame's text: the continuations it
    invoked, its completion (a [Throw] leaves the listener uncaught) and
    the runtime afterwards. *)
Definition on_message (data : string) (r : runtime)
  : list invocation * completion * runtime :=
  match JSON_parse data with
  | None => ([], Throw (parse_failure data syntax_error), r)
  | Some app =>
      match get_prop app "id" with
      | Throw e => ([], Throw (parse_failure data e), r)
      | Return idv =>
          let key := ToString idv in
          match channels (this r) !! key with
          | Some ch =>
              let '(calls, c, ps) := deliver ch app (store r) in
              let r' := {| this := with_channels (this r) (delete key (channels (this r)));
                           sockets := sockets r; store := ps; console := console r |} in
              (calls,
               match c with
               | Throw e => Throw (parse_failure data e)
               | Return _ => Return VUndefined
               end,
               r')
          | None =>
              if inherited key
              then ([], Throw (parse_failure data type_error), r)
              else ([], Return VUndefined,
                    {| this := this r; sockets := sockets r; store := store r;
                       console := console r ++
                         ["[WebSocket] No channel present for id " +:+ key] |})
          end
      end
  end.

(** ** Asynchronous calls

    A call of an [async] method runs until its first [await] and is
    suspended there, also when what it awaits is settled already; what
    remains to be done is a stack of continuations, innermost first.  The
    continuations that are ready run when the code that is running returns
    to the event loop, and so before the next event of a socket. *)

Inductive kframe :=
| KSetupOpened (k : nat)      (* [setup] after [await this.createWebSocket()] *)
| KSetupUsed                  (* [setup] after [await this.use(...)] *)
| KSendReady (method : string) (params : option string)
                              (* [send] after [await this.setup()] *)
| KSendDone (text : string)   (* [send] after [await promise] *)
| KQueryDone (text : string). (* [query] after [await this.send(...)] *)

Inductive wait :=
| WOpen (k : nat)    (* the promise of [createWebSocket] for socket [k] *)
| WReply (p : nat)   (* the promise [p] of the store *)
| WTick.             (* a promise that is settled already *)

Inductive task :=
| Blocked (on : wait) (stack : list kframe)
| Finished (c : completion).

(** [setup] up to its first [await]: [None] when it returns at once. *)
Definition call_setup (r : runtime) : runtime * option (wait * list kframe) :=
  if ws_open r then (r, None)
  else let '(r', k) := createWebSocket r in
       (r', Some (WOpen k, [KSetupOpened k])).

(** [send] from line 111 on, with [rest] the continuations of its callers. *)
Definition send_ready (method : string) (params : option string)
    (rest : list kframe) (r : runtime) : runtime * task :=
  match dispatch method params r with
  | (r', inl (p, text)) => (r', Blocked (WReply p) (KSendDone text :: rest))
  | (r', inr e) => (r', Finished (Throw e))
  end.

(** A call of [send] with [rest] the continuations of its callers: it runs
    [setup] up to its first [await] and is suspended at
    [await this.setup()], on the socket's opening or, when [setup] has
    returned at once, until the running code yields. *)
Definition call_send (method : string) (params : option string)
    (rest : list kframe) (r : runtime) : runtime * task :=
  match call_setup r with
  | (r', Some (w, stk)) => (r', Blocked w (stk ++ KSendReady method params :: rest))
  | (r', None) => (r', Blocked WTick (KSendReady method params :: rest))
  end.

Definition session (s : Surreal) : option (string * string) :=
  match opt s with
  | Some o =>
      if truthy_string (ns o) && truthy_string (db o)
      then Some (default "" (ns o), default "" (db o))
      else None
  | None => None
  end.

Definition add_listener (k : nat) (socks : list socket) : list socket :=
  match socks !! k with
  | Some s => <[k := Socket (target s) (readyState s) (S (listeners s)) (sent s)]> socks
  | None => socks
  end.

(** Lines 75-99 of [setup] once socket [k] is open: [this.ws] and the
    listener. *)
Definition setup_opened (k : nat) (r : runtime) : runtime :=
  {| this := {| url := url (this r); opt := opt (this r); ws := Some k;
                state := state (this r); channels := channels (this r) |};
     sockets := add_listener k (sockets r);
     store := store r; console := console r |}.

(** Resume a suspended call with the completion [c] of what it awaited. *)
Fixpoint resume (stack : list kframe) (c : completion) (r : runtime)
  : runtime * task :=
  match stack with
  | [] => (r, Finished c)
  | f :: rest =>
      match c with
      | Throw e => (r, Finished (Throw e))
      | Return v =>
          match f with
          | KSendDone text => resume rest (send_finish text v) r
          | KQueryDone text => resume rest (query_finish text v) r
          | KSetupUsed => resume rest (Return VUndefined) r
          | KSendReady method params => send_ready method params rest r
          | KSetupOpened k =>
              let r1 := setup_opened k r in
              match session (this r1) with
              | Some (n, d) => call_send "use" (Some (use_params n d)) (KSetupUsed :: rest) r1
              | None => resume rest (Return VUndefined) r1
              end
          end
      end
  end.

(** Whether what a task waits for has happened: a settled promise, or the
    outcome [opened] of a connection attempt reported by the current event. *)
Definition ready (r : runtime) (opened : option (nat * completion)) (w : wait)
  : option completion :=
  match w with
  | WReply p =>
      match store r !! p with
      | Some (Some (Fulfilled v)) => Some (Return v)
      | Some (Some (Rejected e)) => Some (Throw e)
      | _ => None
      end
  | WOpen k =>
      match opened with
      | Some (k', c) => if (k =? k')%nat then Some c else None
      | None => None
      end
  | WTick => Some (Return VUndefined)
  end.

Fixpoint wake (opened : option (nat * completion)) (ts : list task) (r : runtime)
  : runtime * list task :=
  match ts with
  | [] => (r, [])
  | t :: ts' =>
      let '(r1, t1) :=
        match t with
        | Blocked w stack =>
            match ready r opened w with
            | Some c => resume stack c r
            | None => (r, t)
            end
        | Finished _ => (r, t)
        end in
      let '(r2, ts2) := wake opened ts' r1 in
      (r2, t1 :: ts2)
  end.

(** ** The event loop *)

Record world := World {
  rt : runtime;
  tasks : list task;
  uncaught : list value
}.

Inductive call :=
| CSend (method : string) (params : option string)
| CUse (n d : string)
| CQuery (ql : string) (params : value).

Inductive event :=
| ECall (c : call)                                 (* the application calls a method *)
| EShutdown                                        (* the application calls [close()] *)
| EOpen (k : nat)                                  (* socket [k]: [open] *)
| EError (k : nat) (e : list (string * value))     (* socket [k]: [error] *)
| EClose (k : nat) (e : list (string * value))     (* socket [k]: [close] *)
| EMessage (k : nat) (data : string)               (* socket [k]: [message] *)
| EYield.                                          (* the running code returns to the event loop *)

Definition start (c : call) (r : runtime) : runtime * task :=
  match c with
  | CSend method params => call_send method params [] r
  | CUse n d => call_send "use" (Some (use_params n d)) [] r
  | CQuery ql params =>
      let text := query_text ql params in
      call_send "query" (Some ("[" +:+ text +:+ "]")) [KQueryDone text] r
  end.

Definition set_ready_state (k : nat) (st : ready_state) (r : runtime) : runtime :=
  match sockets r !! k with
  | Some s =>
      {| this := this r;
         sockets := <[k := Socket (target s) st (listeners s) (sent s)]> (sockets r);
         store := store r; console := console r |}
  | None => r
  end.

Definition socket_state (k : nat) (r : runtime) : option ready_state :=
  readyState <$> sockets r !! k.

(** The listener runs once per registration on the socket. *)
Fixpoint run_listeners (n : nat) (data : string) (r : runtime) (errs : list value)
  : runtime * list value :=
  match n with
  | O => (r, errs)
  | S n' =>
      let '(_, c, r') := on_message data r in
      run_listeners n' data r'
        (match c with Throw e => errs ++ [e] | Return _ => errs end)
  end.

Definition failed (message : string) (e : list (string * value)) : completion :=
  Throw (VError SurrealError (default VUndefined (obj_get e message)) (VObj e)).

(** The continuations that are ready run, in the order in which the
    calls were begun. *)
Definition drain (w : world) : world :=
  let '(r, ts) := wake None (tasks w) (rt w) in
  World r ts (uncaught w).

(** What the event of a socket does when it is dispatched. *)
Definition socket_event (ev : event) (w : world) : world :=
  match ev with
  | EOpen k =>
      match socket_state k (rt w) with
      | Some CONNECTING =>
          let '(r, ts) := wake (Some (k, Return VUndefined)) (tasks w)
                            (set_ready_state k OPEN (rt w)) in
          World r ts (uncaught w)
      | _ => w
      end
  | EError k e =>
      match socket_state k (rt w) with
      | Some CONNECTING =>
          let '(r, ts) := wake (Some (k, failed "message" e)) (tasks w)
                            (set_ready_state k CLOSED (rt w)) in
          World r ts (uncaught w)
      | _ => w
      end
  | EClose k e =>
      match socket_state k (rt w) with
      | Some CONNECTING =>
          let '(r, ts) := wake (Some (k, failed "reason" e)) (tasks w)
                            (set_ready_state k CLOSED (rt w)) in
          World r ts (uncaught w)
      | Some _ => World (set_ready_state k CLOSED (rt w)) (tasks w) (uncaught w)
      | None => w
      end
  | EMessage k data =>
      match sockets (rt w) !! k with
      | Some s =>
          match readyState s with
          | OPEN | CLOSING =>
              let '(r1, errs) := run_listeners (listeners s) data (rt w) (uncaught w) in
              let '(r2, ts) := wake None (tasks w) r1 in
              World r2 ts errs
          | _ => w
          end
      | None => w
      end
  | _ => w
  end.

(** One event.  A call and [close()] are steps of the code that is
    running: the continuations they leave ready wait until that code
    yields.  The event of a socket is dispatched once the running code
    has yielded, and the continuations it makes ready run before the next
    event. *)
Definition run_event (ev : event) (w : world) : world :=
  match ev with
  | ECall c =>
      let '(r, t) := start c (rt w) in
      World r (tasks w ++ [t]) (uncaught w)
  | EShutdown =>
      match ws (this (rt w)) with
      | Some k =>
          match socket_state k (rt w) with
          | Some CONNECTING | Some OPEN =>
              World (set_ready_state k CLOSING (rt w)) (tasks w) (uncaught w)
          | _ => w
          end
      | None => w
      end
  | EYield => drain w
  | _ => drain (socket_event ev (drain w))
  end.

Definition run_events (evs : list event) (w : world) : world :=
  fold_left (fun w ev => run_event ev w) evs w.

(** The world right after [new Surreal(url, opt)]. *)
Definition new_world (url : string) (opt : option options) : world :=
  World (Runtime (new_Surreal url opt) [] [] []) [] [].

(** ** Request ids *)

(** The handle after [n] reads of [id]. *)
Fixpoint after_reads (n : nat) (s : Surreal) : Surreal :=
  match n with
  | O => s
  | S n' => snd (get_id (after_reads n' s))
  end.

(** What the [k]-th read of [id] returns, [k] counted from 1. *)
Definition kth_id (k : nat) (s : Surreal) : Z :=
  fst (get_id (after_reads (pred k) s)).

(** The counter stays between 0 and 1001. *)
Definition counter_ok (s : Surreal) : Prop := 0 <= state s <= 1001.

(** ** Characters of a request text *)

(** A character that stands for itself inside a JSON string literal. *)
Definition plain (c : ascii) : bool :=
  negb (Ascii.eqb c "034") && negb (Ascii.eqb c "092") && negb (N_of_ascii c <? 32)%N.

Fixpoint plain_string (s : string) : bool :=
  match s with
  | EmptyString => true
  | String c s' => plain c && plain_string s'
  end.

(** The lexer is outside a string literal (and the rest of a word it
    expects has no double quote). *)
Definition outside_string (m : lex_mode) : bool :=
  match m with
  | LStr _ | LEsc _ | LHex _ _ _ => false
  | LWord rest _ => plain_string rest
  | _ => true
  end.

(** Neither a double quote nor a backslash. *)
Fixpoint quote_free (s : string) : bool :=
  match s with
  | EmptyString => true
  | String c s' =>
      negb (Ascii.eqb c "034") && negb (Ascii.eqb c "092") && quote_free s'
  end.

Fixpoint raw_units (s : string) : list unit16 :=
  match s with
  | EmptyString => []
  | String c s' => Raw c :: raw_units s'
  end.

(** ** Outcomes of the statements of a batch *)

Definition failed_outcome (o : list (string * value)) : bool :=
  is_string (default VUndefined (obj_get o "status")) "ERR".

Definition outcome_result (o : list (string * value)) : value :=
  default VUndefined (obj_get o "result").

(** ** Outstanding calls of [send]

    What one call of [send] holds while it waits: its id, the promise it
    awaits, its place among the calls, the text it transmitted. *)

Record ticket := Ticket {
  t_id : Z;
  t_promise : nat;
  t_task : nat;
  t_text : string
}.

Definition waiting (w : world) (tk : ticket) : Prop :=
  channels (this (rt w)) !! pretty (t_id tk) =
    Some (Channel (promise_resolve (t_promise tk)) (promise_reject (t_promise tk))
            (t_text tk))
  /\ store (rt w) !! t_promise tk = Some None
  /\ tasks w !! t_task tk = Some (Blocked (WReply (t_promise tk)) [KSendDone (t_text tk)]).

Definition completed (w : world) (tk : ticket) (app : value) : Prop :=
  store (rt w) !! t_promise tk = Some (Some (Fulfilled app))
  /\ tasks w !! t_task tk = Some (Finished (send_finish (t_text tk) app)).

(** Every call is finished or is a plain [send] awaiting a pending promise. *)
Definition simple_task (r : runtime) (t : task) : Prop :=
  match t with
  | Finished _ => True
  | Blocked (WReply p) [KSendDone _] => store r !! p = Some None
  | _ => False
  end.

Definition calm (w : world) : Prop := Forall (simple_task (rt w)) (tasks w).

(** The handle's socket is socket [k], open, with the listener installed. *)
Definition connected (k : nat) (r : runtime) : Prop :=
  ws (this r) = Some k
  /\ exists s, sockets r !! k = Some s /\ readyState s = OPEN /\ (0 < listeners s)%nat.

Definition finished (t : task) : Prop := exists c, t = Finished c.

(** ** Session scoping

    The request that scopes the session, and the facts about a world that
    make it the first frame on every socket. *)

Definition use_request (nsp dbn : string) (text : string) : Prop :=
  exists id, text = envelope id "use" (Some (use_params nsp dbn)).

Definition scoped_first (nsp dbn : string) (s : socket) : Prop :=
  match sent s with
  | [] => True
  | first :: _ => use_request nsp dbn first
  end.

(** [this.ws] is a socket that has been opened and, while open, has
    already been used. *)
Definition handle_ok (r : runtime) : Prop :=
  forall k, ws (this r) = Some k ->
    exists s, sockets r !! k = Some s
      /\ readyState s <> CONNECTING
      /\ (readyState s = OPEN -> sent s <> []).

Definition runtime_ok (nsp dbn : string) (r : runtime) : Prop :=
  session (this r) = Some (nsp, dbn)
  /\ (forall k s, sockets r !! k = Some s -> scoped_first nsp dbn s)
  /\ handle_ok r.

Definition plain_frame (f : kframe) : Prop :=
  match f with
  | KSetupOpened _ => False
  | _ => True
  end.

(** A suspended [setup] waits for the socket it created, and only there. *)
Definition task_ok (t : task) : Prop :=
  match t with
  | Blocked (WOpen k) (KSetupOpened k' :: rest) => k' = k /\ Forall plain_frame rest
  | Blocked (WOpen _) _ => False
  | Blocked (WReply _) stack => Forall plain_frame stack
  | Blocked WTick (KSendReady _ _ :: rest) => Forall plain_frame rest
  | Blocked WTick _ => False
  | Finished _ => True
  end.

Definition world_ok (nsp dbn : string) (w : world) : Prop :=
  runtime_ok nsp dbn (rt w) /\ Forall task_ok (tasks w).

(** Sockets stay, with their ready states. *)
Definition states_kept (r r' : runtime) : Prop :=
  forall k s, sockets r !! k = Some s ->
    exists s', sockets r' !! k = Some s' /\ readyState s' = readyState s.

(** The same without the last clause of [handle_ok]: what holds between
    the moment [setup] has stored the opened socket and the moment the
    scoping request is sent on it. *)
Definition runtime_weak (nsp dbn : string) (r : runtime) : Prop :=
  session (this r) = Some (nsp, dbn)
  /\ (forall k s, sockets r !! k = Some s -> scoped_first nsp dbn s)
  /\ (forall k, ws (this r) = Some k ->
        exists s, sockets r !! k = Some s /\ readyState s <> CONNECTING).

(** The promises of the store stay, and pending ones are added. *)
Definition store_grows (r r' : runtime) : Prop :=
  exists n, store r' = store r ++ replicate n None.

(** A task with nothing to do until the next event. *)
Definition quiet (r : runtime) (t : task) : Prop :=
  match t with
  | Blocked on _ => ready r None on = None
  | Finished _ => True
  end.

(** The first task with something to do is the call of [use] made by
    [setup], about to send its request. *)
Definition use_pending (nsp dbn : string) (r : runtime) (ts : list task) : Prop :=
  exists ts1 rest ts2,
    ts = ts1 ++ Blocked WTick (KSendReady "use" (Some (use_params nsp dbn)) :: rest) :: ts2
    /\ Forall (quiet r) ts1 /\ Forall plain_frame rest.

(** ** No continuation left to run *)

Definition no_task_ready (w : world) : Prop :=
  Forall (fun t => match t with
                   | Blocked on _ => ready (rt w) None on = None
                   | Finished _ => True
                   end) (tasks w).

(** ** Auxiliary definitions *)

Definition number_start (neg : bool) : lex_mode := if neg then LMinus else LIdle.

(** The lexer's mode after the digits of an integer. *)
Definition after_int (n : Z) : lex_mode :=
  match n with
  | Z0 => LZero false
  | Zpos p => LInt false (Npos p)
  | Zneg p => LInt true (Npos p)
  end.

(** A call of [send] on an open connection, spelled out. *)
Definition sent_request (k : nat) (method : string) (params : option string)
    (r : runtime) : runtime :=
  let id := fst (get_id (this r)) in
  let p := length (store r) in
  let text := envelope id method params in
  {| this := with_channels (snd (get_id (this r)))
               (<[pretty id := Channel (promise_resolve p) (promise_reject p) text]>
                  (channels (this r)));
     sockets := match sockets r !! k with
                | Some sk => <[k := Socket (target sk) OPEN (listeners sk) (sent sk ++ [text])]>
                               (sockets r)
                | None => sockets r
                end;
     store := store r ++ [None];
     console := console r |}.

Definition ticket_of (w : world) (i : nat) (call : string * option string) : ticket :=
  let id := kth_id (S i) (this (rt w)) in
  Ticket id (length (store (rt w)) + i) (length (tasks w) + i)
    (envelope id (fst call) (snd call)).

Definition issue (calls : list (string * option string)) : list event :=
  map (fun c => ECall (CSend (fst c) (snd c))) calls.

(** The listener's effect on the runtime, apart from the console. *)
Definition same_core (r r' : runtime) : Prop :=
  this r' = this r /\ sockets r' = sockets r /\ store r' = store r.

(** What the reply with promise [p] does to a waiting call. *)
Definition settle_task (p : nat) (app : value) (t : task) : task :=
  match t with
  | Blocked (WReply q) [KSendDone text] =>
      if decide (q = p) then Finished (send_finish text app) else t
  | _ => t
  end.

(** ** The operations built on [send] (lines 134-203)

    Each operation is a call of [send] with a method and a parameter text
    pasted together from its arguments. *)

(** [["${arg}"]], the parameter text of [authenticate], [select] and
    [delete]. *)
Definition one_param (arg : string) : string := js "['" +:+ arg +:+ js "']".

Definition op_info : call := CSend "info" None.
Definition op_invalidate : call := CSend "invalidate" None.
Definition op_authenticate (token : string) : call :=
  CSend "authenticate" (Some (one_param token)).
Definition op_select (table : string) : call :=
  CSend "select" (Some (one_param table)).
Definition op_delete (id : string) : call :=
  CSend "delete" (Some (one_param id)).

Definition signup_params (nsp dbn sc username password : string) : string :=
  js "[{'NS':'" +:+ nsp +:+ js "','DB':'" +:+ dbn +:+ js "','SC':'" +:+ sc +:+
  js "','username':'" +:+ username +:+ js "','password':'" +:+ password +:+ js "'}]".

Definition op_signup (nsp dbn sc username password : string) : call :=
  CSend "signup" (Some (signup_params nsp dbn sc username password)).

(** [(x ? `,"NAME":"${x}"` : "")] in [signin]. *)
Definition member_if (name : string) (x : option string) : string :=
  if truthy_string x
  then js ",'" +:+ name +:+ js "':'" +:+ default "" x +:+ js "'"
  else "".

Definition signin_params (user pass : string) (nsp dbn sc : option string) : string :=
  js "[{'user':'" +:+ user +:+ js "','pass':'" +:+ pass +:+ js "'" +:+
  (member_if "NS" nsp +:+ member_if "DB" dbn +:+ member_if "SC" sc) +:+ js "}]".

Definition op_signin (user pass : string) (nsp dbn sc : option string) : call :=
  CSend "signin" (Some (signin_params user pass nsp dbn sc)).

(** [["${table}",${JSON.stringify(values)}]], the parameter text of
    [create], [update], [merge] and [patch]. *)
Definition record_params (target : string) (values : value) : string :=
  js "['" +:+ target +:+ js "'," +:+ JSON_stringify values +:+ "]".

Definition op_create (table : string) (values : value) : call :=
  CSend "create" (Some (record_params table values)).
Definition op_update (id : string) (values : value) : call :=
  CSend "update" (Some (record_params id values)).
Definition op_merge (id : string) (values : value) : call :=
  CSend "merge" (Some (record_params id values)).
Definition op_patch (id : string) (values : value) : call :=
  CSend "patch" (Some (record_params id values)).

(** The text a call puts on the wire when [id] is the id it is given. *)
Definition request_text (id : Z) (c : call) : string :=
  match c with
  | CSend method params => envelope id method params
  | CUse n d => envelope id "use" (Some (use_params n d))
  | CQuery ql params =>
      envelope id "query" (Some ("[" +:+ query_text ql params +:+ "]"))
  end.

(** The members [signin] adds for the arguments it is given. *)
Definition member_value (name : string) (x : option string) : list (string * value) :=
  if truthy_string x then [(name, VStr (default "" x))] else [].

(** An optional argument, when given, is made of plain characters. *)
Definition plain_option (x : option string) : bool :=
  match x with
  | Some s => plain_string s
  | None => true
  end.

(** A character after which a value is complete. *)
Definition closing (c : ascii) : option token :=
  if Ascii.eqb c "}" then Some TRBrace
  else if Ascii.eqb c "]" then Some TRBrack
  else if Ascii.eqb c "," then Some TComma
  else None.

(** The parser's state when its run from the top is replayed where a value
    is expected, in context [top] above [rest]. *)
Definition graft (top : ctx) (rest : list ctx) (st : parse_state) : option parse_state :=
  match st with
  | (CTop, _) => Some (top, rest)
  | (CEnd v, _) => plug v top rest
  | (t, stk) => Some (t, removelast stk ++ top :: rest)
  end.

(** A context of an open array or object in which a value is expected. *)
Definition awaits_value (t : ctx) : Prop :=
  match t with
  | CArrFirst | CArrVal _ | CObjVal _ _ => True
  | _ => False
  end.

(** States of a run from the top: the bottom of the stack is [CTop]. *)
Definition from_top (st : parse_state) : Prop :=
  match st with
  | (CTop, stk) => stk = []
  | (CEnd _, stk) => stk = []
  | (_, stk) => exists stk', stk = stk' ++ [CTop] /\ Forall awaits_value stk'
  end.

(** Tokens already produced, put in front of a lexer state. *)
Definition with_prefix (pre : list token) (st : option lex_state) : option lex_state :=
  match st with
  | Some (m, toks) => Some (m, pre ++ toks)
  | None => None
  end.

(** The runtime after [n] warnings of the listener about the key [key]. *)
Definition warned (key : string) (n : nat) (r : runtime) : runtime :=
  {| this := this r; sockets := sockets r; store := store r;
     console := console r ++
       replicate n ("[WebSocket] No channel present for id " +:+ key) |}.

(** ** First calls

    What a call leaves to be done after [setup], and the call suspended
    on the opening of the socket [j] it created. *)
Definition after_setup (c : call) : list kframe :=
  match c with
  | CSend method params => [KSendReady method params]
  | CUse n d => [KSendReady "use" (Some (use_params n d))]
  | CQuery ql params =>
      let text := query_text ql params in
      [KSendReady "query" (Some ("[" +:+ text +:+ "]")); KQueryDone text]
  end.

Definition connecting (j : nat) (c : call) : task :=
  Blocked (WOpen j) (KSetupOpened j :: after_setup c).

(** The method and the parameter text of the request a call sends. *)
Definition wire (c : call) : string * option string :=
  match c with
  | CSend method params => (method, params)
  | CUse n d => ("use", Some (use_params n d))
  | CQuery ql params => ("query", Some ("[" +:+ query_text ql params +:+ "]"))
  end.

(** A call begun while the handle's socket is open: suspended until the
    running code yields, and then waiting for the reply to its request,
    sent with the id [id] and awaiting the promise [p]. *)
Definition suspended (c : call) : task := Blocked WTick (after_setup c).

Definition dispatched (id : Z) (p : nat) (c : call) : task :=
  Blocked (WReply p) (KSendDone (request_text id c) :: tl (after_setup c)).

(** A call of [send] given as its method and parameter text. *)
Definition send_call (c : string * option string) : call := CSend (fst c) (snd c).

(** The rejection of a connection attempt that an [error] or [close]
    event brings. *)
Definition attempt_outcome (ev : event) : option (nat * completion) :=
  match ev with
  | EError k e => Some (k, failed "message" e)
  | EClose k e => Some (k, failed "reason" e)
  | _ => None
  end.

(** The line [createWebSocket] logs when the [log] option is set. *)
Definition logged (url : string) (o : option options) : list string :=
  if match o with
     | Some x => default false (log x)
     | None => false
     end
  then ["[Surreal] new WebSocket " +:+ url]
  else [].

(** ** Values of a reply *)

(** A value that is not an object: no property can be put on it. *)
Definition primitive (v : value) : bool :=
  match v with
  | VObj _ | VArr _ | VError _ _ _ => false
  | _ => true
  end.

(** [null] or [undefined]: reading a property of it raises a [TypeError]. *)
Definition nullish (v : value) : bool :=
  match v with
  | VUndefined | VNull => true
  | _ => false
  end.

(** The list that [query] maps over, [frame.result.result], when the reply
    frame has one. *)
Definition nested_outcomes (frame : list (string * value)) : option (list value) :=
  match get_prop (default VUndefined (obj_get frame "result")) "result" with
  | Return (VArr outcomes) => Some outcomes
  | _ => None
  end.

(** ** What every reachable runtime satisfies

    The counter is in its range; every key of the table is the text of an
    id between 0 and 1000, and its entry holds the two functions of one
    promise and a request text carrying that id; no promise is rejected. *)
Definition entry_ok (key : string) (ch : channel) : Prop :=
  exists id p method params,
    key = pretty id /\ 0 <= id <= 1000
    /\ ch = Channel (promise_resolve p) (promise_reject p) (envelope id method params).

Definition sound (r : runtime) : Prop :=
  counter_ok (this r)
  /\ (forall key ch, channels (this r) !! key = Some ch -> entry_ok key ch)
  /\ (forall p e, store r !! p <> Some (Some (Rejected e))).

(** Each entry of the table holds the functions of a promise of the
    store, and no two entries those of the same promise. *)
Definition own_promises (r : runtime) : Prop :=
  forall key p text,
    channels (this r) !! key =
      Some (Channel (promise_resolve p) (promise_reject p) text) ->
    (p < length (store r))%nat
    /\ forall key' text',
         channels (this r) !! key' =
           Some (Channel (promise_resolve p) (promise_reject p) text') ->
         key' = key.

(** ** Listeners

    The ready state and the number of [message] listeners of each socket,
    and the sockets whose opening some call still waits for. *)
Definition wiring (r : runtime) : list (ready_state * nat) :=
  (fun s => (readyState s, listeners s)) <$> sockets r.

Fixpoint opens (ts : list task) : list nat :=
  match ts with
  | [] => []
  | Blocked (WOpen k) _ :: ts' => k :: opens ts'
  | _ :: ts' => opens ts'
  end.

(** At most one listener on a socket, and none before it has opened. *)
Definition wired (W : list (ready_state * nat)) : Prop :=
  forall k st n, W !! k = Some (st, n) ->
    (n <= 1)%nat /\ (st = CONNECTING -> n = 0%nat).

(** A call past its [setup]. *)
Definition past_setup (t : task) : Prop :=
  match t with
  | Blocked (WReply _) stack => Forall plain_frame stack
  | Blocked WTick stack => Forall plain_frame stack
  | Blocked (WOpen _) _ => False
  | Finished _ => True
  end.

(** A call is past its [setup], or waits for a socket on which the
    listener is not installed yet. *)
Definition awaited (W : list (ready_state * nat)) (t : task) : Prop :=
  match t with
  | Blocked (WOpen k) (KSetupOpened k' :: rest) =>
      k' = k /\ Forall plain_frame rest /\ exists st, W !! k = Some (st, 0%nat)
  | _ => past_setup t
  end.

Definition tidy (w : world) : Prop :=
  wired (wiring (rt w))
  /\ Forall (awaited (wiring (rt w))) (tasks w)
  /\ NoDup (opens (tasks w)).

(** The socket whose opening an event reports to the calls, if any. *)
Definition opened_socket (opened : option (nat * completion)) : option nat :=
  match opened with
  | Some (k, Return _) => Some k
  | _ => None
  end.

(** One step of [wake]: the call [t] goes on if what it waits for has
    happened. *)
Definition wake_step (opened : option (nat * completion)) (t : task) (r : runtime)
  : runtime * task :=
  match t with
  | Blocked w stack =>
      match ready r opened w with
      | Some c => resume stack c r
      | None => (r, t)
      end
  | Finished _ => (r, t)
  end.

(** ** Examples

    The runtime's conversions are parameters of the development; the
    examples fix them to two simple functions. *)

Definition literal_text (lit : string) : string := lit.

Definition quoted_strings (v : value) : string :=
  match v with
  | VStr s => js "'" +:+ s +:+ js "'"
  | _ => "null"
  end.

Definition endpoint : string := "ws://127.0.0.1:8000/rpc".

Definition test_options : options := Options (Some "test") (Some "test") None.

(** A handle whose first call, [info], has been answered: socket 0 is open
    and the counter is at 1. *)
Definition served : world :=
  World
    (Runtime
       {| url := endpoint; opt := None; ws := Some 0%nat; state := 1; channels := ∅ |}
       [Socket endpoint OPEN 1 [envelope 0 "info" None]]
       [Some (Fulfilled (VObj [("id", VNum 0); ("result", VNull)]))]
       [])
    [Finished (Return VNull)]
    [].

Definition two_calls : list (string * option string) :=
  [("select", Some (js "['app']")); ("info", None)].

Definition two_replies (i : nat) : string :=
  match i with
  | O => js "{'id':1,'result':[{'my':412}]}"
  | _ => js "{'id':2,'result':null}"
  end.

(** The reply, without an error, to the request with the id [id]. *)
Definition reply_to (id : Z) : string :=
  js "{'id':" +:+ pretty id +:+ js ",'result':null}".

(** A session in which the id of an outstanding call is given out again:
    a first call is begun and the socket opens, but no reply to it
    arrives; a thousand calls follow, each answered before the next; then
    one more call is begun. *)
Definition answered_calls (n : nat) : list event :=
  flat_map (fun i => [ECall (CSend "info" None); EMessage 0 (reply_to (Z.of_nat i))])
    (seq 1 n).

Definition long_session : list event :=
  [ECall (CSend "select" (Some (js "['app']"))); EOpen 0]
  ++ answered_calls 1000
  ++ [ECall (CSend "info" None); EYield].

Definition outstanding (t : task) : bool :=
  match t with
  | Blocked _ _ => true
  | Finished _ => false
  end.

(** * Properties *)

Lemma obj_get_set_eq props k v : obj_get (obj_set props k v) k = Some v.
Proof.
  induction props as [|[k' v'] rest IH]; simpl.
  - now rewrite String.eqb_refl.
  - destruct (String.eqb k' k) eqn:E; simpl; rewrite E; auto.
Qed.

Lemma obj_get_set_ne props k k' v :
  k <> k' -> obj_get (obj_set props k v) k' = obj_get props k'.
Proof.
  intros Hne. induction props as [|[k0 v0] rest IH]; simpl.
  - destruct (String.eqb k k') eqn:E; auto.
    apply String.eqb_eq in E. contradiction.
  - destruct (String.eqb k0 k) eqn:E; simpl.
    + apply String.eqb_eq in E. subst k0.
      destruct (String.eqb k k') eqn:E'; auto.
      apply String.eqb_eq in E'. contradiction.
    + now rewrite IH.
Qed.

Lemma after_reads_state n url opt :
  state (after_reads (S n) (new_Surreal url opt)) = Z.of_nat n mod 1001 + 1.
Proof.
  induction n as [|n IH].
  - reflexivity.
  - change (after_reads (S (S n)) (new_Surreal url opt))
      with (snd (get_id (after_reads (S n) (new_Surreal url opt)))).
    unfold get_id. cbn [snd state]. rewrite IH.
    rewrite Nat2Z.inj_succ.
    destruct (1000 <? Z.of_nat n mod 1001 + 1) eqn:E.
    + apply Z.ltb_lt in E. Z.to_euclidean_division_equations. lia.
    + apply Z.ltb_ge in E. Z.to_euclidean_division_equations. lia.
Qed.

(** C2 (as amended): on a fresh handle the counter starts at 0, grows by one
    on every read of [id] and is reset to 0 only once it exceeds 1000, so
    the k-th read returns (k-1) mod 1001: the 1st read returns 0, the 1001st
    returns 1000 and the 1002nd returns 0 again. *)
Theorem id_cycle url opt :
  (forall n, kth_id (S n) (new_Surreal url opt) = Z.of_nat n mod 1001)
  /\ kth_id 1 (new_Surreal url opt) = 0
  /\ kth_id 1001 (new_Surreal url opt) = 1000
  /\ kth_id 1002 (new_Surreal url opt) = 0.
Proof.
  assert (Hk : forall n, kth_id (S n) (new_Surreal url opt) = Z.of_nat n mod 1001).
  { intros [|n].
    - reflexivity.
    - unfold kth_id. cbn [pred]. unfold get_id. cbn [fst].
      rewrite after_reads_state. rewrite Nat2Z.inj_succ.
      destruct (1000 <? Z.of_nat n mod 1001 + 1) eqn:E.
      + apply Z.ltb_lt in E. Z.to_euclidean_division_equations. lia.
      + apply Z.ltb_ge in E. Z.to_euclidean_division_equations. lia. }
  split; [exact Hk|].
  split; [apply (Hk 0%nat)|].
  split.
  - rewrite (Hk 1000%nat). reflexivity.
  - rewrite (Hk 1001%nat). reflexivity.
Qed.

Lemma resume_throw stack e r : resume stack (Throw e) r = (r, Finished (Throw e)).
Proof. destruct stack; reflexivity. Qed.


Lemma run_listeners_malformed data n r errs :
  JSON_parse data = None ->
  run_listeners n data r errs =
    (r, errs ++ replicate n (parse_failure data syntax_error)).
Proof.
  intros Hp. revert errs. induction n as [|n IH]; intros errs.
  - cbn. now rewrite app_nil_r.
  - cbn [run_listeners]. unfold on_message. rewrite Hp. rewrite IH.
    cbn [replicate]. now rewrite <- app_assoc.
Qed.

Lemma wake_idle ts r :
  Forall (fun t => match t with
                   | Blocked on _ => ready r None on = None
                   | Finished _ => True
                   end) ts ->
  wake None ts r = (r, ts).
Proof.
  induction 1 as [|t ts Ht _ IH]; [reflexivity|].
  cbn [wake]. destruct t as [on stack|c].
  - rewrite Ht. now rewrite IH.
  - now rewrite IH.
Qed.

Lemma drain_idle w : no_task_ready w -> drain w = w.
Proof.
  intros Hidle. unfold drain. rewrite (wake_idle _ _ Hidle). now destruct w.
Qed.

(** C8: a frame whose text does not parse makes the listener throw (the
    failure is reported as an uncaught [SurrealError], once per registered
    listener) and nothing else: no continuation is invoked, the correlation
    table, the promises, the sockets and their ready states are unchanged,
    and every suspended call stays suspended. *)
Theorem malformed_frame data :
  JSON_parse data = None ->
  (forall r, on_message data r = ([], Throw (parse_failure data syntax_error), r))
  /\ (forall w k,
        no_task_ready w ->
        rt (run_event (EMessage k data) w) = rt w
        /\ tasks (run_event (EMessage k data) w) = tasks w
        /\ (forall s, sockets (rt w) !! k = Some s -> readyState s = OPEN ->
              uncaught (run_event (EMessage k data) w) =
                uncaught w ++ replicate (listeners s) (parse_failure data syntax_error))).
Proof.
  intros Hp. split.
  - intros r. unfold on_message. now rewrite Hp.
  - intros w k Hidle. unfold run_event. rewrite (drain_idle w Hidle).
    unfold socket_event.
    destruct (sockets (rt w) !! k) as [s|] eqn:Hs.
    + destruct (readyState s) eqn:Hst;
        rewrite ?run_listeners_malformed by exact Hp;
        rewrite ?(wake_idle _ _ Hidle);
        rewrite drain_idle by exact Hidle; cbn [rt tasks uncaught];
        repeat split; try reflexivity;
        intros s' Hs'; inversion Hs'; subst s'; intros Ho; congruence.
    + rewrite drain_idle by exact Hidle.
      repeat split. intros s' Hs'. discriminate.
Qed.

(** *** Connection attempts *)

Lemma ws_open_createWebSocket r :
  ws_open r = false -> ws_open (fst (createWebSocket r)) = false.
Proof.
  unfold ws_open, createWebSocket. cbn [fst this sockets].
  destruct (ws (this r)) as [k|]; [|reflexivity].
  destruct (sockets r !! k) as [s|] eqn:Hk.
  - intros Hs. now rewrite (lookup_app_l_Some _ _ _ _ Hk).
  - intros _. apply lookup_ge_None in Hk.
    destruct (decide (k = length (sockets r))) as [->|Hne].
    + now rewrite list_lookup_middle.
    + rewrite lookup_ge_None_2; [reflexivity|].
      rewrite length_app. cbn. lia.
Qed.

Lemma start_not_open c r :
  ws_open r = false ->
  ws_open (fst (start c r)) = false
  /\ length (sockets (fst (start c r))) = S (length (sockets r)).
Proof.
  intros Hno.
  assert (H : forall method params rest,
    ws_open (fst (call_send method params rest r)) = false
    /\ length (sockets (fst (call_send method params rest r))) = S (length (sockets r))).
  { intros method params rest. unfold call_send, call_setup. rewrite Hno.
    pose proof (ws_open_createWebSocket r Hno) as Hc.
    destruct (createWebSocket r) as [r' k] eqn:Hcr. cbn [fst] in *.
    split; [exact Hc|].
    unfold createWebSocket in Hcr. inversion Hcr; subst. cbn [sockets].
    rewrite length_app. cbn. lia. }
  destruct c; cbn [start]; apply H.
Qed.

Lemma start_open c r :
  ws_open r = true -> length (sockets (fst (start c r))) = length (sockets r).
Proof.
  intros Hop.
  assert (H : forall method params rest,
    length (sockets (fst (call_send method params rest r))) = length (sockets r)).
  { intros method params rest. unfold call_send, call_setup. now rewrite Hop. }
  destruct c; cbn [start]; apply H.
Qed.

Lemma run_event_call c w :
  run_event (ECall c) w =
    World (fst (start c (rt w))) (tasks w ++ [snd (start c (rt w))]) (uncaught w).
Proof. unfold run_event. now destruct (start c (rt w)). Qed.

(** C5 (as amended): the only guard of [setup] is that the handle's socket
    is already open.  While it is not, every operation begun starts a
    connection attempt of its own, so [n] concurrent first calls open [n]
    sockets; an operation begun while the socket is open opens none. *)
Theorem setup_attempts w :
  (forall calls,
     ws_open (rt w) = false ->
     length (sockets (rt (run_events (map ECall calls) w))) =
       (length (sockets (rt w)) + length calls)%nat)
  /\ (forall c,
        ws_open (rt w) = true ->
        length (sockets (rt (run_event (ECall c) w))) = length (sockets (rt w))).
Proof.
  split.
  - intros calls. revert w. induction calls as [|c calls IH]; intros w Hno.
    + cbn. lia.
    + cbn [map run_events fold_left]. fold (run_events (map ECall calls)).
      destruct (start_not_open c (rt w) Hno) as [Hno' Hlen].
      rewrite run_event_call.
      rewrite IH by exact Hno'. cbn [rt length]. lia.
  - intros c Hop. rewrite run_event_call. cbn [rt].
    exact (start_open c (rt w) Hop).
Qed.

(** *** Batched queries *)

Lemma query_map_objects outcomes errs :
  query_map (map VObj outcomes) errs =
    inl (map (fun o => if failed_outcome o then VUndefined else outcome_result o) outcomes,
         errs ++ map outcome_result (List.filter failed_outcome outcomes)).
Proof.
  revert errs. induction outcomes as [|o outcomes IH]; intros errs.
  - cbn. now rewrite app_nil_r.
  - cbn [map query_map get_prop]. fold (failed_outcome o). fold (outcome_result o).
    cbn [List.filter].
    destruct (failed_outcome o) eqn:E; rewrite IH.
    + cbn [map]. now rewrite <- app_assoc.
    + reflexivity.
Qed.

(** What lines 210-223 do with a value whose [result] field is the list of
    outcomes: without a failed statement, the results in statement order,
    one slot per statement. *)
Lemma query_finish_results text response outcomes :
  get_prop response "result" = Return (VArr (map VObj outcomes)) ->
  List.filter failed_outcome outcomes = [] ->
  query_finish text response = Return (VArr (map outcome_result outcomes)).
Proof.
  intros Hr Hok. unfold query_finish. rewrite Hr, query_map_objects, Hok.
  cbn [app]. f_equal. f_equal. apply map_ext_in. intros o Ho.
  destruct (failed_outcome o) eqn:E; [|reflexivity].
  assert (Hin : In o (List.filter failed_outcome outcomes)).
  { apply filter_In. now split. }
  rewrite Hok in Hin. destruct Hin.
Qed.

(** With a failed statement: one [SurrealError] joining the failed
    statements' results with [;], the request text as its detail. *)
Lemma query_finish_failure text response outcomes :
  get_prop response "result" = Return (VArr (map VObj outcomes)) ->
  List.filter failed_outcome outcomes <> [] ->
  query_finish text response =
    Throw (VError SurrealError
             (VStr (array_join ";" (map outcome_result (List.filter failed_outcome outcomes))))
             (VObj [("sql", VStr text)])).
Proof.
  intros Hr Hko. unfold query_finish. rewrite Hr, query_map_objects.
  cbn [app]. destruct (List.filter failed_outcome outcomes) as [|o os]; [contradiction|].
  reflexivity.
Qed.

(** What [send] hands to [query] for a reply frame whose [result] is the
    list of outcomes is that list, which has no [result] property: the call
    of [query] fails, whatever the outcomes are. *)
Lemma query_after_send text request outcomes frame r :
  obj_get frame "error" = None ->
  obj_get frame "result" = Some (VArr outcomes) ->
  resume [KSendDone request; KQueryDone text] (Return (VObj frame)) r
  = (r, Finished (Throw type_error)).
Proof.
  intros He Hr. cbn [resume]. unfold send_finish. cbn [get_prop].
  rewrite He, Hr. reflexivity.
Qed.

(** *** Request text *)

Lemma append_cons c a b : String c a +:+ b = String c (a +:+ b).
Proof. reflexivity. Qed.

Lemma append_assoc a b c : (a +:+ b) +:+ c = a +:+ (b +:+ c).
Proof.
  induction a as [|x a IH]; [reflexivity|].
  rewrite !append_cons. now rewrite IH.
Qed.

Lemma lex_feed_app st a b :
  lex_feed st (a +:+ b) =
    match lex_feed st a with
    | Some st' => lex_feed st' b
    | None => None
    end.
Proof.
  revert st. induction a as [|c a IH]; intros st; [reflexivity|].
  rewrite append_cons. cbn [lex_feed].
  destruct (lex_step st c); [apply IH|reflexivity].
Qed.

Lemma lex_feed_plain s acc toks :
  plain_string s = true ->
  lex_feed (LStr acc, toks) s = Some (LStr (acc ++ raw_units s), toks).
Proof.
  revert acc. induction s as [|c s IH]; intros acc Hs.
  - cbn. now rewrite app_nil_r.
  - cbn [plain_string] in Hs. apply andb_prop in Hs as [Hc Hs].
    unfold plain in Hc.
    apply andb_prop in Hc as [Hc H32]. apply andb_prop in Hc as [Hq Hb].
    apply negb_true_iff in Hq, Hb, H32.
    cbn [lex_feed lex_step raw_units]. rewrite Hq, Hb, H32.
    rewrite IH by exact Hs. now rewrite <- app_assoc.
Qed.

Lemma decode_raw_units s : decode_units (raw_units s) = s.
Proof. induction s as [|c s IH]; [reflexivity|]. cbn. now rewrite IH. Qed.

Lemma pretty_N_go_app x s : pretty_N_go x s = pretty_N_go x "" +:+ s.
Proof.
  revert s. induction (N.lt_wf_0 x) as [x _ IH]; intros s.
  destruct (N.eq_dec x 0%N) as [->|Hx]; [reflexivity|].
  rewrite (pretty_N_go_step x s), (pretty_N_go_step x "") by lia.
  rewrite IH by (apply N.div_lt; lia).
  rewrite (IH (x / 10)%N) with (s := String _ "") by (apply N.div_lt; lia).
  now rewrite append_assoc.
Qed.

Lemma digit_of_pretty d :
  (d < 10)%N -> digit_of (pretty_N_char d) = Some d.
Proof.
  intros Hd.
  assert (d = 0 \/ d = 1 \/ d = 2 \/ d = 3 \/ d = 4 \/ d = 5 \/ d = 6 \/ d = 7
          \/ d = 8 \/ d = 9)%N as H by lia.
  repeat (destruct H as [->|H]; [reflexivity|]). now subst.
Qed.

Lemma lex_first_digit neg toks d :
  (0 < d < 10)%N ->
  lex_step (number_start neg, toks) (pretty_N_char d) = Some (LInt neg d, toks).
Proof.
  intros Hd.
  assert (d = 1 \/ d = 2 \/ d = 3 \/ d = 4 \/ d = 5 \/ d = 6 \/ d = 7
          \/ d = 8 \/ d = 9)%N as H by lia.
  destruct neg;
    repeat (destruct H as [->|H]; [reflexivity|]); now subst.
Qed.

Lemma lex_digits neg toks x :
  (0 < x)%N ->
  forall s, lex_feed (number_start neg, toks) (pretty_N_go x s) =
            lex_feed (LInt neg x, toks) s.
Proof.
  induction (N.lt_wf_0 x) as [x _ IH]; intros Hx s.
  rewrite pretty_N_go_step by exact Hx.
  destruct (N.eq_dec (x / 10)%N 0%N) as [Hq|Hq].
  - rewrite Hq, pretty_N_go_0. cbn [lex_feed].
    assert (Hlt : (x < 10)%N) by (apply N.div_small_iff in Hq; lia).
    rewrite N.mod_small by lia. rewrite lex_first_digit by lia. reflexivity.
  - rewrite IH; [|apply N.div_lt; lia|now apply N.neq_0_lt_0].
    cbn [lex_feed lex_step].
    rewrite digit_of_pretty by (apply N.mod_lt; lia).
    replace (10 * (x / 10) + x mod 10)%N with x; [reflexivity|].
    apply N.div_mod. discriminate.
Qed.

Lemma lex_pretty n toks rest :
  lex_feed (LIdle, toks) (pretty n +:+ rest) = lex_feed (after_int n, toks) rest.
Proof.
  destruct n as [|p|p]; unfold pretty, pretty_Z.
  - reflexivity.
  - unfold pretty, pretty_positive, pretty, pretty_N.
    rewrite decide_False by discriminate.
    rewrite <- pretty_N_go_app.
    apply (lex_digits false). lia.
  - unfold pretty, pretty_positive, pretty, pretty_N.
    rewrite decide_False by discriminate.
    rewrite append_assoc, append_cons. cbn [lex_feed].
    change (lex_step (LIdle, toks) "-") with (Some (LMinus, toks)).
    change ("" +:+ pretty_N_go (N.pos p) "" +:+ rest)
      with (pretty_N_go (N.pos p) "" +:+ rest).
    rewrite <- pretty_N_go_app.
    apply (lex_digits true). lia.
Qed.

Lemma lex_after_int n toks rest :
  lex_feed (after_int n, toks) (String "," rest) =
    lex_feed (LIdle, toks ++ [TScalar (VNum n); TComma]) rest.
Proof.
  assert (H : forall neg mag,
    lex_idle (toks ++ [int_token neg mag]) "," =
      Some (LIdle, toks ++ [int_token neg mag; TComma])).
  { intros neg mag. unfold lex_idle. cbn. now rewrite <- app_assoc. }
  destruct n as [|p|p]; cbn [lex_feed after_int].
  - change (lex_step (LZero false, toks) ",")
      with (lex_idle (toks ++ [int_token false 0]) ",").
    now rewrite H.
  - change (lex_step (LInt false (N.pos p), toks) ",")
      with (lex_idle (toks ++ [int_token false (N.pos p)]) ",").
    now rewrite H.
  - change (lex_step (LInt true (N.pos p), toks) ",")
      with (lex_idle (toks ++ [int_token true (N.pos p)]) ",").
    now rewrite H.
Qed.

Lemma lex_close_plain s toks lit rest :
  plain_string s = true ->
  lex_feed (LStr [], toks) (s +:+ js (String "'" lit) +:+ rest) =
    lex_feed (LIdle, toks ++ [TScalar (VStr s)]) (js lit +:+ rest).
Proof.
  intros Hs. rewrite lex_feed_app, lex_feed_plain by exact Hs.
  change (js (String "'" lit)) with (String "034" (js lit)).
  rewrite append_cons. cbn [lex_feed app].
  change (lex_step (LStr (raw_units s), toks) "034")
    with (Some (LIdle, toks ++ [TScalar (VStr (decode_units (raw_units s)))])).
  now rewrite decode_raw_units.
Qed.

(** Lex a literal piece of text by computation. *)
Ltac lex_literal :=
  rewrite lex_feed_app;
  match goal with
  | |- context [lex_feed ?st (js ?a)] =>
      let v := eval vm_compute in (lex_feed st (js a)) in
      replace (lex_feed st (js a)) with v by (vm_compute; reflexivity)
  end;
  cbv iota beta.


Lemma lex_envelope_head n method rest :
  plain_string method = true ->
  lex_feed (LIdle, [])
    (js "{'id':" +:+ pretty n +:+ js ",'method':'" +:+ method +:+ js "'" +:+ rest) =
  lex_feed (LIdle, [TLBrace; TScalar (VStr "id"); TColon; TScalar (VNum n); TComma;
                    TScalar (VStr "method"); TColon; TScalar (VStr method)])
    rest.
Proof.
  intros Hm. lex_literal. rewrite lex_pretty.
  change (js ",'method':'") with (String "," (js "'method':'")).
  rewrite append_cons, lex_after_int. lex_literal.
  rewrite lex_close_plain by exact Hm.
  reflexivity.
Qed.

Lemma use_params_truthy n d : truthy_string (Some (use_params n d)) = true.
Proof. reflexivity. Qed.

Lemma plain_not_quote c : plain c = true -> Ascii.eqb c "034" = false.
Proof.
  unfold plain. intros H. apply andb_prop in H as [H _].
  apply andb_prop in H as [H _]. now apply negb_true_iff in H.
Qed.

Lemma lex_idle_outside toks c m toks' :
  Ascii.eqb c "034" = false ->
  lex_idle toks c = Some (m, toks') -> outside_string m = true.
Proof.
  intros Hq. unfold lex_idle. rewrite Hq.
  repeat match goal with
         | |- context [if ?b then _ else _] => destruct b
         end;
    try (intros H; inversion H; reflexivity).
  destruct (digit_of c) as [[|d]|]; intros H; inversion H; reflexivity.
Qed.

(** A character other than a double quote does not open a string. *)
Lemma lex_step_outside m toks c m' toks' :
  outside_string m = true -> Ascii.eqb c "034" = false ->
  lex_step (m, toks) c = Some (m', toks') -> outside_string m' = true.
Proof.
  intros Hm Hq. destruct m as [|acc|acc|acc seen cu| |neg|neg mag|st lit|rest v];
    try discriminate; cbn [lex_step].
  - now apply lex_idle_outside.
  - destruct (digit_of c) as [[|d]|]; intros H; inversion H; reflexivity.
  - destruct (Ascii.eqb c "."); [intros H; inversion H; reflexivity|].
    destruct (Ascii.eqb c "e" || Ascii.eqb c "E"); [intros H; inversion H; reflexivity|].
    now apply lex_idle_outside.
  - destruct (digit_of c); [intros H; inversion H; reflexivity|].
    destruct (Ascii.eqb c "."); [intros H; inversion H; reflexivity|].
    destruct (Ascii.eqb c "e" || Ascii.eqb c "E"); [intros H; inversion H; reflexivity|].
    now apply lex_idle_outside.
  - destruct st, (digit_of c); try discriminate;
      try (intros H; inversion H; reflexivity).
    + destruct (Ascii.eqb c "e" || Ascii.eqb c "E");
        [intros H; inversion H; reflexivity|now apply lex_idle_outside].
    + destruct (Ascii.eqb c "+" || Ascii.eqb c "-");
        [intros H; inversion H; reflexivity|discriminate].
    + now apply lex_idle_outside.
  - destruct rest as [|c' rest']; [discriminate|].
    cbn [outside_string plain_string] in Hm. apply andb_prop in Hm as [_ Hm].
    destruct (Ascii.eqb c c'); [|discriminate].
    destruct rest'; intros H; inversion H; [reflexivity|exact Hm].
Qed.

Lemma lex_feed_outside s : forall st st',
  outside_string (fst st) = true -> plain_string s = true ->
  lex_feed st s = Some st' -> outside_string (fst st') = true.
Proof.
  induction s as [|c s IH]; intros st st' Hst Hs.
  - cbn. intros H. inversion H; subst. exact Hst.
  - cbn [plain_string] in Hs. apply andb_prop in Hs as [Hc Hs].
    cbn [lex_feed]. destruct (lex_step st c) as [[m1 t1]|] eqn:E; [|discriminate].
    apply (IH (m1, t1)); [|exact Hs]. destruct st as [m toks].
    now apply (lex_step_outside m toks c m1 t1 Hst (plain_not_quote c Hc)).
Qed.

(** Outside a string, a double quote opens one, if it is allowed at all. *)
Lemma lex_step_quote m toks m' toks' :
  outside_string m = true ->
  lex_step (m, toks) "034" = Some (m', toks') -> m' = LStr [].
Proof.
  intros Hm. destruct m as [|acc|acc|acc seen cu| |neg|neg mag|st lit|rest v];
    try discriminate.
  - cbn. intros H. now inversion H.
  - cbn. intros H. now inversion H.
  - cbn. intros H. now inversion H.
  - destruct st; cbn; try discriminate; intros H; now inversion H.
  - cbn [lex_step]. destruct rest as [|c' rest']; [discriminate|].
    cbn [outside_string plain_string] in Hm. apply andb_prop in Hm as [Hc _].
    apply plain_not_quote in Hc. rewrite Ascii.eqb_sym, Hc. discriminate.
Qed.

(** A double quote after which only a closing brace follows opens a string
    that is never closed. *)
Lemma lex_unclosed st s :
  outside_string (fst st) = true -> plain_string s = true ->
  match lex_feed st (s +:+ String "034" "}") with
  | Some st' => lex_finish st'
  | None => None
  end = None.
Proof.
  intros Hst Hs. rewrite lex_feed_app.
  destruct (lex_feed st s) as [[m1 t1]|] eqn:E; [|reflexivity].
  pose proof (lex_feed_outside s st (m1, t1) Hst Hs E) as H1. cbn [fst] in H1.
  cbn [lex_feed]. destruct (lex_step (m1, t1) "034") as [[m2 t2]|] eqn:E2; [|reflexivity].
  rewrite (lex_step_quote m1 t1 m2 t2 H1 E2). reflexivity.
Qed.

(** C10 (as amended): [send] and [use] paste the method and the namespace
    and database names into the request text as they are.  When these
    contain no double quote, no backslash and no control character (code
    below 32), the text is a JSON object of the wire shape, with exactly
    these strings as its [method] and [params]; a method containing one
    double quote, and otherwise such characters only, gives a text that is
    not JSON. *)
Theorem envelope_text :
  (forall n method,
     plain_string method = true ->
     JSON_parse (envelope n method None) =
       Some (VObj [("id", VNum n); ("method", VStr method)]))
  /\ (forall n nsp dbn,
        plain_string nsp = true -> plain_string dbn = true ->
        JSON_parse (envelope n "use" (Some (use_params nsp dbn))) =
          Some (VObj [("id", VNum n); ("method", VStr "use");
                      ("params", VArr [VStr nsp; VStr dbn])]))
  /\ (forall n before after,
        plain_string before = true -> plain_string after = true ->
        JSON_parse (envelope n (before +:+ String "034" after) None) = None).
Proof.
  split; [|split].
  - intros n method Hm. unfold JSON_parse, lex, envelope.
    rewrite lex_envelope_head by exact Hm. reflexivity.
  - intros n nsp dbn Hn Hd. unfold JSON_parse, lex, envelope.
    rewrite lex_envelope_head by reflexivity.
    rewrite use_params_truthy. cbn [default from_option id].
    unfold use_params. rewrite !append_assoc.
    lex_literal. lex_literal.
    rewrite lex_close_plain by exact Hn.
    lex_literal.
    rewrite lex_close_plain by exact Hd.
    lex_literal. reflexivity.
  - intros n before after Hb Ha. unfold JSON_parse, lex, envelope.
    cbn [truthy_string].
    change (String "034" after) with (js "'" +:+ after).
    rewrite !append_assoc.
    rewrite lex_envelope_head by exact Hb.
    change (js "'" +:+ "" +:+ "}") with (String "034" "}").
    now rewrite lex_unclosed.
Qed.

(** *** Correlation of replies *)

Lemma get_id_spec s :
  counter_ok s ->
  fst (get_id s) = state s mod 1001
  /\ counter_ok (snd (get_id s))
  /\ state (snd (get_id s)) mod 1001 = (state s + 1) mod 1001.
Proof.
  unfold counter_ok, get_id. intros Hs. cbn [fst snd state].
  destruct (1000 <? state s) eqn:E.
  - apply Z.ltb_lt in E. assert (state s = 1001) as -> by lia.
    repeat split; try reflexivity; lia.
  - apply Z.ltb_ge in E. rewrite Z.mod_small by lia.
    repeat split; lia.
Qed.

Lemma after_reads_spec n s :
  counter_ok s ->
  counter_ok (after_reads n s)
  /\ state (after_reads n s) mod 1001 = (state s + Z.of_nat n) mod 1001.
Proof.
  intros Hs. induction n as [|n [IHc IHm]].
  - split; [exact Hs|]. now rewrite Z.add_0_r.
  - cbn [after_reads].
    destruct (get_id_spec _ IHc) as (_ & Hc & Hm).
    split; [exact Hc|]. rewrite Hm.
    rewrite Nat2Z.inj_succ, <- Z.add_1_r, Z.add_assoc.
    rewrite <- (Z.add_mod_idemp_l (state (after_reads n s))) by lia.
    rewrite IHm. now rewrite Z.add_mod_idemp_l by lia.
Qed.

Lemma kth_id_spec i s :
  counter_ok s -> kth_id (S i) s = (state s + Z.of_nat i) mod 1001.
Proof.
  intros Hs. unfold kth_id. cbn [pred].
  destruct (after_reads_spec i s Hs) as [Hc Hm].
  destruct (get_id_spec _ Hc) as (-> & _). exact Hm.
Qed.

Lemma kth_id_distinct i j s :
  counter_ok s -> (i < j < 1001)%nat -> kth_id (S i) s <> kth_id (S j) s.
Proof.
  intros Hs Hij. rewrite !kth_id_spec by exact Hs.
  unfold counter_ok in Hs. intros Heq.
  Z.to_euclidean_division_equations. lia.
Qed.

Lemma connected_open k r : connected k r -> ws_open r = true.
Proof.
  intros (Hws & s & Hs & Hst & _). unfold ws_open, is_open.
  now rewrite Hws, Hs, Hst.
Qed.

Lemma send_ready_connected k method params rest r :
  connected k r ->
  send_ready method params rest r =
    (sent_request k method params r,
     Blocked (WReply (length (store r)))
       (KSendDone (envelope (fst (get_id (this r))) method params) :: rest)).
Proof.
  intros (Hws & s & Hs & Hst & _).
  unfold send_ready, dispatch, sent_request, get_id, with_channels, socket_send.
  cbn [fst snd ws url opt state channels]. rewrite Hws, Hs, Hst. reflexivity.
Qed.

Lemma call_send_open method params rest r :
  ws_open r = true ->
  call_send method params rest r = (r, Blocked WTick (KSendReady method params :: rest)).
Proof. intros Hop. unfold call_send, call_setup. now rewrite Hop. Qed.

Lemma sent_request_connected k method params r :
  connected k r -> connected k (sent_request k method params r).
Proof.
  intros (Hws & s & Hs & Hst & Hl). unfold connected, sent_request.
  cbn [this sockets with_channels ws get_id snd]. split; [exact Hws|].
  rewrite Hs. eexists. split.
  - apply list_lookup_insert_eq. now apply lookup_lt_Some in Hs.
  - split; [reflexivity|exact Hl].
Qed.

Lemma run_events_app evs1 evs2 w :
  run_events (evs1 ++ evs2) w = run_events evs2 (run_events evs1 w).
Proof. unfold run_events. now rewrite fold_left_app. Qed.

Lemma get_id_state s s' : state s = state s' -> fst (get_id s) = fst (get_id s').
Proof. unfold get_id. intros ->. reflexivity. Qed.

Lemma get_id_next_state s s' :
  state s = state s' -> state (snd (get_id s)) = state (snd (get_id s')).
Proof. unfold get_id. intros ->. reflexivity. Qed.

Lemma simple_task_grow r r' t :
  (forall p, store r !! p = Some None -> store r' !! p = Some None) ->
  simple_task r t -> simple_task r' t.
Proof.
  intros Hst. destruct t as [[k|p|] stack|c]; cbn; auto.
  destruct stack as [|[] [|]]; auto.
Qed.

Lemma wake_app opened ts1 ts2 r :
  wake opened (ts1 ++ ts2) r =
    (fst (wake opened ts2 (fst (wake opened ts1 r))),
     snd (wake opened ts1 r) ++ snd (wake opened ts2 (fst (wake opened ts1 r)))).
Proof.
  revert r. induction ts1 as [|t ts1 IH]; intros r.
  - cbn. now destruct (wake opened ts2 r).
  - cbn [app wake].
    destruct (match t with Blocked _ _ => _ | Finished _ => _ end) as [r1 t1].
    rewrite IH. destruct (wake opened ts1 r1) as [r2 ts].
    cbn [fst snd]. now destruct (wake opened ts2 r2).
Qed.

Lemma calm_idle w : calm w -> no_task_ready w.
Proof.
  intros Hcalm. eapply Forall_impl; [exact Hcalm|]. intros t Ht.
  destruct t as [[k|p|] stack|c]; try exact I; try (exfalso; exact Ht).
  destruct stack as [|[] [|]]; try (exfalso; exact Ht).
  cbn in *. now rewrite Ht.
Qed.

Lemma after_setup_wire c :
  after_setup c = KSendReady (fst (wire c)) (snd (wire c)) :: tl (after_setup c).
Proof. now destruct c. Qed.

Lemma request_text_wire id c :
  request_text id c = envelope id (fst (wire c)) (snd (wire c)).
Proof. now destruct c. Qed.

Lemma start_suspended c r : ws_open r = true -> start c r = (r, suspended c).
Proof.
  intros Hop. destruct c; cbn [start]; now rewrite call_send_open by exact Hop.
Qed.

(** Calls on an open connection leave the runtime as it is. *)
Lemma run_calls_open calls w :
  ws_open (rt w) = true ->
  run_events (map ECall calls) w =
    World (rt w) (tasks w ++ map suspended calls) (uncaught w).
Proof.
  revert w. induction calls as [|c calls IH]; intros w Hop.
  - cbn. rewrite app_nil_r. now destruct w.
  - cbn [map run_events fold_left]. fold (run_events (map ECall calls)).
    rewrite run_event_call, start_suspended by exact Hop. cbn [fst snd].
    rewrite IH by exact Hop. cbn [rt tasks uncaught map].
    now rewrite <- app_assoc.
Qed.

Lemma wake_suspended k c r :
  connected k r ->
  wake None [suspended c] r =
    (sent_request k (fst (wire c)) (snd (wire c)) r,
     [dispatched (fst (get_id (this r))) (length (store r)) c]).
Proof.
  intros Hc. unfold suspended, dispatched. rewrite after_setup_wire at 1.
  cbn [wake ready resume]. rewrite (send_ready_connected k) by exact Hc.
  now rewrite request_text_wire.
Qed.

(** The calls [calls], begun on an open connection, go on when the running
    code yields: each gets the next id and a promise of its own, registers
    its entry and transmits its request, in the order of the calls. *)
Lemma wake_started k calls r s :
  connected k r -> sockets r !! k = Some s ->
  let r' := fst (wake None (map suspended calls) r) in
  connected k r'
  /\ state (this r') = state (after_reads (length calls) (this r))
  /\ store r' = store r ++ replicate (length calls) None
  /\ snd (wake None (map suspended calls) r) =
       imap (fun i c => dispatched (kth_id (S i) (this r)) (length (store r) + i) c) calls
  /\ sockets r' !! k =
       Some (Socket (target s) OPEN (listeners s)
               (sent s ++ imap (fun i c => request_text (kth_id (S i) (this r)) c) calls))
  /\ (forall key,
        (forall i, (i < length calls)%nat -> key <> pretty (kth_id (S i) (this r))) ->
        channels (this r') !! key = channels (this r) !! key)
  /\ (forall i c, calls !! i = Some c ->
        (forall j, (i < j < length calls)%nat ->
           kth_id (S j) (this r) <> kth_id (S i) (this r)) ->
        channels (this r') !! pretty (kth_id (S i) (this r)) =
          Some (Channel (promise_resolve (length (store r) + i))
                  (promise_reject (length (store r) + i))
                  (request_text (kth_id (S i) (this r)) c))).
Proof.
  intros Hc Hs. induction calls as [|c calls IH] using rev_ind; intros r'.
  - subst r'. cbn. rewrite !app_nil_r.
    split; [exact Hc|]. split; [reflexivity|]. split; [reflexivity|].
    split; [reflexivity|]. split.
    + rewrite Hs. destruct Hc as (_ & s0 & Hs0 & Hst & _).
      rewrite Hs in Hs0. inversion Hs0; subst s0. destruct s. cbn in Hst.
      now subst.
    + split; [auto|]. intros i c Hi. now rewrite lookup_nil in Hi.
  - destruct IH as (Hc1 & Hst1 & Hsto1 & Hts1 & Hs1 & Hkeys1 & Hent1).
    subst r'. rewrite map_app, wake_app. cbn [fst snd map].
    set (r1 := fst (wake None (map suspended calls) r)) in *.
    rewrite (wake_suspended k c r1 Hc1). cbn [fst snd].
    assert (Hid : fst (get_id (this r1)) = kth_id (S (length calls)) (this r)).
    { unfold kth_id. cbn [pred]. now apply get_id_state. }
    assert (Hlen : length (store r1) = (length (store r) + length calls)%nat).
    { rewrite Hsto1, length_app, length_replicate. reflexivity. }
    rewrite length_app. cbn [length]. rewrite Nat.add_1_r.
    split; [now apply sent_request_connected|]. split.
    { unfold sent_request. cbn [this with_channels state after_reads].
      now apply get_id_next_state. }
    split.
    { unfold sent_request. cbn [store]. rewrite Hsto1, <- app_assoc.
      now rewrite replicate_S_end. }
    split.
    { rewrite Hts1, imap_app. cbn [imap]. now rewrite Nat.add_0_r, Hid, Hlen. }
    split.
    { unfold sent_request. cbn [sockets]. rewrite Hs1.
      cbn [target listeners sent].
      rewrite list_lookup_insert_eq by (now apply lookup_lt_Some in Hs1).
      rewrite imap_app. cbn [imap]. rewrite Nat.add_0_r, <- app_assoc.
      now rewrite <- request_text_wire, Hid. }
    split.
    { intros key Hkey. unfold sent_request. cbn [this with_channels channels].
      rewrite lookup_insert_ne.
      - apply Hkeys1. intros i Hi. apply Hkey. lia.
      - rewrite Hid. intros Heq. apply (Hkey (length calls)); [lia|]. now symmetry. }
    intros i c0 Hi Hlater. unfold sent_request. cbn [this with_channels channels].
    destruct (decide (i = length calls)) as [->|Hne].
    + rewrite list_lookup_middle in Hi by reflexivity. inversion Hi; subst c0.
      rewrite Hid, lookup_insert_eq, Hlen. now rewrite <- request_text_wire.
    + assert (Hi' : (i < length calls)%nat).
      { apply lookup_lt_Some in Hi. rewrite length_app in Hi. cbn in Hi. lia. }
      rewrite lookup_app_l in Hi by exact Hi'.
      rewrite lookup_insert_ne.
      * apply Hent1; [exact Hi|]. intros j Hj. apply Hlater. lia.
      * rewrite Hid. intros Heq. apply (inj pretty) in Heq.
        apply (Hlater (length calls)); [lia|exact Heq].
Qed.

(** The world after calls begun on an open connection and a yield. *)
Lemma calls_yield k calls w :
  connected k (rt w) -> no_task_ready w ->
  run_events (map ECall calls ++ [EYield]) w =
    World (fst (wake None (map suspended calls) (rt w)))
      (tasks w ++ snd (wake None (map suspended calls) (rt w)))
      (uncaught w).
Proof.
  intros Hc Hidle. rewrite run_events_app.
  rewrite run_calls_open by (now apply (connected_open k)).
  cbn [run_events fold_left run_event]. unfold drain. cbn [rt tasks uncaught].
  rewrite wake_app, (wake_idle _ _ Hidle). cbn [fst snd].
  now destruct (wake None (map suspended calls) (rt w)).
Qed.

Lemma issue_calls calls : issue calls = map ECall (map send_call calls).
Proof. unfold issue. now rewrite map_map. Qed.

(** After the calls [calls] of one run on an open connection, each of them
    waits with a ticket of its own. *)
Lemma issue_spec k w calls :
  connected k (rt w) -> counter_ok (this (rt w)) -> calm w ->
  (length calls <= 1001)%nat ->
  let w1 := run_events (issue calls ++ [EYield]) w in
  connected k (rt w1)
  /\ calm w1
  /\ (forall i c, calls !! i = Some c -> waiting w1 (ticket_of w i c)).
Proof.
  intros Hconn Hcnt Hcalm Hlen w1.
  destruct Hconn as (Hws & s & Hs & Hrest).
  assert (Hconn : connected k (rt w)) by (split; eauto).
  subst w1. rewrite issue_calls.
  rewrite (calls_yield k) by (auto using calm_idle).
  destruct (wake_started k (map send_call calls) (rt w) s Hconn Hs)
    as (Hc1 & _ & Hsto & Hts & _ & _ & Hent).
  rewrite length_map in Hsto.
  cbn [rt tasks]. split; [exact Hc1|]. split.
  - unfold calm. cbn [rt tasks]. apply Forall_app. split.
    + eapply Forall_impl; [exact Hcalm|]. intros t Ht.
      eapply simple_task_grow; [|exact Ht].
      intros p Hp. rewrite Hsto. now apply lookup_app_l_Some.
    + rewrite Hts. apply Forall_forall. intros t Ht.
      apply elem_of_lookup_imap in Ht as (i & c & -> & Hi).
      rewrite list_lookup_fmap in Hi.
      destruct (calls !! i) as [c0|] eqn:Hci; [|discriminate].
      inversion Hi; subst c. cbn. rewrite Hsto.
      rewrite lookup_app_r by lia.
      replace (length (store (rt w)) + i - length (store (rt w)))%nat with i by lia.
      apply lookup_replicate_2. now apply lookup_lt_Some in Hci.
  - intros i c Hi. unfold waiting, ticket_of.
    cbn [t_id t_promise t_task t_text rt tasks].
    assert (Hi' : (i < length calls)%nat) by (now apply lookup_lt_Some in Hi).
    split; [|split].
    + rewrite (Hent i (send_call c)).
      * reflexivity.
      * rewrite list_lookup_fmap, Hi. reflexivity.
      * intros j Hj. rewrite length_map in Hj. intros Heq. symmetry in Heq.
        revert Heq. apply kth_id_distinct; [exact Hcnt|lia].
    + rewrite Hsto, lookup_app_r by lia.
      replace (length (store (rt w)) + i - length (store (rt w)))%nat with i by lia.
      now apply lookup_replicate_2.
    + rewrite lookup_app_r by lia.
      replace (length (tasks w) + i - length (tasks w))%nat with i by lia.
      rewrite Hts, list_lookup_imap, list_lookup_fmap, Hi. reflexivity.
Qed.

Lemma on_message_hit data app id p text r :
  JSON_parse data = Some app ->
  get_prop app "id" = Return (VNum id) ->
  channels (this r) !! pretty id =
    Some (Channel (promise_resolve p) (promise_reject p) text) ->
  on_message data r =
    ([Invoked RESOLVE app], Return VUndefined,
     {| this := with_channels (this r) (delete (pretty id) (channels (this r)));
        sockets := sockets r;
        store := settle p (Fulfilled app) (store r);
        console := console r |}).
Proof.
  intros Hp Hid Hch. unfold on_message. rewrite Hp, Hid.
  cbn [ToString]. rewrite Hch. reflexivity.
Qed.

Lemma on_message_miss data app idv r :
  JSON_parse data = Some app ->
  get_prop app "id" = Return idv ->
  channels (this r) !! ToString idv = None ->
  same_core r (snd (on_message data r)).
Proof.
  intros Hp Hid Hch. unfold on_message. rewrite Hp, Hid, Hch.
  destruct (inherited (ToString idv)); repeat split.
Qed.

Lemma run_listeners_miss n data app idv r errs :
  JSON_parse data = Some app ->
  get_prop app "id" = Return idv ->
  channels (this r) !! ToString idv = None ->
  same_core r (fst (run_listeners n data r errs)).
Proof.
  intros Hp Hid. revert r errs. induction n as [|n IH]; intros r errs Hch.
  - repeat split.
  - cbn [run_listeners].
    pose proof (on_message_miss data app idv r Hp Hid Hch) as (Ht & Hs & Hst).
    destruct (on_message data r) as [[calls c] r1]. cbn [snd] in *.
    destruct (IH r1 (match c with Throw e => errs ++ [e] | Return _ => errs end))
      as (Ht' & Hs' & Hst').
    { now rewrite Ht. }
    repeat split; congruence.
Qed.

Lemma wake_calm p app ts r0 r :
  Forall (simple_task r0) ts ->
  store r0 !! p = Some None ->
  store r = <[p := Some (Fulfilled app)]> (store r0) ->
  wake None ts r = (r, map (settle_task p app) ts).
Proof.
  intros Hts Hp Hst. induction Hts as [|t ts Ht _ IH]; [reflexivity|].
  cbn [wake map]. destruct t as [[k|q|] stack|c].
  - destruct Ht.
  - destruct stack as [|[] [|]]; try (exfalso; exact Ht).
    cbn [ready settle_task]. rewrite Hst.
    destruct (decide (q = p)) as [->|Hne].
    + rewrite list_lookup_insert_eq by (now apply lookup_lt_Some in Hp).
      cbn [resume]. now rewrite IH.
    + rewrite list_lookup_insert_ne by congruence. cbn in Ht. rewrite Ht.
      now rewrite IH.
  - destruct Ht.
  - cbn [settle_task]. now rewrite IH.
Qed.

Lemma deliver_reply_step k s w data app tk :
  sockets (rt w) !! k = Some s -> readyState s = OPEN -> (0 < listeners s)%nat ->
  calm w -> waiting w tk ->
  JSON_parse data = Some app ->
  get_prop app "id" = Return (VNum (t_id tk)) ->
  let w' := socket_event (EMessage k data) w in
  completed w' tk app
  /\ sockets (rt w') = sockets (rt w)
  /\ this (rt w') = with_channels (this (rt w)) (delete (pretty (t_id tk)) (channels (this (rt w))))
  /\ calm w'
  /\ (forall tk', t_id tk' <> t_id tk -> t_promise tk' <> t_promise tk ->
        waiting w tk' -> waiting w' tk')
  /\ (forall tk' a, completed w tk' a -> completed w' tk' a).
Proof.
  intros Hs Hop Hl Hcalm (Hch & Hp & Ht) Hparse Hid w'.
  subst w'. unfold socket_event. rewrite Hs, Hop.
  destruct (listeners s) as [|n] eqn:Hn; [lia|].
  cbn [run_listeners].
  rewrite (on_message_hit data app (t_id tk) (t_promise tk) (t_text tk)) by assumption.
  set (r1 := {| this := with_channels (this (rt w))
                          (delete (pretty (t_id tk)) (channels (this (rt w))));
                sockets := sockets (rt w);
                store := settle (t_promise tk) (Fulfilled app) (store (rt w));
                console := console (rt w) |}).
  assert (Hmiss : same_core r1 (fst (run_listeners n data r1 (uncaught w)))).
  { apply (run_listeners_miss n data app (VNum (t_id tk))); try assumption.
    cbn [ToString]. subst r1. cbn [this with_channels channels].
    apply lookup_delete_eq. }
  destruct (run_listeners n data r1 (uncaught w)) as [r2 errs]. cbn [fst] in Hmiss.
  destruct Hmiss as (Hthis & Hsock & Hstore).
  assert (Hst2 : store r2 = <[t_promise tk := Some (Fulfilled app)]> (store (rt w))).
  { rewrite Hstore. subst r1. cbn [store]. unfold settle. now rewrite Hp. }
  rewrite (wake_calm (t_promise tk) app (tasks w) (rt w) r2 Hcalm Hp Hst2).
  cbn [rt tasks].
  assert (Hlt : (t_promise tk < length (store (rt w)))%nat) by (now apply lookup_lt_Some in Hp).
  split; [|split; [|split; [|split; [|split]]]].
  - split; cbn [rt tasks].
    + rewrite Hst2. now apply list_lookup_insert_eq.
    + rewrite list_lookup_fmap, Ht. cbn [fmap option_fmap option_map settle_task].
      now rewrite decide_True.
  - rewrite Hsock. reflexivity.
  - rewrite Hthis. reflexivity.
  - unfold calm. cbn [rt tasks]. apply Forall_fmap.
    eapply Forall_impl; [exact Hcalm|]. intros t Hsim. cbn.
    destruct t as [[k'|q|] stack|c]; [destruct Hsim| |destruct Hsim|exact I].
    destruct stack as [|[] [|]]; try (exfalso; exact Hsim).
    cbn [settle_task]. destruct (decide (q = t_promise tk)) as [->|Hne]; [exact I|].
    cbn. rewrite Hst2. rewrite list_lookup_insert_ne by congruence. exact Hsim.
  - intros tk' Hne_id Hne_p (Hch' & Hp' & Ht'). unfold waiting. cbn [rt tasks].
    rewrite Hthis, Hst2. subst r1. cbn [this with_channels channels].
    rewrite lookup_delete_ne by (intros Heq; apply (inj pretty) in Heq; congruence).
    split; [exact Hch'|]. split.
    + rewrite list_lookup_insert_ne by congruence. exact Hp'.
    + rewrite list_lookup_fmap, Ht'. cbn [fmap option_fmap option_map settle_task].
      now rewrite decide_False.
  - intros tk' a (Hp' & Ht'). unfold completed. cbn [rt tasks]. split.
    + rewrite Hst2. rewrite list_lookup_insert_ne; [exact Hp'|].
      intros Heq. rewrite <- Heq in Hp'. congruence.
    + rewrite list_lookup_fmap, Ht'. reflexivity.
Qed.

Lemma run_event_calm ev w :
  calm w -> calm (socket_event ev w) ->
  run_event ev w = match ev with
                   | ECall _ | EShutdown => run_event ev w
                   | EYield => w
                   | _ => socket_event ev w
                   end.
Proof.
  intros Hw Hw'. apply calm_idle in Hw, Hw'.
  destruct ev; try reflexivity; unfold run_event;
    rewrite ?(drain_idle w Hw); try reflexivity; now rewrite drain_idle.
Qed.

Lemma deliver_reply k s w data app tk :
  sockets (rt w) !! k = Some s -> readyState s = OPEN -> (0 < listeners s)%nat ->
  calm w -> waiting w tk ->
  JSON_parse data = Some app ->
  get_prop app "id" = Return (VNum (t_id tk)) ->
  let w' := run_event (EMessage k data) w in
  completed w' tk app
  /\ sockets (rt w') = sockets (rt w)
  /\ this (rt w') = with_channels (this (rt w)) (delete (pretty (t_id tk)) (channels (this (rt w))))
  /\ calm w'
  /\ (forall tk', t_id tk' <> t_id tk -> t_promise tk' <> t_promise tk ->
        waiting w tk' -> waiting w' tk')
  /\ (forall tk' a, completed w tk' a -> completed w' tk' a).
Proof.
  intros Hs Hop Hl Hcalm Hw Hparse Hid w'.
  pose proof (deliver_reply_step k s w data app tk Hs Hop Hl Hcalm Hw Hparse Hid) as H.
  cbv zeta in H. subst w'. rewrite run_event_calm; [exact H|exact Hcalm|apply H].
Qed.

Lemma replies_spec k w (tks : nat -> ticket) (apps : nat -> value)
    (reply : nat -> string) (order : list nat) :
  NoDup order ->
  (exists s, sockets (rt w) !! k = Some s /\ readyState s = OPEN /\ (0 < listeners s)%nat) ->
  calm w ->
  (forall i, i ∈ order ->
     waiting w (tks i) /\ JSON_parse (reply i) = Some (apps i)
     /\ get_prop (apps i) "id" = Return (VNum (t_id (tks i)))) ->
  (forall i j, i ∈ order -> j ∈ order -> i <> j ->
     t_id (tks i) <> t_id (tks j) /\ t_promise (tks i) <> t_promise (tks j)) ->
  let w' := run_events (map (fun i => EMessage k (reply i)) order) w in
  (forall i, i ∈ order -> completed w' (tks i) (apps i))
  /\ (forall tk a, completed w tk a -> completed w' tk a).
Proof.
  intros Hnd. revert w. induction Hnd as [|i order Hni Hnd IH];
    intros w Hsock Hcalm Hwait Hdist w'.
  - subst w'. split; [|auto]. intros i Hi. inversion Hi.
  - subst w'. cbn [map run_events fold_left].
    fold (run_events (map (fun i => EMessage k (reply i)) order)).
    destruct Hsock as (s & Hs & Hop & Hl).
    destruct (Hwait i) as (Hwi & Hpi & Hidi); [left|].
    destruct (deliver_reply k s w (reply i) (apps i) (tks i) Hs Hop Hl Hcalm Hwi Hpi Hidi)
      as (Hdone & Hsocks & _ & Hcalm1 & Hkeep & Hkeepc).
    set (w1 := run_event (EMessage k (reply i)) w) in *.
    destruct (IH w1) as [Hall Hpres].
    + exists s. rewrite Hsocks. auto.
    + exact Hcalm1.
    + intros j Hj. destruct (Hwait j) as (Hwj & Hpj & Hidj); [now right|].
      split; [|auto].
      assert (i <> j) by (intros ->; contradiction).
      destruct (Hdist j i) as [Hne1 Hne2]; [now right|left|congruence|].
      now apply Hkeep.
    + intros a b Ha Hb. apply Hdist; now right.
    + split.
      * intros j Hj. apply elem_of_cons in Hj as [->|Hj]; [|now apply Hall].
        now apply Hpres.
      * intros tk a Hc. now apply Hpres, Hkeepc.
Qed.

(** *** Session scoping *)

Lemma states_kept_refl r : states_kept r r.
Proof. intros k s Hs. eauto. Qed.

Lemma states_kept_trans r1 r2 r3 :
  states_kept r1 r2 -> states_kept r2 r3 -> states_kept r1 r3.
Proof.
  intros H12 H23 k s Hs. destruct (H12 k s Hs) as (s2 & Hs2 & E2).
  destruct (H23 k s2 Hs2) as (s3 & Hs3 & E3). exists s3. split; congruence.
Qed.

Lemma scoped_first_app nsp dbn s text :
  scoped_first nsp dbn s ->
  sent s <> [] \/ use_request nsp dbn text ->
  scoped_first nsp dbn (Socket (target s) OPEN (listeners s) (sent s ++ [text])).
Proof.
  unfold scoped_first. cbn [sent]. destruct (sent s) as [|first rest]; cbn.
  - intros _ [H|H]; [contradiction|exact H].
  - auto.
Qed.

(** [dispatch] keeps the invariant when the socket has been used before or
    when the request is the scoping one. *)
Lemma dispatch_ok nsp dbn method params r :
  session (this r) = Some (nsp, dbn) ->
  (forall k s, sockets r !! k = Some s -> scoped_first nsp dbn s) ->
  (forall k, ws (this r) = Some k ->
     exists s, sockets r !! k = Some s /\ readyState s <> CONNECTING
       /\ (readyState s = OPEN ->
           sent s <> [] \/ (method = "use" /\ params = Some (use_params nsp dbn)))) ->
  runtime_ok nsp dbn (fst (dispatch method params r))
  /\ states_kept r (fst (dispatch method params r)).
Proof.
  intros Hses Hfirst Hws. unfold dispatch, get_id. cbn [ws].
  destruct (ws (this r)) as [k|] eqn:Ek.
  - destruct (Hws k eq_refl) as (s & Hs & Hnc & Hused). rewrite Hs.
    unfold socket_send.
    destruct (readyState s) eqn:Est; [contradiction| | |]; cbn [fst].
    + split; [split; [exact Hses|split]|].
      * intros k' s' Hs'. cbn [sockets] in Hs'.
        destruct (decide (k' = k)) as [->|Hne].
        -- rewrite list_lookup_insert_eq in Hs' by (now apply lookup_lt_Some in Hs).
           inversion Hs'; subst s'. apply scoped_first_app; [now apply (Hfirst k)|].
           destruct (Hused eq_refl) as [H|[-> ->]]; [now left|right].
           now eexists.
        -- rewrite list_lookup_insert_ne in Hs' by congruence. now apply (Hfirst k').
      * intros k' Hk'. cbn [this ws] in Hk'. rewrite ?Ek in Hk'. inversion Hk'; subst k'.
        cbn [sockets]. eexists. split.
        -- apply list_lookup_insert_eq. now apply lookup_lt_Some in Hs.
        -- cbn. split; [discriminate|]. intros _. now destruct (sent s).
      * intros k' s' Hs'. cbn [sockets].
        destruct (decide (k' = k)) as [->|Hne].
        -- rewrite Hs in Hs'. inversion Hs'; subst s'. eexists. split.
           ++ apply list_lookup_insert_eq. now apply lookup_lt_Some in Hs.
           ++ cbn. now rewrite Est.
        -- exists s'. rewrite list_lookup_insert_ne by congruence. auto.
    + split; [split; [exact Hses|split]|].
      * intros k' s' Hs'. cbn [sockets] in Hs'.
        rewrite list_insert_id in Hs' by exact Hs. now apply (Hfirst k').
      * intros k' Hk'. cbn [this ws] in Hk'. rewrite ?Ek in Hk'. inversion Hk'; subst k'.
        cbn [sockets]. rewrite list_insert_id by exact Hs.
        exists s. split; [exact Hs|]. split; [congruence|congruence].
      * intros k' s' Hs'. cbn [sockets]. rewrite list_insert_id by exact Hs. eauto.
    + split; [split; [exact Hses|split]|].
      * intros k' s' Hs'. cbn [sockets] in Hs'.
        rewrite list_insert_id in Hs' by exact Hs. now apply (Hfirst k').
      * intros k' Hk'. cbn [this ws] in Hk'. rewrite ?Ek in Hk'. inversion Hk'; subst k'.
        cbn [sockets]. rewrite list_insert_id by exact Hs.
        exists s. split; [exact Hs|]. split; [congruence|congruence].
      * intros k' s' Hs'. cbn [sockets]. rewrite list_insert_id by exact Hs. eauto.
  - cbn [fst]. split; [split; [exact Hses|split]|].
    + exact Hfirst.
    + intros k' Hk'. cbn [this ws] in Hk'. congruence.
    + intros k' s' Hs'. exists s'. auto.
Qed.

Lemma runtime_ok_handle nsp dbn method params r :
  runtime_ok nsp dbn r ->
  forall k, ws (this r) = Some k ->
    exists s, sockets r !! k = Some s /\ readyState s <> CONNECTING
      /\ (readyState s = OPEN ->
          sent s <> [] \/ (method = "use" /\ params = Some (use_params nsp dbn))).
Proof.
  intros (_ & _ & Hh) k Hk. destruct (Hh k Hk) as (s & Hs & Hnc & Hu).
  exists s. repeat split; auto.
Qed.

Lemma createWebSocket_ok nsp dbn r :
  runtime_ok nsp dbn r ->
  runtime_ok nsp dbn (fst (createWebSocket r))
  /\ states_kept r (fst (createWebSocket r)).
Proof.
  intros (Hses & Hfirst & Hh). unfold createWebSocket. cbn [fst].
  split; [split; [exact Hses|split]|].
  - intros k s Hs. cbn [sockets] in Hs.
    apply lookup_app_Some in Hs as [Hs|[_ Hs]]; [now apply (Hfirst k)|].
    destruct (k - length (sockets r))%nat; [|discriminate].
    inversion Hs. exact I.
  - intros k Hk. destruct (Hh k Hk) as (s & Hs & Hrest).
    exists s. split; [|exact Hrest]. cbn [sockets]. now apply lookup_app_l_Some.
  - intros k s Hs. exists s. split; [|reflexivity]. cbn [sockets].
    now apply lookup_app_l_Some.
Qed.

Lemma send_ready_ok nsp dbn method params rest r :
  runtime_ok nsp dbn r -> Forall plain_frame rest ->
  runtime_ok nsp dbn (fst (send_ready method params rest r))
  /\ task_ok (snd (send_ready method params rest r))
  /\ states_kept r (fst (send_ready method params rest r)).
Proof.
  intros Hok Hrest. unfold send_ready.
  destruct Hok as (Hses & Hfirst & Hh).
  destruct (dispatch_ok nsp dbn method params r Hses Hfirst) as [Hok' Hkept].
  { now apply runtime_ok_handle. }
  destruct (dispatch method params r) as [r' [[p text]|e]]; cbn [fst snd] in *.
  - repeat split; auto; try apply Hok'. constructor; [exact I|exact Hrest].
  - repeat split; auto; apply Hok'.
Qed.

Lemma call_send_ok nsp dbn method params rest r :
  runtime_ok nsp dbn r -> Forall plain_frame rest ->
  runtime_ok nsp dbn (fst (call_send method params rest r))
  /\ task_ok (snd (call_send method params rest r))
  /\ states_kept r (fst (call_send method params rest r)).
Proof.
  intros Hok Hrest. unfold call_send, call_setup.
  destruct (ws_open r).
  - cbn [fst snd]. split; [exact Hok|]. split; [exact Hrest|apply states_kept_refl].
  - destruct (createWebSocket_ok nsp dbn r Hok) as [Hok' Hkept].
    destruct (createWebSocket r) as [r' k]. cbn [fst snd] in *.
    repeat split; auto; try apply Hok'.
    constructor; [exact I|exact Hrest].
Qed.

Lemma resume_plain_ok nsp dbn stack c r :
  runtime_ok nsp dbn r -> Forall plain_frame stack ->
  runtime_ok nsp dbn (fst (resume stack c r))
  /\ task_ok (snd (resume stack c r))
  /\ states_kept r (fst (resume stack c r)).
Proof.
  intros Hok Hstack. revert c.
  induction Hstack as [|f rest Hf Hrest IH]; intros c.
  - cbn. split; [exact Hok|]. split; [exact I|apply states_kept_refl].
  - cbn [resume]. destruct c as [v|e].
    + destruct f; try apply IH.
      * destruct Hf.
      * now apply send_ready_ok.
    + cbn. split; [exact Hok|]. split; [exact I|apply states_kept_refl].
Qed.

Lemma setup_opened_lookup k s r :
  sockets r !! k = Some s -> readyState s = OPEN ->
  sockets (setup_opened k r) !! k = Some (Socket (target s) OPEN (S (listeners s)) (sent s)).
Proof.
  intros Hs Hop. unfold setup_opened, add_listener. cbn [sockets]. rewrite Hs, Hop.
  apply list_lookup_insert_eq. now apply lookup_lt_Some in Hs.
Qed.

Lemma setup_opened_connected k s r :
  sockets r !! k = Some s -> readyState s = OPEN -> connected k (setup_opened k r).
Proof.
  intros Hs Hop. split; [reflexivity|]. eexists.
  split; [exact (setup_opened_lookup k s r Hs Hop)|]. cbn. split; [reflexivity|lia].
Qed.

(** [setup] resumed on the open socket [k] stores it, installs the listener
    and calls [use], which is suspended at its own [await this.setup()]. *)
Lemma resume_opened nsp dbn k s rest v r :
  session (this r) = Some (nsp, dbn) ->
  sockets r !! k = Some s -> readyState s = OPEN ->
  resume (KSetupOpened k :: rest) (Return v) r =
    (setup_opened k r,
     Blocked WTick (KSendReady "use" (Some (use_params nsp dbn)) :: KSetupUsed :: rest)).
Proof.
  intros Hses Hs Hop. cbn [resume].
  assert (Hses1 : session (this (setup_opened k r)) = Some (nsp, dbn)) by exact Hses.
  rewrite Hses1. apply call_send_open, (connected_open k).
  now apply (setup_opened_connected k s).
Qed.

(** When the code that was running yields, the call of [use] sends the
    scoping request on the socket and suspends until its reply. *)
Lemma wake_use nsp dbn k s rest r :
  sockets r !! k = Some s -> readyState s = OPEN ->
  let text := envelope (fst (get_id (this r))) "use" (Some (use_params nsp dbn)) in
  exists r',
    wake None [Blocked WTick (KSendReady "use" (Some (use_params nsp dbn))
                                :: KSetupUsed :: rest)] (setup_opened k r) =
      (r', [Blocked (WReply (length (store r))) (KSendDone text :: KSetupUsed :: rest)])
    /\ store r' !! length (store r) = Some None
    /\ sockets r' !! k = Some (Socket (target s) OPEN (S (listeners s)) (sent s ++ [text])).
Proof.
  intros Hs Hop text. cbn [wake ready resume].
  rewrite (send_ready_connected k) by (now apply (setup_opened_connected k s)).
  eexists. split; [reflexivity|].
  unfold sent_request. cbn [store sockets].
  rewrite (setup_opened_lookup k s r Hs Hop). cbn [target listeners sent].
  split; [now apply list_lookup_middle|].
  rewrite list_lookup_insert_eq; [reflexivity|].
  unfold setup_opened, add_listener. cbn [sockets]. rewrite Hs.
  rewrite length_insert. now apply lookup_lt_Some in Hs.
Qed.

Lemma setup_opened_kept k r : states_kept r (setup_opened k r).
Proof.
  intros k' s' Hs'. unfold setup_opened, add_listener. cbn [sockets].
  destruct (sockets r !! k) as [s|] eqn:Hs; [|eauto].
  destruct (decide (k' = k)) as [->|Hne].
  - rewrite Hs in Hs'. inversion Hs'; subst s'. eexists. split.
    + apply list_lookup_insert_eq. now apply lookup_lt_Some in Hs.
    + reflexivity.
  - exists s'. rewrite list_lookup_insert_ne by congruence. auto.
Qed.

Lemma setup_opened_weak nsp dbn k s r :
  runtime_weak nsp dbn r ->
  sockets r !! k = Some s -> readyState s = OPEN ->
  runtime_weak nsp dbn (setup_opened k r).
Proof.
  intros (Hses & Hfirst & Hh) Hs Hop. split; [exact Hses|]. split.
  - intros k' s' Hs'. unfold setup_opened, add_listener in Hs'. cbn [sockets] in Hs'.
    rewrite Hs in Hs'. destruct (decide (k' = k)) as [->|Hne].
    + rewrite list_lookup_insert_eq in Hs' by (now apply lookup_lt_Some in Hs).
      inversion Hs'; subst s'. exact (Hfirst k s Hs).
    + rewrite list_lookup_insert_ne in Hs' by congruence. now apply (Hfirst k').
  - intros k' Hk'. cbn in Hk'. inversion Hk'; subst k'.
    eexists. split; [exact (setup_opened_lookup k s r Hs Hop)|]. cbn. discriminate.
Qed.

Lemma runtime_ok_weak nsp dbn r : runtime_ok nsp dbn r -> runtime_weak nsp dbn r.
Proof.
  intros (Hses & Hfirst & Hh). split; [exact Hses|]. split; [exact Hfirst|].
  intros k Hk. destruct (Hh k Hk) as (s & Hs & Hnc & _). eauto.
Qed.

(** The scoping request may be sent on a socket not used before. *)
Lemma send_use_ok nsp dbn rest r :
  runtime_weak nsp dbn r -> Forall plain_frame rest ->
  runtime_ok nsp dbn (fst (send_ready "use" (Some (use_params nsp dbn)) rest r))
  /\ task_ok (snd (send_ready "use" (Some (use_params nsp dbn)) rest r))
  /\ states_kept r (fst (send_ready "use" (Some (use_params nsp dbn)) rest r)).
Proof.
  intros (Hses & Hfirst & Hh) Hrest. unfold send_ready.
  destruct (dispatch_ok nsp dbn "use" (Some (use_params nsp dbn)) r Hses Hfirst)
    as [Hok' Hkept].
  { intros k Hk. destruct (Hh k Hk) as (s & Hs & Hnc). exists s.
    split; [exact Hs|]. split; [exact Hnc|]. intros _. now right. }
  destruct (dispatch _ _ r) as [r' [[p text]|e]]; cbn [fst snd] in *.
  - repeat split; auto; try apply Hok'. constructor; [exact I|exact Hrest].
  - repeat split; auto; apply Hok'.
Qed.

(** A pass over the tasks that reports no opened socket. *)
Lemma wake_ok nsp dbn opened ts r :
  runtime_ok nsp dbn r -> Forall task_ok ts ->
  match opened with Some (_, Return _) => False | _ => True end ->
  runtime_ok nsp dbn (fst (wake opened ts r))
  /\ Forall task_ok (snd (wake opened ts r))
  /\ states_kept r (fst (wake opened ts r)).
Proof.
  intros Hok Hts Hop. revert r Hok.
  induction Hts as [|t ts Ht _ IH]; intros r Hok.
  - cbn. split; [exact Hok|]. split; [constructor|apply states_kept_refl].
  - cbn [wake].
    assert (Hstep : exists r1 t1,
      match t with
      | Blocked w stack =>
          match ready r opened w with
          | Some c => resume stack c r
          | None => (r, t)
          end
      | Finished _ => (r, t)
      end = (r1, t1)
      /\ runtime_ok nsp dbn r1 /\ task_ok t1 /\ states_kept r r1).
    { destruct t as [on stack|c].
      - destruct (ready r opened on) as [c|] eqn:Hready.
        + destruct on as [k|p|].
          * cbn in Ht. destruct stack as [|[k'| | | |] rest]; try contradiction.
            cbn in Hready. destruct opened as [[k0 c0]|]; [|discriminate].
            destruct (Nat.eqb_spec k k0) as [->|]; [|discriminate].
            inversion Hready; subst c0.
            destruct c as [v|e]; [contradiction|].
            exists r, (Finished (Throw e)). cbn.
            repeat split; auto using states_kept_refl; apply Hok.
          * destruct (resume_plain_ok nsp dbn stack c r Hok Ht) as (H1 & H2 & H3).
            destruct (resume stack c r) as [r1 t1]. exists r1, t1. auto.
          * cbn in Ht. destruct stack as [|[k'| |method params| |] rest]; try contradiction.
            assert (Hst : Forall plain_frame (KSendReady method params :: rest))
              by (constructor; [exact I|exact Ht]).
            destruct (resume_plain_ok nsp dbn _ c r Hok Hst) as (H1 & H2 & H3).
            destruct (resume _ c r) as [r1 t1]. exists r1, t1. auto.
        + exists r, (Blocked on stack). repeat split; auto using states_kept_refl; apply Hok.
      - exists r, (Finished c). repeat split; auto using states_kept_refl; apply Hok. }
    destruct Hstep as (r1 & t1 & -> & Hok1 & Ht1 & Hk1).
    destruct (IH r1 Hok1) as (Hok2 & Hts2 & Hk2).
    destruct (wake opened ts r1) as [r2 ts2]. cbn [fst snd] in *.
    split; [exact Hok2|]. split; [now constructor|].
    eapply states_kept_trans; eauto.
Qed.

(** *** The store while continuations run *)

Lemma store_grows_refl r : store_grows r r.
Proof. exists 0%nat. cbn. now rewrite app_nil_r. Qed.

Lemma store_grows_trans r1 r2 r3 :
  store_grows r1 r2 -> store_grows r2 r3 -> store_grows r1 r3.
Proof.
  intros [n Hn] [m Hm]. exists (n + m)%nat.
  now rewrite Hm, Hn, <- app_assoc, replicate_add.
Qed.

Lemma quiet_grows r r' t : store_grows r r' -> quiet r t -> quiet r' t.
Proof.
  intros [n Hn]. destruct t as [[k|p|] stack|c]; cbn; auto.
  rewrite Hn. destruct (store r !! p) as [[[v|e]|]|] eqn:Hp; try discriminate; intros _.
  - now rewrite (lookup_app_l_Some _ _ _ _ Hp).
  - destruct ((store r ++ replicate n None) !! p) as [x|] eqn:Hx; [|reflexivity].
    apply lookup_app_Some in Hx as [Hx|[_ Hx]]; [congruence|].
    apply lookup_replicate in Hx as [-> _]. reflexivity.
Qed.

Lemma quiet_store r r' t : store r' = store r -> quiet r t -> quiet r' t.
Proof.
  intros Hst. apply quiet_grows. exists 0%nat. cbn. now rewrite app_nil_r.
Qed.

Lemma dispatch_grows method params r :
  store (fst (dispatch method params r)) = store r ++ [None]
  /\ forall p text, snd (dispatch method params r) = inl (p, text) -> p = length (store r).
Proof.
  unfold dispatch. destruct (get_id (this r)) as [id s1]. cbn [ws].
  destruct (ws s1) as [k|]; [|split; [reflexivity|discriminate]].
  destruct (sockets r !! k) as [sk|]; [|split; [reflexivity|discriminate]].
  destruct (socket_send _ sk); cbn [fst snd store]; (split; [reflexivity|]).
  - intros p text H. now inversion H.
  - discriminate.
Qed.

Lemma send_ready_grows method params rest r :
  store_grows r (fst (send_ready method params rest r))
  /\ quiet (fst (send_ready method params rest r)) (snd (send_ready method params rest r)).
Proof.
  unfold send_ready. destruct (dispatch_grows method params r) as [Hst Hp].
  destruct (dispatch method params r) as [r' [[p text]|e]]; cbn [fst snd] in *.
  - split; [now exists 1%nat|]. cbn. rewrite Hst, (Hp p text eq_refl).
    now rewrite list_lookup_middle.
  - split; [now exists 1%nat|exact I].
Qed.

Lemma resume_plain_grows stack c r :
  Forall plain_frame stack ->
  store_grows r (fst (resume stack c r))
  /\ quiet (fst (resume stack c r)) (snd (resume stack c r)).
Proof.
  intros Hstack. revert c.
  induction Hstack as [|f rest Hf Hrest IH]; intros c.
  - cbn. split; [apply store_grows_refl|exact I].
  - cbn [resume]. destruct c as [v|e].
    + destruct f; try apply IH.
      * destruct Hf.
      * apply send_ready_grows.
    + cbn. split; [apply store_grows_refl|exact I].
Qed.

(** After the continuations that were ready have run, none is. *)
Lemma wake_quiet ts r :
  Forall task_ok ts ->
  store_grows r (fst (wake None ts r))
  /\ Forall (quiet (fst (wake None ts r))) (snd (wake None ts r)).
Proof.
  intros Hts. revert r. induction Hts as [|t ts Ht _ IH]; intros r.
  - cbn. split; [apply store_grows_refl|constructor].
  - cbn [wake].
    assert (Hstep : exists r1 t1,
      match t with
      | Blocked w stack =>
          match ready r None w with
          | Some c => resume stack c r
          | None => (r, t)
          end
      | Finished _ => (r, t)
      end = (r1, t1)
      /\ store_grows r r1 /\ quiet r1 t1).
    { destruct t as [on stack|c].
      - destruct (ready r None on) as [c|] eqn:Hready.
        + assert (Hst : Forall plain_frame stack).
          { destruct on as [k|p|]; [discriminate|exact Ht|].
            cbn in Ht. destruct stack as [|[k'| |method params| |] rest]; try contradiction.
            constructor; [exact I|exact Ht]. }
          destruct (resume_plain_grows stack c r Hst) as [H1 H2].
          destruct (resume stack c r) as [r1 t1]. exists r1, t1. auto.
        + exists r, (Blocked on stack).
          split; [reflexivity|]. split; [apply store_grows_refl|exact Hready].
      - exists r, (Finished c).
        split; [reflexivity|]. split; [apply store_grows_refl|exact I]. }
    destruct Hstep as (r1 & t1 & -> & Hg1 & Hq1).
    destruct (IH r1) as [Hg2 Hq2].
    destruct (wake None ts r1) as [r2 ts2]. cbn [fst snd] in *.
    split; [eapply store_grows_trans; eauto|].
    constructor; [|exact Hq2]. now apply (quiet_grows r1).
Qed.

(** *** The pass that reports an opened socket *)

(** In a world with nothing left to run, the pass resumes the calls of
    [setup] that waited for socket [k], and these only: each stores the
    socket, installs the listener and calls [use], which is suspended;
    nothing is sent. *)
Lemma wake_opened nsp dbn k v ts r :
  runtime_weak nsp dbn r ->
  (exists s, sockets r !! k = Some s /\ readyState s = OPEN) ->
  Forall task_ok ts -> Forall (quiet r) ts ->
  runtime_weak nsp dbn (fst (wake (Some (k, Return v)) ts r))
  /\ store (fst (wake (Some (k, Return v)) ts r)) = store r
  /\ Forall task_ok (snd (wake (Some (k, Return v)) ts r))
  /\ (wake (Some (k, Return v)) ts r = (r, ts)
      \/ use_pending nsp dbn (fst (wake (Some (k, Return v)) ts r))
           (snd (wake (Some (k, Return v)) ts r))).
Proof.
  intros Hweak Hsock Hts. revert r Hweak Hsock.
  induction Hts as [|t ts Ht _ IH]; intros r Hweak Hsock Hq.
  - cbn. split; [exact Hweak|]. split; [reflexivity|]. split; [constructor|now left].
  - apply Forall_cons in Hq as [Hqt Hq]. cbn [wake].
    assert (Hcases :
      (exists rest, t = Blocked (WOpen k) (KSetupOpened k :: rest) /\ Forall plain_frame rest)
      \/ match t with
         | Blocked w stack =>
             match ready r (Some (k, Return v)) w with
             | Some c => resume stack c r
             | None => (r, t)
             end
         | Finished _ => (r, t)
         end = (r, t)).
    { destruct t as [[k'|p|] stack|c]; [| | |now right].
      - cbn in Ht. destruct stack as [|[k''| | | |] rest]; try contradiction.
        destruct Ht as [-> Hrest]. cbn [ready].
        destruct (Nat.eqb_spec k' k) as [->|Hne]; [left; eauto|now right].
      - right. cbn in Hqt. cbn [ready].
        destruct (store r !! p) as [[[x|e]|]|]; try discriminate; reflexivity.
      - discriminate. }
    destruct Hcases as [(rest & -> & Hrest)|Hsame].
    + cbn [ready]. rewrite Nat.eqb_refl.
      destruct Hsock as (s & Hs & Hop).
      destruct Hweak as (Hses & Hweak').
      rewrite (resume_opened nsp dbn k s rest v r Hses Hs Hop).
      assert (Hweak : runtime_weak nsp dbn r) by (split; assumption).
      destruct (IH (setup_opened k r)) as (H1 & H2 & H3 & _).
      * now apply (setup_opened_weak nsp dbn k s).
      * eexists. split; [exact (setup_opened_lookup k s r Hs Hop)|reflexivity].
      * eapply Forall_impl; [exact Hq|]. intros t0. now apply quiet_store.
      * destruct (wake (Some (k, Return v)) ts (setup_opened k r)) as [r2 ts2].
        cbn [fst snd] in *. split; [exact H1|]. split; [exact H2|]. split.
        -- constructor; [|exact H3]. cbn. constructor; [exact I|exact Hrest].
        -- right. exists [], (KSetupUsed :: rest), ts2.
           split; [reflexivity|]. split; constructor; [exact I|exact Hrest].
    + rewrite Hsame. destruct (IH r Hweak Hsock Hq) as (H1 & H2 & H3 & H4).
      destruct (wake (Some (k, Return v)) ts r) as [r2 ts2]. cbn [fst snd] in *.
      split; [exact H1|]. split; [exact H2|]. split; [now constructor|].
      destruct H4 as [H4|(ts1 & rest & ts3 & -> & Hq1 & Hrest)].
      * left. now inversion H4.
      * right. exists (t :: ts1), rest, ts3. split; [reflexivity|].
        split; [|exact Hrest]. constructor; [|exact Hq1].
        now apply (quiet_store r).
Qed.

(** The continuations run next: the first of them sends the scoping
    request. *)
Lemma wake_pending nsp dbn ts r :
  runtime_weak nsp dbn r -> Forall task_ok ts ->
  handle_ok r \/ use_pending nsp dbn r ts ->
  runtime_ok nsp dbn (fst (wake None ts r))
  /\ Forall task_ok (snd (wake None ts r)).
Proof.
  intros Hweak Hts [Hh|(ts1 & rest & ts2 & -> & Hq & Hrest)].
  - destruct (wake_ok nsp dbn None ts r) as (H1 & H2 & _); auto.
    destruct Hweak as (Hses & Hfirst & _). repeat split; assumption.
  - apply Forall_app in Hts as [Hts1 Hts2]. apply Forall_cons in Hts2 as [_ Hts2].
    rewrite wake_app, (wake_idle ts1 r Hq). cbn [fst snd wake ready resume].
    destruct (send_use_ok nsp dbn rest r Hweak Hrest) as (Hok1 & Ht1 & _).
    destruct (send_ready "use" (Some (use_params nsp dbn)) rest r) as [r1 t1].
    cbn [fst snd] in *.
    destruct (wake_ok nsp dbn None ts2 r1 Hok1 Hts2 I) as (Hok2 & Hts3 & _).
    destruct (wake None ts2 r1) as [r2 ts3]. cbn [fst snd] in *.
    split; [exact Hok2|]. apply Forall_app. split; [exact Hts1|]. now constructor.
Qed.

Lemma on_message_core data r :
  opt (this (snd (on_message data r))) = opt (this r)
  /\ ws (this (snd (on_message data r))) = ws (this r)
  /\ sockets (snd (on_message data r)) = sockets r.
Proof.
  unfold on_message.
  destruct (JSON_parse data) as [app|]; [|auto].
  destruct (get_prop app "id") as [idv|e]; [|auto].
  destruct (channels (this r) !! ToString idv) as [ch|].
  - destruct (deliver ch app (store r)) as [[calls c] ps]. auto.
  - destruct (inherited (ToString idv)); auto.
Qed.

Lemma runtime_ok_core nsp dbn r r' :
  opt (this r') = opt (this r) -> ws (this r') = ws (this r) ->
  sockets r' = sockets r ->
  runtime_ok nsp dbn r -> runtime_ok nsp dbn r'.
Proof.
  intros Ho Hw Hs (Hses & Hfirst & Hh). unfold runtime_ok, handle_ok, session.
  rewrite Ho, Hw, Hs. auto.
Qed.

Lemma run_listeners_ok nsp dbn n data r errs :
  runtime_ok nsp dbn r -> runtime_ok nsp dbn (fst (run_listeners n data r errs)).
Proof.
  revert r errs. induction n as [|n IH]; intros r errs Hok; [exact Hok|].
  cbn [run_listeners].
  destruct (on_message_core data r) as (Ho & Hw & Hs).
  destruct (on_message data r) as [[calls c] r1]. cbn [snd] in *.
  apply IH. now apply (runtime_ok_core nsp dbn r).
Qed.

Lemma set_ready_state_ok nsp dbn k st r :
  runtime_ok nsp dbn r ->
  st <> CONNECTING ->
  (st = OPEN -> socket_state k r = Some CONNECTING) ->
  runtime_ok nsp dbn (set_ready_state k st r).
Proof.
  intros (Hses & Hfirst & Hh) Hst Hopen. unfold set_ready_state.
  destruct (sockets r !! k) as [s|] eqn:Hs; [|now repeat split].
  assert (Hlt : (k < length (sockets r))%nat) by (now apply lookup_lt_Some in Hs).
  split; [exact Hses|split].
  - intros k' s' Hs'. cbn [sockets] in Hs'.
    destruct (decide (k' = k)) as [->|Hne].
    + rewrite list_lookup_insert_eq in Hs' by exact Hlt. inversion Hs'; subst s'.
      exact (Hfirst k s Hs).
    + rewrite list_lookup_insert_ne in Hs' by congruence. now apply (Hfirst k').
  - intros k' Hk'. cbn [this] in Hk'. destruct (Hh k' Hk') as (s0 & Hs0 & Hnc & Hu).
    cbn [sockets]. destruct (decide (k' = k)) as [->|Hne].
    + rewrite Hs in Hs0. inversion Hs0; subst s0.
      eexists. split; [now apply list_lookup_insert_eq|]. cbn.
      split; [exact Hst|]. intros ->.
      specialize (Hopen eq_refl). unfold socket_state in Hopen.
      rewrite Hs in Hopen. cbn in Hopen. congruence.
    + exists s0. rewrite list_lookup_insert_ne by congruence. auto.
Qed.

Lemma set_ready_state_lookup k st r s :
  sockets r !! k = Some s ->
  sockets (set_ready_state k st r) !! k = Some (Socket (target s) st (listeners s) (sent s)).
Proof.
  intros Hs. unfold set_ready_state. rewrite Hs. cbn [sockets].
  apply list_lookup_insert_eq. now apply lookup_lt_Some in Hs.
Qed.

Lemma start_ok nsp dbn c r :
  runtime_ok nsp dbn r ->
  runtime_ok nsp dbn (fst (start c r)) /\ task_ok (snd (start c r)).
Proof.
  intros Hok. destruct c; cbn [start].
  - destruct (call_send_ok nsp dbn method params [] r Hok) as (H1 & H2 & _); auto.
  - destruct (call_send_ok nsp dbn "use" (Some (use_params n d)) [] r Hok)
      as (H1 & H2 & _); auto.
  - destruct (call_send_ok nsp dbn "query"
                (Some ("[" +:+ query_text ql params +:+ "]"))
                [KQueryDone (query_text ql params)] r Hok) as (H1 & H2 & _); auto.
    repeat constructor.
Qed.

Lemma drain_ok nsp dbn w :
  world_ok nsp dbn w -> world_ok nsp dbn (drain w) /\ no_task_ready (drain w).
Proof.
  intros [Hrt Hts]. unfold drain, no_task_ready.
  destruct (wake_ok nsp dbn None (tasks w) (rt w) Hrt Hts I) as (H1 & H2 & _).
  destruct (wake_quiet (tasks w) (rt w) Hts) as [_ H3].
  destruct (wake None (tasks w) (rt w)) as [r ts]. cbn [fst snd rt tasks] in *.
  split; [now split|exact H3].
Qed.

(** What a socket's event leaves of a world with nothing left to run. *)
Lemma socket_event_ok nsp dbn ev w :
  world_ok nsp dbn w -> no_task_ready w ->
  let w' := socket_event ev w in
  runtime_weak nsp dbn (rt w') /\ Forall task_ok (tasks w')
  /\ (handle_ok (rt w') \/ use_pending nsp dbn (rt w') (tasks w')).
Proof.
  intros [Hrt Hts] Hidle w'.
  assert (Hsame : runtime_weak nsp dbn (rt w) /\ Forall task_ok (tasks w)
                  /\ (handle_ok (rt w) \/ use_pending nsp dbn (rt w) (tasks w))).
  { split; [now apply runtime_ok_weak|]. split; [exact Hts|]. left. apply Hrt. }
  assert (Hfull : forall r ts u,
            runtime_ok nsp dbn r -> Forall task_ok ts ->
            runtime_weak nsp dbn (rt (World r ts u)) /\ Forall task_ok (tasks (World r ts u))
            /\ (handle_ok (rt (World r ts u))
                \/ use_pending nsp dbn (rt (World r ts u)) (tasks (World r ts u)))).
  { intros r ts u Hr Ht. cbn [rt tasks].
    split; [now apply runtime_ok_weak|]. split; [exact Ht|]. left. apply Hr. }
  subst w'. destruct ev as [c| |k|k e|k e|k data|]; try exact Hsame.
  - cbn [socket_event].
    destruct (socket_state k (rt w)) as [[]|] eqn:Hst; try exact Hsame.
    assert (Hok1 : runtime_ok nsp dbn (set_ready_state k OPEN (rt w))).
    { apply set_ready_state_ok; [exact Hrt|discriminate|auto]. }
    assert (Hop : exists s, sockets (set_ready_state k OPEN (rt w)) !! k = Some s
                            /\ readyState s = OPEN).
    { unfold socket_state in Hst.
      destruct (sockets (rt w) !! k) as [s|] eqn:Hs; [|discriminate].
      eexists. split; [exact (set_ready_state_lookup k OPEN (rt w) s Hs)|reflexivity]. }
    assert (Hq : Forall (quiet (set_ready_state k OPEN (rt w))) (tasks w)).
    { eapply Forall_impl; [exact Hidle|]. intros t. apply quiet_store.
      unfold set_ready_state. now destruct (sockets (rt w) !! k). }
    destruct (wake_opened nsp dbn k VUndefined (tasks w) _
                (runtime_ok_weak _ _ _ Hok1) Hop Hts Hq) as (H1 & _ & H3 & H4).
    destruct (wake _ (tasks w) _) as [r ts]. cbn [fst snd rt tasks] in *.
    split; [exact H1|]. split; [exact H3|].
    destruct H4 as [H4|H4]; [|now right].
    left. inversion H4; subst. apply Hok1.
  - cbn [socket_event].
    destruct (socket_state k (rt w)) as [[]|] eqn:Hst; try exact Hsame.
    assert (Hok1 : runtime_ok nsp dbn (set_ready_state k CLOSED (rt w))).
    { apply set_ready_state_ok; [exact Hrt|discriminate|discriminate]. }
    destruct (wake_ok nsp dbn (Some (k, failed "message" e)) (tasks w) _ Hok1 Hts I)
      as (H1 & H2 & _).
    destruct (wake _ (tasks w) _) as [r ts]. now apply Hfull.
  - cbn [socket_event].
    assert (Hok1 : runtime_ok nsp dbn (set_ready_state k CLOSED (rt w))).
    { apply set_ready_state_ok; [exact Hrt|discriminate|discriminate]. }
    destruct (socket_state k (rt w)) as [[]|] eqn:Hst; try exact Hsame;
      try (now apply Hfull).
    destruct (wake_ok nsp dbn (Some (k, failed "reason" e)) (tasks w) _ Hok1 Hts I)
      as (H1 & H2 & _).
    destruct (wake _ (tasks w) _) as [r ts]. now apply Hfull.
  - cbn [socket_event]. destruct (sockets (rt w) !! k) as [s|]; [|exact Hsame].
    pose proof (run_listeners_ok nsp dbn (listeners s) data (rt w) (uncaught w) Hrt) as Hok1.
    destruct (run_listeners (listeners s) data (rt w) (uncaught w)) as [r1 errs].
    cbn [fst] in Hok1.
    destruct (wake_ok nsp dbn None (tasks w) r1 Hok1 Hts I) as (H1 & H2 & _).
    destruct (wake None (tasks w) r1) as [r2 ts].
    destruct (readyState s); try exact Hsame; now apply Hfull.
Qed.

Lemma run_event_socket ev w :
  match ev with ECall _ | EShutdown | EYield => False | _ => True end ->
  run_event ev w = drain (socket_event ev (drain w)).
Proof. now destruct ev. Qed.

Lemma run_event_ok nsp dbn ev w : world_ok nsp dbn w -> world_ok nsp dbn (run_event ev w).
Proof.
  intros Hw.
  assert (Hsock : world_ok nsp dbn (drain (socket_event ev (drain w)))).
  { destruct (drain_ok nsp dbn w Hw) as [Hw0 Hidle].
    destruct (socket_event_ok nsp dbn ev (drain w) Hw0 Hidle) as (H1 & H2 & H3).
    destruct (wake_pending nsp dbn _ _ H1 H2 H3) as [H4 H5].
    unfold drain at 1. destruct (wake None _ _) as [r ts]. now split. }
  destruct Hw as [Hrt Hts].
  destruct ev as [c| |k|k e|k e|k data|]; try exact Hsock.
  - rewrite run_event_call. destruct (start_ok nsp dbn c (rt w) Hrt) as [H1 H2].
    split; cbn [rt tasks]; [exact H1|]. apply Forall_app. split; [exact Hts|].
    now constructor.
  - cbn [run_event]. destruct (ws (this (rt w))) as [k|]; [|now split].
    destruct (socket_state k (rt w)) as [[]|]; try now split.
    + split; [|exact Hts]. cbn [rt].
      apply set_ready_state_ok; [exact Hrt|discriminate|discriminate].
    + split; [|exact Hts]. cbn [rt].
      apply set_ready_state_ok; [exact Hrt|discriminate|discriminate].
  - apply (drain_ok nsp dbn w). now split.
Qed.

Lemma run_events_ok nsp dbn evs w :
  world_ok nsp dbn w -> world_ok nsp dbn (run_events evs w).
Proof.
  revert w. induction evs as [|ev evs IH]; intros w Hw; [exact Hw|].
  cbn [run_events fold_left]. apply IH. now apply run_event_ok.
Qed.


(** *** Replies to [query] *)

(** C3: [query] called with the one statement SELECT 1 and answered by the
    reply frame whose [result] is the list with the one outcome of that
    statement, tagged OK, does not return the one-element sequence of the
    statement's result: [send] has already taken the frame's [result], the
    list has no [result] property of its own, and the call raises a
    [TypeError]. *)
Theorem query_reply_one_statement url :
  tasks (run_events
           [ECall (CQuery "SELECT 1" VUndefined); EOpen 0;
            EMessage 0 (js "{'id':0,'result':[{'status':'OK','result':1}]}")]
           (new_world url None))
  = [Finished (Throw type_error)].
Proof. vm_compute. reflexivity. Qed.

(** C4: [query] answered by the reply frame whose [result] is the list of
    two outcomes, the second tagged ERR, does not raise the aggregated
    failure built from the failed statement's message: for the same reason
    as above the call raises a [TypeError]. *)
Theorem query_reply_failed_statement url :
  tasks (run_events
           [ECall (CQuery "SELECT 1; SELECT bogus;" VUndefined); EOpen 0;
            EMessage 0 (js "{'id':0,'result':[{'status':'OK','result':1},{'status':'ERR','result':'bogus'}]}")]
           (new_world url None))
  = [Finished (Throw type_error)].
Proof. vm_compute. reflexivity. Qed.

(** *** Values inside a request text *)

Lemma append_nil_l s : "" +:+ s = s.
Proof. reflexivity. Qed.

Lemma lex_idle_prefix pre toks c :
  lex_idle (pre ++ toks) c = with_prefix pre (lex_idle toks c).
Proof.
  unfold lex_idle.
  repeat match goal with
         | |- context [if ?b then _ else _] => destruct b
         end; cbn [with_prefix]; rewrite ?app_assoc; try reflexivity.
  destruct (digit_of c) as [[|d]|]; reflexivity.
Qed.

Lemma lex_step_prefix pre m toks c :
  lex_step (m, pre ++ toks) c = with_prefix pre (lex_step (m, toks) c).
Proof.
  destruct m; cbn [lex_step]; rewrite <- ?app_assoc, ?lex_idle_prefix;
    try reflexivity;
    repeat match goal with
           | |- context [if ?b then _ else _] => destruct b
           | |- context [match digit_of ?c with _ => _ end] => destruct (digit_of c) as [[|?]|]
           | |- context [match hex_of ?c with _ => _ end] => destruct (hex_of c)
           | |- context [match ?s with FDot => _ | _ => _ end] => destruct s
           | |- context [match ?s with EmptyString => _ | String _ _ => _ end] => destruct s
           end;
    cbn [with_prefix]; rewrite ?app_assoc; try reflexivity.
Qed.

Lemma lex_feed_prefix pre s m toks :
  lex_feed (m, pre ++ toks) s = with_prefix pre (lex_feed (m, toks) s).
Proof.
  revert m toks. induction s as [|c s IH]; intros m toks; [reflexivity|].
  cbn [lex_feed]. rewrite lex_step_prefix.
  destruct (lex_step (m, toks) c) as [[m' toks']|]; [|reflexivity].
  cbn [with_prefix]. apply IH.
Qed.

Lemma closing_cases c tok :
  closing c = Some tok ->
  (c = "}"%char /\ tok = TRBrace) \/ (c = "]"%char /\ tok = TRBrack)
  \/ (c = ","%char /\ tok = TComma).
Proof.
  unfold closing.
  destruct (Ascii.eqb_spec c "}"); [intros [= <-]; auto|].
  destruct (Ascii.eqb_spec c "]"); [intros [= <-]; auto|].
  destruct (Ascii.eqb_spec c ","); [intros [= <-]; auto|].
  discriminate.
Qed.

Lemma lex_finish_closing st P c tok :
  lex_finish st = Some P -> closing c = Some tok ->
  lex_step st c = Some (LIdle, P ++ [tok]).
Proof.
  intros Hf Hc. destruct st as [m toks].
  apply closing_cases in Hc as [[-> ->]|[[-> ->]|[-> ->]]];
    destruct m as [| | | | | | |fs lit|]; try discriminate;
    try (destruct fs; try discriminate);
    cbn in Hf; inversion Hf; subst P; reflexivity.
Qed.

Lemma lex_value_then text P c tok toks rest :
  lex text = Some P -> closing c = Some tok ->
  lex_feed (LIdle, toks) (text +:+ String c rest) =
    lex_feed (LIdle, toks ++ P ++ [tok]) rest.
Proof.
  unfold lex. intros Hl Hc.
  destruct (lex_feed (LIdle, []) text) as [[m t]|] eqn:Ht; [|discriminate].
  rewrite lex_feed_app.
  rewrite <- (app_nil_r toks) at 1. rewrite lex_feed_prefix, Ht.
  cbn [with_prefix lex_feed]. rewrite lex_step_prefix.
  rewrite (lex_finish_closing (m, t) P c tok Hl Hc). cbn [with_prefix].
  reflexivity.
Qed.

Lemma parse_feed_app st toks1 toks2 :
  parse_feed st (toks1 ++ toks2) =
    match parse_feed st toks1 with
    | Some st' => parse_feed st' toks2
    | None => None
    end.
Proof.
  revert st. induction toks1 as [|t toks1 IH]; intros st; [reflexivity|].
  cbn [app parse_feed]. destruct (parse_step st t); [apply IH|reflexivity].
Qed.

Lemma graft_inner top rest c stk' :
  match c with CTop | CEnd _ => False | _ => True end ->
  graft top rest (c, stk' ++ [CTop]) = Some (c, stk' ++ top :: rest).
Proof.
  destruct c; intros H; try (exfalso; exact H); cbn [graft];
    now rewrite removelast_last.
Qed.

Lemma from_top_inner c stk' :
  match c with CTop | CEnd _ => False | _ => True end ->
  Forall awaits_value stk' -> from_top (c, stk' ++ [CTop]).
Proof.
  destruct c; intros H Hall; try (exfalso; exact H); cbn [from_top]; eauto.
Qed.

Lemma plug_graft top rest v t' stk' st' :
  awaits_value top -> Forall awaits_value (t' :: stk') ->
  plug v t' (stk' ++ [CTop]) = Some st' ->
  from_top st'
  /\ plug v t' (stk' ++ top :: rest) = graft top rest st'.
Proof.
  intros Ht Hall Hp. inversion Hall as [|? ? Ht' Hall']; subst.
  destruct t'; try (exfalso; exact Ht'); cbn [plug] in Hp |- *;
    inversion Hp; subst st';
    (split; [now apply from_top_inner|now rewrite graft_inner]).
Qed.

Lemma close_graft top rest v stk' st' :
  awaits_value top -> Forall awaits_value stk' ->
  close v (stk' ++ [CTop]) = Some st' ->
  from_top st'
  /\ close v (stk' ++ top :: rest) = graft top rest st'.
Proof.
  intros Ht Hall Hc. destruct stk' as [|t' stk'].
  - cbn in Hc. inversion Hc; subst st'. split; [reflexivity|].
    reflexivity.
  - cbn [app close] in Hc |- *. now apply plug_graft.
Qed.

Lemma parse_step_graft_inner top rest c stk' t st' :
  awaits_value top ->
  match c with CTop | CEnd _ => False | _ => True end ->
  Forall awaits_value stk' ->
  parse_step (c, stk' ++ [CTop]) t = Some st' ->
  from_top st'
  /\ parse_step (c, stk' ++ top :: rest) t = graft top rest st'.
Proof.
  intros Ht Hc Hall Hs.
  destruct c; try (exfalso; exact Hc);
    destruct t; cbn [parse_step plug expects_value] in Hs |- *;
    try discriminate Hs;
    try match type of Hs with
        | context [match ?v with _ => _ end] => destruct v; try discriminate Hs
        end.
  all: try first
      [ now apply close_graft
      | inversion Hs; subst st'; split;
        [ first [ now apply from_top_inner
                | apply (from_top_inner _ (_ :: _)); [exact I|];
                  constructor; [exact I|assumption] ]
        | first [ rewrite graft_inner by exact I
                | rewrite (graft_inner _ _ _ (_ :: _)) by exact I ];
          reflexivity ] ].
  all: inversion Hs; subst st'; clear Hs;
    match goal with
    | |- context [(?c, ?x :: ?l ++ [CTop])] =>
        change (x :: l ++ [CTop]) with ((x :: l) ++ [CTop])
    end;
    (split;
     [ apply from_top_inner; [exact I|constructor; [exact I|exact Hall]]
     | rewrite graft_inner by exact I; reflexivity ]).
Qed.

Lemma parse_step_graft top rest st t st' :
  awaits_value top -> from_top st -> parse_step st t = Some st' ->
  from_top st'
  /\ exists g, graft top rest st = Some g /\ parse_step g t = graft top rest st'.
Proof.
  intros Ht Hf Hs. destruct st as [c stk].
  assert (Hin : match c with CTop | CEnd _ => False | _ => True end ->
                from_top (c, stk) ->
                from_top st'
                /\ exists g, graft top rest (c, stk) = Some g
                             /\ parse_step g t = graft top rest st').
  { intros Hc Hf'.
    assert (exists stk', stk = stk' ++ [CTop] /\ Forall awaits_value stk')
      as (stk' & -> & Hall)
      by (destruct c; try (exfalso; exact Hc); exact Hf').
    destruct (parse_step_graft_inner top rest c stk' t st' Ht Hc Hall Hs)
      as [H1 H2].
    split; [exact H1|]. rewrite graft_inner by exact Hc.
    eexists; split; [reflexivity|exact H2]. }
  destruct c; try (apply Hin; [exact I|exact Hf]); clear Hin;
    cbn [from_top] in Hf; subst stk.
  - destruct t; cbn in Hs; try discriminate; inversion Hs; subst st';
      (split; [first [reflexivity | now exists []]|]);
      exists (top, rest); (split; [reflexivity|]);
      destruct top; try (exfalso; exact Ht); reflexivity.
  - destruct t; discriminate.
Qed.

Lemma graft_some top rest st :
  awaits_value top -> from_top st -> exists g, graft top rest st = Some g.
Proof.
  intros Ht Hf. destruct st as [c stk].
  destruct c; cbn [graft]; eauto.
  destruct top; try (exfalso; exact Ht); cbn [plug]; eauto.
Qed.

Lemma parse_feed_graft top rest toks :
  awaits_value top ->
  forall st st',
    from_top st -> parse_feed st toks = Some st' ->
    from_top st'
    /\ exists g, graft top rest st = Some g
                 /\ parse_feed g toks = graft top rest st'.
Proof.
  intros Ht. induction toks as [|t toks IH]; intros st st' Hf Hp.
  - cbn in Hp. inversion Hp; subst st'. split; [exact Hf|].
    destruct (graft_some top rest st Ht Hf) as [g Hg].
    exists g. split; [exact Hg|]. now rewrite Hg.
  - cbn [parse_feed] in Hp.
    destruct (parse_step st t) as [st1|] eqn:Hs; [|discriminate].
    destruct (parse_step_graft top rest st t st1 Ht Hf Hs) as (Hf1 & g & Hg & Hgs).
    destruct (IH st1 st' Hf1 Hp) as (Hf' & g1 & Hg1 & Hp1).
    split; [exact Hf'|]. exists g. split; [exact Hg|].
    cbn [parse_feed]. rewrite Hgs, Hg1. exact Hp1.
Qed.

(** A value's tokens, met where a value is expected, put that value
    there. *)
Lemma parse_tokens_plug top rest toks v :
  awaits_value top -> parse_tokens toks = Some v ->
  parse_feed (top, rest) toks = plug v top rest.
Proof.
  intros Ht Hp. unfold parse_tokens in Hp.
  destruct (parse_feed (CTop, []) toks) as [[c stk]|] eqn:Hf; [|discriminate].
  destruct c; try discriminate. destruct stk; [|discriminate].
  inversion Hp; subst.
  destruct (parse_feed_graft top rest toks Ht (CTop, []) (CEnd v, [])
              eq_refl Hf) as (_ & g & Hg & Hp').
  cbn in Hg. inversion Hg; subst g. exact Hp'.
Qed.

Lemma parsed_truthy text v : JSON_parse text = Some v -> truthy_string (Some text) = true.
Proof. destruct text; [discriminate|reflexivity]. Qed.

Lemma envelope_with_params n method params v :
  plain_string method = true ->
  JSON_parse params = Some v ->
  JSON_parse (envelope n method (Some params)) =
    Some (VObj [("id", VNum n); ("method", VStr method); ("params", v)]).
Proof.
  intros Hm Hp. pose proof (parsed_truthy _ _ Hp) as Ht.
  unfold JSON_parse in Hp. destruct (lex params) as [P|] eqn:Hl; [|discriminate].
  unfold JSON_parse, lex, envelope.
  rewrite lex_envelope_head by exact Hm. rewrite Ht.
  cbn [default from_option id]. rewrite append_assoc. lex_literal.
  rewrite (lex_value_then params P "}" TRBrace _ "" Hl eq_refl).
  cbn [lex_feed lex_finish]. unfold parse_tokens.
  rewrite parse_feed_app. cbn [parse_feed parse_step expects_value plug].
  rewrite parse_feed_app, (parse_tokens_plug (CObjVal _ _) _ _ _ I Hp).
  reflexivity.
Qed.

Lemma append_nil_r s : s +:+ "" = s.
Proof. induction s as [|c s IH]; [reflexivity|]. now rewrite append_cons, IH. Qed.

Lemma lex_close_plain_end s toks lit :
  plain_string s = true ->
  lex_feed (LStr [], toks) (s +:+ js (String "'" lit)) =
    lex_feed (LIdle, toks ++ [TScalar (VStr s)]) (js lit).
Proof.
  intros Hs.
  rewrite <- (append_nil_r (js (String "'" lit))), <- (append_nil_r (js lit)).
  now apply lex_close_plain.
Qed.

(** Lex a text made of literal pieces and plain strings. *)
Ltac lex_text :=
  repeat first
    [ rewrite lex_close_plain by assumption
    | rewrite lex_close_plain_end by assumption
    | lex_literal ].

Lemma one_param_parse arg :
  plain_string arg = true -> JSON_parse (one_param arg) = Some (VArr [VStr arg]).
Proof.
  intros Ha. unfold JSON_parse, lex, one_param. lex_text. reflexivity.
Qed.

(** X1. The text [send(method, params)] registers and transmits: when the
    method has no double quote, backslash or control character and the
    parameter text is JSON for a value [v], the request text is JSON for
    the object with the members [id] (the id read from the counter),
    [method] and [params], the last being [v]. *)
Theorem send_params_embedded method params v r r' p text :
  plain_string method = true ->
  JSON_parse params = Some v ->
  dispatch method (Some params) r = (r', inl (p, text)) ->
  JSON_parse text =
    Some (VObj [("id", VNum (fst (get_id (this r)))); ("method", VStr method);
                ("params", v)]).
Proof.
  intros Hm Hp Hd. unfold dispatch in Hd.
  destruct (get_id (this r)) as [n s1] eqn:Hid. cbn [fst].
  cbn [ws] in Hd.
  destruct (ws s1) as [k|]; [|discriminate].
  destruct (sockets r !! k) as [sk|]; [|discriminate].
  destruct (socket_send _ sk); [|discriminate].
  inversion Hd; subst. now apply envelope_with_params.
Qed.

(** X2. [authenticate], [select] and [delete] with an argument free of
    double quotes, backslashes and control characters: the request text is
    JSON for the object whose [params] is the one-element array holding
    the argument. *)
Theorem single_argument_requests n arg :
  plain_string arg = true ->
  JSON_parse (request_text n (op_authenticate arg)) =
    Some (VObj [("id", VNum n); ("method", VStr "authenticate");
                ("params", VArr [VStr arg])])
  /\ JSON_parse (request_text n (op_select arg)) =
       Some (VObj [("id", VNum n); ("method", VStr "select");
                   ("params", VArr [VStr arg])])
  /\ JSON_parse (request_text n (op_delete arg)) =
       Some (VObj [("id", VNum n); ("method", VStr "delete");
                   ("params", VArr [VStr arg])]).
Proof.
  intros Ha. pose proof (one_param_parse arg Ha) as Hp.
  repeat split; apply envelope_with_params; solve [reflexivity | exact Hp].
Qed.

(** Lex a closed piece of text, whatever its form, by computation. *)
Ltac lex_piece :=
  rewrite lex_feed_app;
  match goal with
  | |- context [match lex_feed ?st ?a with _ => _ end] =>
      let v := eval vm_compute in (lex_feed st a) in
      lazymatch v with
      | Some (_, _) => replace (lex_feed st a) with v by (vm_compute; reflexivity)
      end
  end;
  cbv iota beta.

Ltac lex_pieces :=
  repeat first
    [ rewrite lex_close_plain by assumption
    | rewrite lex_close_plain_end by assumption
    | lex_piece ].

Lemma member_cases name x :
  plain_option x = true ->
  (member_if name x = "" /\ member_value name x = [])
  \/ (exists s, plain_string s = true
        /\ member_if name x = js ",'" +:+ name +:+ js "':'" +:+ s +:+ js "'"
        /\ member_value name x = [(name, VStr s)]).
Proof.
  intros Hx. unfold member_if, member_value.
  destruct (truthy_string x) eqn:Ht; [right|left; now split].
  destruct x as [s|]; [|discriminate]. exists s. now repeat split.
Qed.

Lemma signin_params_parse user pass nsp dbn sc :
  plain_string user = true -> plain_string pass = true ->
  plain_option nsp = true -> plain_option dbn = true -> plain_option sc = true ->
  JSON_parse (signin_params user pass nsp dbn sc) =
    Some (VArr [VObj ([("user", VStr user); ("pass", VStr pass)]
                      ++ member_value "NS" nsp ++ member_value "DB" dbn
                      ++ member_value "SC" sc)]).
Proof.
  intros Hu Hp Hn Hd Hs. unfold signin_params.
  destruct (member_cases "NS" nsp Hn) as [[-> ->]|(x1 & H1 & -> & ->)];
    destruct (member_cases "DB" dbn Hd) as [[-> ->]|(x2 & H2 & -> & ->)];
    destruct (member_cases "SC" sc Hs) as [[-> ->]|(x3 & H3 & -> & ->)];
    unfold JSON_parse, lex; rewrite ?append_assoc, ?append_nil_l;
    lex_pieces; reflexivity.
Qed.

(** X3. [signin] with arguments free of double quotes, backslashes and
    control characters: the request text is JSON whose [params] is a
    one-element array holding an object with [user] and [pass] and, in
    this order, [NS], [DB] and [SC] for exactly those of [ns], [db] and
    [sc] that were given and are not empty. *)
Theorem signin_request n user pass nsp dbn sc :
  plain_string user = true -> plain_string pass = true ->
  plain_option nsp = true -> plain_option dbn = true -> plain_option sc = true ->
  JSON_parse (request_text n (op_signin user pass nsp dbn sc)) =
    Some (VObj [("id", VNum n); ("method", VStr "signin");
                ("params",
                 VArr [VObj ([("user", VStr user); ("pass", VStr pass)]
                             ++ member_value "NS" nsp ++ member_value "DB" dbn
                             ++ member_value "SC" sc)])]).
Proof.
  intros Hu Hp Hn Hd Hs. apply envelope_with_params; [reflexivity|].
  now apply signin_params_parse.
Qed.

(** X4. [signup] with arguments free of double quotes, backslashes and
    control characters: the request text is JSON whose [params] is a
    one-element array holding the object with the members [NS], [DB], [SC],
    [username] and [password]. *)
Theorem signup_request n nsp dbn sc username password :
  plain_string nsp = true -> plain_string dbn = true -> plain_string sc = true ->
  plain_string username = true -> plain_string password = true ->
  JSON_parse (request_text n (op_signup nsp dbn sc username password)) =
    Some (VObj [("id", VNum n); ("method", VStr "signup");
                ("params",
                 VArr [VObj [("NS", VStr nsp); ("DB", VStr dbn); ("SC", VStr sc);
                             ("username", VStr username);
                             ("password", VStr password)]])]).
Proof.
  intros Hn Hd Hs Hu Hp. apply envelope_with_params; [reflexivity|].
  unfold JSON_parse, lex, signup_params. lex_pieces. reflexivity.
Qed.

Lemma record_params_parse target values v :
  plain_string target = true ->
  JSON_parse (JSON_stringify values) = Some v ->
  JSON_parse (record_params target values) = Some (VArr [VStr target; v]).
Proof.
  intros Ht Hv. unfold JSON_parse in Hv.
  destruct (lex (JSON_stringify values)) as [P|] eqn:Hl; [|discriminate].
  unfold JSON_parse, lex, record_params.
  lex_literal. rewrite lex_close_plain by exact Ht. lex_literal.
  rewrite (lex_value_then _ P "]" TRBrack _ "" Hl eq_refl).
  cbn [lex_feed lex_finish]. unfold parse_tokens.
  rewrite parse_feed_app. cbn [parse_feed parse_step expects_value plug app].
  rewrite parse_feed_app, (parse_tokens_plug (CArrVal _) _ _ _ I Hv).
  reflexivity.
Qed.

(** X5. [create], [update], [merge] and [patch]: when the table or record
    name has no double quote, backslash or control character and
    [JSON.stringify(values)] is JSON for a value [v], the request text is
    JSON whose [params] is the array of the name and [v]. *)
Theorem record_requests n target values v :
  plain_string target = true ->
  JSON_parse (JSON_stringify values) = Some v ->
  JSON_parse (request_text n (op_create target values)) =
    Some (VObj [("id", VNum n); ("method", VStr "create");
                ("params", VArr [VStr target; v])])
  /\ JSON_parse (request_text n (op_update target values)) =
       Some (VObj [("id", VNum n); ("method", VStr "update");
                   ("params", VArr [VStr target; v])])
  /\ JSON_parse (request_text n (op_merge target values)) =
       Some (VObj [("id", VNum n); ("method", VStr "merge");
                   ("params", VArr [VStr target; v])])
  /\ JSON_parse (request_text n (op_patch target values)) =
       Some (VObj [("id", VNum n); ("method", VStr "patch");
                   ("params", VArr [VStr target; v])]).
Proof.
  intros Ht Hv. pose proof (record_params_parse target values v Ht Hv) as Hp.
  repeat split; apply envelope_with_params; solve [reflexivity | exact Hp].
Qed.

(** X6. The argument of [select] is pasted between two double quotes as it
    is: a table name made of [a], a double quote, a comma, a double quote
    and [b] is sent as the two parameters [a] and [b]. *)
Theorem select_splits_argument n a b :
  plain_string a = true -> plain_string b = true ->
  JSON_parse (request_text n (op_select (a +:+ js "','" +:+ b))) =
    Some (VObj [("id", VNum n); ("method", VStr "select");
                ("params", VArr [VStr a; VStr b])]).
Proof.
  intros Ha Hb. apply envelope_with_params; [reflexivity|].
  unfold JSON_parse, lex, one_param. rewrite !append_assoc.
  lex_pieces. reflexivity.
Qed.

(** *** Requests on an open connection *)

Lemma dispatch_closing k s method params r :
  ws (this r) = Some k -> sockets r !! k = Some s -> readyState s = CLOSING ->
  sockets (fst (dispatch method params r)) = sockets r
  /\ ws (this (fst (dispatch method params r))) = Some k.
Proof.
  intros Hws Hs Hst. unfold dispatch, get_id, socket_send. cbn [ws].
  rewrite Hws, Hs, Hst. cbn [fst sockets this ws].
  split; [|reflexivity]. now apply list_insert_id.
Qed.

Lemma wake_suspended_closing k s calls r :
  ws (this r) = Some k -> sockets r !! k = Some s -> readyState s = CLOSING ->
  sockets (fst (wake None (map suspended calls) r)) = sockets r.
Proof.
  revert r. induction calls as [|c calls IH]; intros r Hws Hs Hst; [reflexivity|].
  cbn [map wake]. unfold suspended at 1. rewrite after_setup_wire.
  cbn [ready resume]. unfold send_ready.
  destruct (dispatch_closing k s (fst (wire c)) (snd (wire c)) r Hws Hs Hst) as [H1 H2].
  destruct (dispatch _ _ r) as [r1 [[p text]|e]]; cbn [fst] in H1, H2;
    (specialize (IH r1 H2); rewrite H1 in IH; specialize (IH Hs Hst);
     destruct (wake None (map suspended calls) r1) as [r2 ts2]; exact IH).
Qed.

(** X7. Calls begun on an open connection transmit nothing while the code
    that begins them is running.  When that code yields, their requests
    are transmitted in the order of the calls, each with the next id of
    the counter: the socket's transmitted texts grow by the calls' request
    texts, in order.  When that code calls [close()] before it yields, the
    socket is closing by the time the requests are composed, and none of
    them is transmitted. *)
Theorem calls_sent_in_order k w calls s :
  connected k (rt w) -> no_task_ready w -> sockets (rt w) !! k = Some s ->
  rt (run_events (map ECall calls) w) = rt w
  /\ (exists s',
        sockets (rt (run_events (map ECall calls ++ [EYield]) w)) !! k = Some s'
        /\ readyState s' = OPEN
        /\ sent s' =
             sent s ++ imap (fun i c => request_text (kth_id (S i) (this (rt w))) c) calls)
  /\ (exists s',
        sockets (rt (run_events (map ECall calls ++ [EShutdown; EYield]) w)) !! k = Some s'
        /\ readyState s' = CLOSING
        /\ sent s' = sent s).
Proof.
  intros Hc Hidle Hs.
  assert (Hop : ws_open (rt w) = true) by (now apply (connected_open k)).
  split; [|split].
  - now rewrite run_calls_open.
  - rewrite (calls_yield k) by assumption. cbn [rt].
    destruct (wake_started k calls (rt w) s Hc Hs) as (_ & _ & _ & _ & H & _).
    eexists. split; [exact H|]. split; reflexivity.
  - rewrite run_events_app, run_calls_open by exact Hop.
    destruct Hc as (Hws & s0 & Hs0 & Hst & _).
    rewrite Hs in Hs0. inversion Hs0; subst s0.
    cbn [run_events fold_left run_event rt tasks uncaught].
    unfold socket_state. rewrite Hws, Hs. cbn [fmap option_fmap option_map]. rewrite Hst.
    unfold drain. cbn [rt tasks uncaught].
    set (r1 := set_ready_state k CLOSING (rt w)).
    assert (Hs1 : sockets r1 !! k = Some (Socket (target s) CLOSING (listeners s) (sent s))).
    { apply set_ready_state_lookup. exact Hs. }
    assert (Hws1 : ws (this r1) = Some k).
    { subst r1. unfold set_ready_state. now rewrite Hs. }
    assert (Hq : Forall (quiet r1) (tasks w)).
    { eapply Forall_impl; [exact Hidle|]. intros t. apply quiet_store.
      subst r1. unfold set_ready_state. now rewrite Hs. }
    rewrite wake_app, (wake_idle _ _ Hq). cbn [fst snd].
    pose proof (wake_suspended_closing k _ calls r1 Hws1 Hs1 eq_refl) as Hsock.
    destruct (wake None (map suspended calls) r1) as [r2 ts2]. cbn [fst rt] in *.
    rewrite Hsock, Hs1. eexists. split; [reflexivity|]. split; reflexivity.
Qed.

(** *** The counter of any handle *)

(** X8. On any handle whose counter is in its range (0 to 1001, as the
    getter keeps it), every id handed out lies between 0 and 1000, the
    next 1000 reads give ids different from it, and the 1001st read after
    it gives the same id again. *)
Theorem id_range_and_period s i :
  counter_ok s ->
  0 <= kth_id (S i) s <= 1000
  /\ (forall j, (i < j < i + 1001)%nat -> kth_id (S j) s <> kth_id (S i) s)
  /\ kth_id (S (i + 1001)) s = kth_id (S i) s.
Proof.
  intros Hs. split; [|split].
  - rewrite kth_id_spec by exact Hs.
    Z.to_euclidean_division_equations. lia.
  - intros j Hj. rewrite !kth_id_spec by exact Hs.
    unfold counter_ok in Hs. intros Heq.
    Z.to_euclidean_division_equations. lia.
  - rewrite !kth_id_spec by exact Hs.
    rewrite Nat2Z.inj_add.
    replace (state s + (Z.of_nat i + Z.of_nat 1001))
      with (state s + Z.of_nat i + 1 * 1001) by lia.
    now rewrite Z.mod_add by lia.
Qed.

(** X9. The table is keyed by the id alone: when 1001 further calls are
    begun on an open connection while a call is still outstanding, the
    last of them is given the outstanding call's id and its entry replaces
    the outstanding call's entry, so a reply with that id is delivered to
    the later call. *)
Theorem id_reuse_overwrites k w first others last :
  connected k (rt w) -> counter_ok (this (rt w)) -> calm w ->
  length others = 1000%nat ->
  let w1 := run_events (issue (first :: others ++ [last]) ++ [EYield]) w in
  let id := kth_id 1 (this (rt w)) in
  let p := (length (store (rt w)) + 1001)%nat in
  channels (this (rt w1)) !! pretty id =
    Some (Channel (promise_resolve p) (promise_reject p)
            (envelope id (fst last) (snd last)))
  /\ tasks w1 !! length (tasks w) =
       Some (Blocked (WReply (length (store (rt w))))
               [KSendDone (envelope id (fst first) (snd first))]).
Proof.
  intros Hc Hcnt Hcalm Hlen w1 id p.
  assert (Hl : length (first :: others) = 1001%nat) by (cbn [length]; now rewrite Hlen).
  destruct Hc as (Hws & s & Hs & Hrest).
  assert (Hc : connected k (rt w)) by (split; eauto).
  subst w1. rewrite issue_calls.
  rewrite (calls_yield k) by (auto using calm_idle). cbn [rt tasks].
  destruct (wake_started k (map send_call (first :: others ++ [last])) (rt w) s Hc Hs)
    as (_ & _ & _ & Hts & _ & _ & Hent).
  assert (Hid : kth_id (S (length (first :: others))) (this (rt w)) = id).
  { subst id. rewrite !kth_id_spec by exact Hcnt.
    replace (Z.of_nat (length (first :: others))) with (1 * 1001)
      by (rewrite Hl; reflexivity).
    rewrite Z.mod_add by lia. now rewrite Z.add_0_r. }
  split.
  - specialize (Hent (length (first :: others)) (send_call last)).
    rewrite Hid in Hent. rewrite Hent.
    + subst p. rewrite Hl. reflexivity.
    + rewrite list_lookup_fmap.
      change (first :: others ++ [last]) with ((first :: others) ++ [last]).
      now rewrite list_lookup_middle.
    + intros j Hj. rewrite length_map in Hj.
      change (first :: others ++ [last]) with ((first :: others) ++ [last]) in Hj.
      rewrite length_app in Hj. cbn [length] in Hj. lia.
  - rewrite lookup_app_r by lia. rewrite Nat.sub_diag, Hts.
    cbn [map imap]. cbn [lookup list_lookup].
    unfold dispatched. rewrite Nat.add_0_r. reflexivity.
Qed.

(** *** Frames without a waiting call *)

Lemma run_listeners_throw data e n r errs :
  on_message data r = ([], Throw e, r) ->
  run_listeners n data r errs = (r, errs ++ replicate n e).
Proof.
  intros Hm. revert errs. induction n as [|n IH]; intros errs.
  - cbn. now rewrite app_nil_r.
  - cbn [run_listeners]. rewrite Hm, IH. cbn [replicate].
    now rewrite <- app_assoc.
Qed.

Lemma listener_throws data e w k s :
  on_message data (rt w) = ([], Throw e, rt w) ->
  no_task_ready w ->
  sockets (rt w) !! k = Some s -> readyState s = OPEN ->
  run_event (EMessage k data) w =
    World (rt w) (tasks w) (uncaught w ++ replicate (listeners s) e).
Proof.
  intros Hm Hidle Hs Hst. unfold run_event. rewrite (drain_idle w Hidle).
  unfold socket_event. rewrite Hs, Hst.
  rewrite (run_listeners_throw data e) by exact Hm.
  rewrite (wake_idle _ _ Hidle). apply drain_idle. exact Hidle.
Qed.

Lemma run_listeners_orphan n data app idv r errs :
  JSON_parse data = Some app ->
  get_prop app "id" = Return idv ->
  channels (this r) !! ToString idv = None ->
  inherited (ToString idv) = false ->
  run_listeners n data r errs = (warned (ToString idv) n r, errs).
Proof.
  intros Hp Hid Hch Hin. revert r Hch. induction n as [|n IH]; intros r Hch.
  - unfold warned. cbn. rewrite app_nil_r. now destruct r.
  - cbn [run_listeners]. unfold on_message. rewrite Hp, Hid, Hch, Hin.
    rewrite IH by exact Hch. unfold warned. cbn [this sockets store console].
    cbn [replicate]. now rewrite <- app_assoc.
Qed.




(** *** Calls begun before the connection is open *)

Lemma start_connecting c r :
  ws_open r = false ->
  start c r = (fst (createWebSocket r), connecting (length (sockets r)) c).
Proof.
  intros Hno. destruct c; unfold start, call_send, call_setup; rewrite Hno;
    reflexivity.
Qed.

Lemma first_calls url o calls :
  let w := run_events (map ECall calls) (new_world url o) in
  this (rt w) = new_Surreal url o
  /\ sockets (rt w) = replicate (length calls) (Socket url CONNECTING 0 [])
  /\ store (rt w) = []
  /\ tasks w = imap connecting calls
  /\ uncaught w = [].
Proof.
  induction calls as [|c calls IH] using rev_ind; intros w.
  - subst w. cbn. auto.
  - destruct IH as (Ht & Hs & Hst & Hts & Hu).
    subst w. rewrite map_app, run_events_app.
    set (w' := run_events (map ECall calls) (new_world url o)) in *.
    cbn [map run_events fold_left]. rewrite run_event_call.
    rewrite start_connecting by (unfold ws_open; now rewrite Ht).
    cbn [fst snd rt tasks uncaught createWebSocket this sockets store].
    rewrite Ht, Hs, Hst, Hts, Hu, length_replicate.
    split; [reflexivity|]. split.
    + rewrite length_app. cbn [length]. rewrite Nat.add_1_r.
      now rewrite replicate_S_end.
    + split; [reflexivity|]. split; [|reflexivity].
      rewrite imap_app. cbn [imap]. now rewrite Nat.add_0_r.
Qed.

Lemma wake_connecting i e off calls r :
  wake (Some (i, Throw e)) (imap (fun j => connecting (off + j)%nat) calls) r =
    (r, imap (fun j c => if decide ((off + j)%nat = i) then Finished (Throw e)
                         else connecting (off + j)%nat c) calls).
Proof.
  revert off. induction calls as [|c calls IH]; intros off; [reflexivity|].
  cbn [imap wake connecting ready].
  assert (Hrest :
    wake (Some (i, Throw e)) (imap ((fun j => connecting (off + j)%nat) ∘ S) calls) r =
      (r, imap ((fun j c => if decide ((off + j)%nat = i) then Finished (Throw e)
                            else connecting (off + j)%nat c) ∘ S) calls)).
  { rewrite (imap_ext _ (fun j => connecting (S off + j)%nat)).
    2:{ intros j x _. cbn. f_equal. lia. }
    rewrite IH. f_equal. apply imap_ext. intros j x _. cbn.
    replace (off + S j)%nat with (S (off + j)) by lia. reflexivity. }
  destruct (decide ((off + 0)%nat = i)) as [Heq|Hne].
  - rewrite (proj2 (Nat.eqb_eq _ _) Heq). cbn [resume]. now rewrite Hrest.
  - rewrite (proj2 (Nat.eqb_neq _ _) Hne). now rewrite Hrest.
Qed.


Lemma first_call_opened addr o method params :
  run_events [ECall (CSend method params); EOpen 0] (new_world addr o) =
    match session (new_Surreal addr o) with
    | None =>
        World
          (Runtime
             {| url := addr; opt := o; ws := Some 0%nat; state := 1;
                channels := <[pretty 0 := Channel (promise_resolve 0) (promise_reject 0)
                                            (envelope 0 method params)]> ∅ |}
             [Socket addr OPEN 1 [envelope 0 method params]] [None] (logged addr o))
          [Blocked (WReply 0) [KSendDone (envelope 0 method params)]] []
    | Some (n, d) =>
        World
          (Runtime
             {| url := addr; opt := o; ws := Some 0%nat; state := 1;
                channels := <[pretty 0 := Channel (promise_resolve 0) (promise_reject 0)
                                            (envelope 0 "use" (Some (use_params n d)))]> ∅ |}
             [Socket addr OPEN 1 [envelope 0 "use" (Some (use_params n d))]] [None]
             (logged addr o))
          [Blocked (WReply 0)
             [KSendDone (envelope 0 "use" (Some (use_params n d))); KSetupUsed;
              KSendReady method params]] []
    end.
Proof.
  unfold run_events, new_world. cbn [fold_left]. rewrite run_event_call.
  rewrite start_connecting by reflexivity.
  cbn [rt tasks uncaught fst snd createWebSocket new_Surreal this sockets store
       console app length url opt].
  unfold run_event, drain, socket_event, socket_state.
  cbn [rt tasks uncaught wake connecting ready after_setup
       sockets lookup list_lookup fmap option_fmap option_map readyState].
  change (if match o with
             | Some x => default false (log x)
             | None => false
             end
          then ["[Surreal] new WebSocket " +:+ addr] else [])
    with (logged addr o).
  unfold session. cbn [opt new_Surreal].
  destruct o as [[n0 d0 l0]|]; cbn [ns db];
    [destruct (truthy_string n0 && truthy_string d0) eqn:E|];
    cbn -[envelope use_params insert pretty logged truthy_string];
    rewrite ?E; reflexivity.
Qed.

(** The reply to the first request of a handle whose socket has just been
    opened: the entry is taken out of the table and the call goes on. *)
Lemma first_reply addr o text stack cons data props :
  JSON_parse data = Some (VObj props) ->
  obj_get props "id" = Some (VNum 0) ->
  run_event (EMessage 0 data)
    (World
       (Runtime
          {| url := addr; opt := o; ws := Some 0%nat; state := 1;
             channels := <[pretty 0 := Channel (promise_resolve 0) (promise_reject 0)
                                         text]> ∅ |}
          [Socket addr OPEN 1 [text]] [None] cons)
       [Blocked (WReply 0) stack] []) =
    drain
      (World
         (fst (resume stack (Return (VObj props))
                 (Runtime
                    {| url := addr; opt := o; ws := Some 0%nat; state := 1;
                       channels := ∅ |}
                    [Socket addr OPEN 1 [text]] [Some (Fulfilled (VObj props))] cons)))
         [snd (resume stack (Return (VObj props))
                 (Runtime
                    {| url := addr; opt := o; ws := Some 0%nat; state := 1;
                       channels := ∅ |}
                    [Socket addr OPEN 1 [text]] [Some (Fulfilled (VObj props))] cons))]
         []).
Proof.
  intros Hp Hid. unfold run_event.
  match goal with
  | |- context [socket_event _ (drain ?w)] =>
      rewrite (drain_idle w) by (constructor; [reflexivity|constructor])
  end.
  unfold socket_event.
  cbn [rt sockets lookup list_lookup readyState listeners run_listeners uncaught tasks].
  unfold on_message. rewrite Hp. cbn [get_prop]. rewrite Hid.
  cbn [default from_option id ToString this channels].
  rewrite lookup_insert_eq.
  cbn [deliver resolve promise_resolve store settle lookup list_lookup insert
       list_insert with_channels url opt ws state channels sockets console].
  rewrite delete_insert_eq, delete_empty.
  cbn [wake ready store lookup list_lookup].
  destruct (resume stack _ _) as [r2 t2]. reflexivity.
Qed.

(** X14. The first call of a handle without session options, from
    construction to its reply: the call opens a socket, its own request,
    with id 0, is the first and only text sent once the socket is open,
    and when the reply with id 0 and no [error] arrives the call returns
    the reply's [result], the table is empty again and nothing is left
    uncaught. *)
Theorem first_call_round_trip addr o method params data props :
  session (new_Surreal addr o) = None ->
  JSON_parse data = Some (VObj props) ->
  obj_get props "id" = Some (VNum 0) ->
  obj_get props "error" = None ->
  let w := run_events [ECall (CSend method params); EOpen 0; EMessage 0 data]
             (new_world addr o) in
  tasks w = [Finished (Return (default VUndefined (obj_get props "result")))]
  /\ channels (this (rt w)) = ∅
  /\ sockets (rt w) = [Socket addr OPEN 1 [envelope 0 method params]]
  /\ store (rt w) = [Some (Fulfilled (VObj props))]
  /\ uncaught w = [].
Proof.
  intros Hs Hp Hid He w. subst w.
  change [ECall (CSend method params); EOpen 0; EMessage 0 data]
    with ([ECall (CSend method params); EOpen 0] ++ [EMessage 0 data]).
  rewrite run_events_app, first_call_opened, Hs.
  cbn [run_events fold_left]. rewrite (first_reply _ _ _ _ _ _ _ Hp Hid).
  cbn [resume fst snd]. unfold send_finish. cbn [get_prop]. rewrite He.
  cbn [default from_option id to_boolean resume fst snd tasks rt this channels
       sockets store uncaught].
  repeat split; reflexivity.
Qed.


(** *** [close] *)

Lemma shutdown_cases w :
  (run_event EShutdown w = w /\ ws_open (rt w) = false)
  \/ (exists k s,
        ws (this (rt w)) = Some k /\ sockets (rt w) !! k = Some s
        /\ (readyState s = CONNECTING \/ readyState s = OPEN)
        /\ run_event EShutdown w =
             World (set_ready_state k CLOSING (rt w)) (tasks w) (uncaught w)).
Proof.
  unfold run_event, ws_open, socket_state, is_open.
  destruct (ws (this (rt w))) as [k|] eqn:Hws; [|now left].
  destruct (sockets (rt w) !! k) as [s|] eqn:Hs; [|now left].
  cbn [fmap option_fmap option_map].
  destruct (readyState s) eqn:Hst; try (now left);
    right; exists k, s; rewrite Hst; auto.
Qed.

Lemma shutdown_twice w :
  run_event EShutdown (run_event EShutdown w) = run_event EShutdown w.
Proof.
  destruct (shutdown_cases w) as [[H _]|(k & s & Hws & Hs & _ & ->)].
  - now rewrite !H.
  - assert (Ht : this (set_ready_state k CLOSING (rt w)) = this (rt w)).
    { unfold set_ready_state. now rewrite Hs. }
    unfold run_event at 1. cbn [rt]. rewrite Ht, Hws. unfold socket_state.
    now rewrite (set_ready_state_lookup k CLOSING _ s Hs).
Qed.


(** *** Replies with unusual members *)

(** X16. The [error] member of a reply is tested for truthiness and then
    written to: a reply whose [error] is [null], [0], [false] or the empty
    string completes the call like a reply without [error], with the
    reply's [result]; a reply whose [error] is a non-empty string, a
    non-zero number or [true] makes the call fail with a [TypeError] (no
    property can be put on it), not with a [SurrealError]. *)
Theorem send_error_member text props err rest r :
  obj_get props "error" = Some err ->
  (to_boolean err = false ->
     resume (KSendDone text :: rest) (Return (VObj props)) r =
       resume rest (Return (default VUndefined (obj_get props "result"))) r)
  /\ (to_boolean err = true -> primitive err = true ->
        resume (KSendDone text :: rest) (Return (VObj props)) r =
          (r, Finished (Throw type_error))).
Proof.
  intros He. split.
  - intros Hf. cbn [resume]. unfold send_finish. cbn [get_prop].
    rewrite He. cbn [default from_option id]. now rewrite Hf.
  - intros Ht Hprim. cbn [resume]. unfold send_finish. cbn [get_prop].
    rewrite He. cbn [default from_option id]. rewrite Ht.
    destruct err; try discriminate; cbn [set_prop]; apply resume_throw.
Qed.

(** *** [query] after [send] *)

Lemma send_then_query text request frame r :
  obj_get frame "error" = None ->
  resume [KSendDone request; KQueryDone text] (Return (VObj frame)) r =
    (r, Finished (query_finish text (default VUndefined (obj_get frame "result")))).
Proof.
  intros He. cbn [resume]. unfold send_finish. cbn [get_prop]. rewrite He.
  cbn [default from_option id to_boolean resume].
  destruct (query_finish text _); reflexivity.
Qed.


(** X18. A call of [query] fails with a [TypeError] on every reply without
    [error] in which [result.result] is not an array; in particular on the
    reply whose [result] is itself the list of outcomes. *)
Theorem query_needs_nested_result text request frame r :
  obj_get frame "error" = None ->
  nested_outcomes frame = None ->
  resume [KSendDone request; KQueryDone text] (Return (VObj frame)) r =
    (r, Finished (Throw type_error)).
Proof.
  intros He Hn. rewrite send_then_query by exact He. f_equal. f_equal.
  unfold nested_outcomes in Hn. unfold query_finish.
  destruct (get_prop (default VUndefined (obj_get frame "result")) "result")
    as [v|e] eqn:Hr.
  - destruct v; try reflexivity. discriminate.
  - destruct (default VUndefined (obj_get frame "result")); cbn in Hr;
      try discriminate; now inversion Hr.
Qed.

Lemma query_map_nullish outcomes errs :
  existsb nullish outcomes = true -> query_map outcomes errs = inr type_error.
Proof.
  revert errs. induction outcomes as [|o outcomes IH]; intros errs Hn;
    [discriminate|].
  cbn [existsb] in Hn. cbn [query_map].
  destruct (nullish o) eqn:Ho.
  - destruct o; try discriminate; reflexivity.
  - cbn [orb] in Hn.
    assert (Hg : exists s v, get_prop o "status" = Return s
                             /\ get_prop o "result" = Return v).
    { destruct o; try discriminate; cbn [get_prop]; eauto. }
    destruct Hg as (s & v & -> & ->).
    destruct (is_string s "ERR"); now rewrite IH.
Qed.

(** X20. An outcome that is [null] (or [undefined]) in the list [query]
    maps over makes the call fail with a [TypeError], whatever the other
    outcomes are: failed statements before or after it are not reported. *)
Theorem query_nullish_outcome text request frame outcomes r :
  obj_get frame "error" = None ->
  nested_outcomes frame = Some outcomes ->
  existsb nullish outcomes = true ->
  resume [KSendDone request; KQueryDone text] (Return (VObj frame)) r =
    (r, Finished (Throw type_error)).
Proof.
  intros He Hn Hex. rewrite send_then_query by exact He. f_equal. f_equal.
  unfold nested_outcomes in Hn. unfold query_finish.
  destruct (get_prop (default VUndefined (obj_get frame "result")) "result")
    as [v|] eqn:Hr; [|discriminate].
  destruct v; try discriminate. inversion Hn; subst.
  now rewrite query_map_nullish.
Qed.

Lemma query_params_parse ql params q :
  JSON_parse (JSON_stringify (VStr ql)) = Some q ->
  (to_boolean params = false ->
     JSON_parse ("[" +:+ query_text ql params +:+ "]") = Some (VArr [q]))
  /\ (forall b, to_boolean params = true ->
        JSON_parse (JSON_stringify params) = Some b ->
        JSON_parse ("[" +:+ query_text ql params +:+ "]") = Some (VArr [q; b])).
Proof.
  intros Hq. unfold JSON_parse in Hq.
  destruct (lex (JSON_stringify (VStr ql))) as [P|] eqn:Hl; [|discriminate].
  split.
  - intros Hf. unfold JSON_parse, lex, query_text. rewrite Hf, append_nil_r.
    rewrite append_cons, append_nil_l. cbn [lex_feed].
    change (lex_step (LIdle, []) "[") with (Some (LIdle, [TLBrack])).
    cbv iota beta.
    rewrite (lex_value_then _ P "]" TRBrack _ "" Hl eq_refl).
    cbn [lex_feed lex_finish app]. unfold parse_tokens.
    cbn [parse_feed parse_step expects_value].
    rewrite parse_feed_app, (parse_tokens_plug CArrFirst _ _ _ I Hq).
    reflexivity.
  - intros b Ht Hb. unfold JSON_parse in Hb.
    destruct (lex (JSON_stringify params)) as [B|] eqn:Hlb; [|discriminate].
    unfold JSON_parse, lex, query_text. rewrite Ht.
    rewrite append_cons, append_nil_l. cbn [lex_feed].
    change (lex_step (LIdle, []) "[") with (Some (LIdle, [TLBrack])).
    cbv iota beta.
    rewrite !append_assoc, append_cons, append_nil_l.
    rewrite (lex_value_then _ P "," TComma _ _ Hl eq_refl).
    rewrite (lex_value_then _ B "]" TRBrack _ "" Hlb eq_refl).
    cbn [lex_feed lex_finish app]. unfold parse_tokens.
    cbn [parse_feed parse_step expects_value].
    rewrite <- app_assoc.
    rewrite parse_feed_app, (parse_tokens_plug CArrFirst _ _ _ I Hq).
    cbn [plug app parse_feed parse_step].
    rewrite parse_feed_app, (parse_tokens_plug (CArrVal _) _ _ _ I Hb).
    reflexivity.
Qed.

(** X21. The request of [query(ql, params)]: when [JSON.stringify(ql)] is
    JSON for [q], the request text is JSON whose [params] is the array
    holding [q] alone if no bindings are given (or a falsy value is), and
    the array of [q] and the bindings' value [b] if truthy bindings are
    given and [JSON.stringify] of them is JSON for [b]. *)
Theorem query_request n ql params q :
  JSON_parse (JSON_stringify (VStr ql)) = Some q ->
  (to_boolean params = false ->
     JSON_parse (request_text n (CQuery ql params)) =
       Some (VObj [("id", VNum n); ("method", VStr "query"); ("params", VArr [q])]))
  /\ (forall b, to_boolean params = true ->
        JSON_parse (JSON_stringify params) = Some b ->
        JSON_parse (request_text n (CQuery ql params)) =
          Some (VObj [("id", VNum n); ("method", VStr "query");
                      ("params", VArr [q; b])])).
Proof.
  intros Hq. destruct (query_params_parse ql params q Hq) as [H1 H2]. split.
  - intros Hf. apply envelope_with_params; [reflexivity|now apply H1].
  - intros b Ht Hb. apply envelope_with_params; [reflexivity|now apply H2].
Qed.

(** *** Properties of the runtime kept by every event

    A property of the runtime that the five primitive steps keep (a
    request dispatched, a socket created, the listener installed, a ready
    state set, a frame handled by the listener) holds in every world
    reached by events. *)

Section Kept.

Variable Q : runtime -> Prop.

Hypothesis dispatch_kept :
  forall method params r, Q r -> Q (fst (dispatch method params r)).
Hypothesis createWebSocket_kept : forall r, Q r -> Q (fst (createWebSocket r)).
Hypothesis setup_opened_kept' : forall k r, Q r -> Q (setup_opened k r).
Hypothesis set_ready_state_kept : forall k st r, Q r -> Q (set_ready_state k st r).
Hypothesis on_message_kept : forall data r, Q r -> Q (snd (on_message data r)).

Lemma send_ready_kept method params rest r :
  Q r -> Q (fst (send_ready method params rest r)).
Proof.
  intros Hr. unfold send_ready.
  pose proof (dispatch_kept method params r Hr) as H.
  destruct (dispatch method params r) as [r' [[p text]|e]]; exact H.
Qed.

Lemma call_send_kept method params rest r :
  Q r -> Q (fst (call_send method params rest r)).
Proof.
  intros Hr. unfold call_send, call_setup. destruct (ws_open r).
  - exact Hr.
  - pose proof (createWebSocket_kept r Hr) as H.
    destruct (createWebSocket r) as [r' k]. exact H.
Qed.

Lemma resume_kept stack c r : Q r -> Q (fst (resume stack c r)).
Proof.
  revert c r. induction stack as [|f rest IH]; intros c r Hr; [exact Hr|].
  cbn [resume]. destruct c as [v|e]; [|exact Hr].
  destruct f as [k| |method params|text|text]; try (now apply IH).
  - destruct (session (this (setup_opened k r))) as [[n d]|].
    + apply call_send_kept. now apply setup_opened_kept'.
    + apply IH. now apply setup_opened_kept'.
  - now apply send_ready_kept.
Qed.

Lemma wake_kept opened ts r : Q r -> Q (fst (wake opened ts r)).
Proof.
  revert r. induction ts as [|t ts IH]; intros r Hr; [exact Hr|].
  cbn [wake].
  assert (H1 : Q (fst (match t with
                       | Blocked w stack =>
                           match ready r opened w with
                           | Some c => resume stack c r
                           | None => (r, t)
                           end
                       | Finished _ => (r, t)
                       end))).
  { destruct t as [on stack|c]; [|exact Hr].
    destruct (ready r opened on); [now apply resume_kept|exact Hr]. }
  destruct (match t with Blocked _ _ => _ | Finished _ => _ end) as [r1 t1].
  cbn [fst] in H1. specialize (IH r1 H1).
  destruct (wake opened ts r1) as [r2 ts2]. exact IH.
Qed.

Lemma run_listeners_kept n data r errs : Q r -> Q (fst (run_listeners n data r errs)).
Proof.
  revert r errs. induction n as [|n IH]; intros r errs Hr; [exact Hr|].
  cbn [run_listeners]. pose proof (on_message_kept data r Hr) as H.
  destruct (on_message data r) as [[calls c] r1]. now apply IH.
Qed.

Lemma start_kept c r : Q r -> Q (fst (start c r)).
Proof. intros Hr. destruct c; cbn [start]; now apply call_send_kept. Qed.

Lemma drain_kept w : Q (rt w) -> Q (rt (drain w)).
Proof.
  intros Hr. unfold drain. pose proof (wake_kept None (tasks w) _ Hr) as H.
  destruct (wake _ _ _) as [r ts]. exact H.
Qed.

Lemma socket_event_kept ev w : Q (rt w) -> Q (rt (socket_event ev w)).
Proof.
  intros Hr. destruct ev as [c| |k|k e|k e|k data|]; try exact Hr.
  - cbn [socket_event]. destruct (socket_state k (rt w)) as [[]|]; try exact Hr.
    pose proof (wake_kept (Some (k, Return VUndefined)) (tasks w) _
                  (set_ready_state_kept k OPEN _ Hr)) as H.
    destruct (wake _ _ _) as [r ts]. exact H.
  - cbn [socket_event]. destruct (socket_state k (rt w)) as [[]|]; try exact Hr.
    pose proof (wake_kept (Some (k, failed "message" e)) (tasks w) _
                  (set_ready_state_kept k CLOSED _ Hr)) as H.
    destruct (wake _ _ _) as [r ts]. exact H.
  - cbn [socket_event]. destruct (socket_state k (rt w)) as [[]|]; try exact Hr;
      try (now apply set_ready_state_kept).
    pose proof (wake_kept (Some (k, failed "reason" e)) (tasks w) _
                  (set_ready_state_kept k CLOSED _ Hr)) as H.
    destruct (wake _ _ _) as [r ts]. exact H.
  - cbn [socket_event]. destruct (sockets (rt w) !! k) as [s|]; [|exact Hr].
    destruct (readyState s); try exact Hr.
    + pose proof (run_listeners_kept (listeners s) data (rt w) (uncaught w) Hr) as H1.
      destruct (run_listeners _ _ _ _) as [r1 errs]. cbn [fst] in H1.
      pose proof (wake_kept None (tasks w) r1 H1) as H2.
      destruct (wake _ _ _) as [r2 ts]. exact H2.
    + pose proof (run_listeners_kept (listeners s) data (rt w) (uncaught w) Hr) as H1.
      destruct (run_listeners _ _ _ _) as [r1 errs]. cbn [fst] in H1.
      pose proof (wake_kept None (tasks w) r1 H1) as H2.
      destruct (wake _ _ _) as [r2 ts]. exact H2.
Qed.

Lemma run_event_kept ev w : Q (rt w) -> Q (rt (run_event ev w)).
Proof.
  intros Hr.
  assert (Hsock : Q (rt (drain (socket_event ev (drain w))))).
  { now apply drain_kept, socket_event_kept, drain_kept. }
  destruct ev as [c| |k|k e|k e|k data|]; try exact Hsock.
  - rewrite run_event_call. now apply start_kept.
  - unfold run_event. destruct (ws (this (rt w))) as [k|]; [|exact Hr].
    destruct (socket_state k (rt w)) as [[]|]; try exact Hr;
      now apply set_ready_state_kept.
  - now apply drain_kept.
Qed.

Lemma run_events_kept evs w : Q (rt w) -> Q (rt (run_events evs w)).
Proof.
  revert w. induction evs as [|ev evs IH]; intros w Hr; [exact Hr|].
  cbn [run_events fold_left]. apply IH. now apply run_event_kept.
Qed.

End Kept.

(** *** The table and the promises in every reachable world *)

Lemma dispatch_sound method params r : sound r -> sound (fst (dispatch method params r)).
Proof.
  intros (Hc & Ht & Hs).
  assert (H : sound
    {| this := {| url := url (snd (get_id (this r))); opt := opt (snd (get_id (this r)));
                  ws := ws (snd (get_id (this r)));
                  state := state (snd (get_id (this r)));
                  channels :=
                    <[pretty (fst (get_id (this r))) :=
                        Channel (promise_resolve (length (store r)))
                          (promise_reject (length (store r)))
                          (envelope (fst (get_id (this r))) method params)]>
                      (channels (snd (get_id (this r)))) |};
       sockets := sockets r; store := store r ++ [None]; console := console r |}).
  { destruct (get_id_spec _ Hc) as (Hid & Hc' & _).
    split; [exact Hc'|]. split.
    - intros key ch. cbn [this channels]. intros Hk.
      apply lookup_insert_Some in Hk as [[<- <-]|[_ Hk]].
      + exists (fst (get_id (this r))), (length (store r)), method, params.
        split; [reflexivity|]. split; [|reflexivity].
        rewrite Hid. unfold counter_ok in Hc.
        Z.to_euclidean_division_equations. lia.
      + apply (Ht key ch). exact Hk.
    - intros p e. cbn [store]. intros Hp.
      apply lookup_app_Some in Hp as [Hp|[_ Hp]]; [now apply (Hs p e)|].
      destruct (p - length (store r))%nat; discriminate. }
  unfold dispatch. destruct (get_id (this r)) as [id s1]. cbn [fst snd ws] in *.
  destruct (ws s1) as [k|]; [|exact H].
  destruct (sockets r !! k) as [sk|]; [|exact H].
  destruct (socket_send _ sk); [|exact H].
  exact H.
Qed.

Lemma on_message_sound data r : sound r -> sound (snd (on_message data r)).
Proof.
  intros Hr. pose proof Hr as (Hc & Ht & Hs). unfold on_message.
  destruct (JSON_parse data) as [app|]; [|exact Hr].
  destruct (get_prop app "id") as [idv|e]; [|exact Hr].
  destruct (channels (this r) !! ToString idv) as [ch|] eqn:Hch.
  - destruct (Ht _ _ Hch) as (id & p & method & params & _ & _ & ->).
    cbn [deliver resolve promise_resolve snd]. split; [exact Hc|]. split.
    + intros key ch. cbn [this with_channels channels]. intros Hk.
      apply lookup_delete_Some in Hk as [_ Hk]. now apply (Ht key).
    + intros q e. cbn [store]. unfold settle.
      destruct (store r !! p) as [[s|]|] eqn:Hp; try apply Hs.
      destruct (decide (q = p)) as [->|Hne].
      * rewrite list_lookup_insert_eq by (now apply lookup_lt_Some in Hp).
        discriminate.
      * rewrite list_lookup_insert_ne by congruence. apply Hs.
  - destruct (inherited (ToString idv)); exact Hr.
Qed.

Lemma run_events_sound evs w : sound (rt w) -> sound (rt (run_events evs w)).
Proof.
  apply run_events_kept.
  - apply dispatch_sound.
  - intros r H. exact H.
  - intros k r H. exact H.
  - intros k st r H. unfold set_ready_state.
    destruct (sockets r !! k); exact H.
  - apply on_message_sound.
Qed.

Lemma new_world_sound addr o : sound (rt (new_world addr o)).
Proof.
  split; [unfold counter_ok; cbn; lia|]. split.
  - intros key ch Hk. cbn in Hk. now rewrite lookup_empty in Hk.
  - intros p e Hp. cbn in Hp. now rewrite lookup_nil in Hp.
Qed.

(** *** Each entry its own promise *)

Lemma promise_resolve_inj p q : promise_resolve p = promise_resolve q -> p = q.
Proof.
  intros H. destruct (decide (p = q)) as [|Hne]; [assumption|exfalso].
  assert (H1 := f_equal (fun f : callable =>
                  snd (f VUndefined (replicate (S (p + q)) None)) !! p) H).
  cbn beta in H1. unfold promise_resolve, settle in H1. cbn [snd] in H1.
  rewrite !lookup_replicate_2 in H1 by lia.
  rewrite list_lookup_insert_eq in H1 by (rewrite length_replicate; lia).
  rewrite list_lookup_insert_ne in H1 by congruence.
  rewrite lookup_replicate_2 in H1 by lia. discriminate.
Qed.

Lemma settle_length p x ps : length (settle p x ps) = length ps.
Proof.
  unfold settle. destruct (ps !! p) as [[|]|]; try reflexivity.
  apply length_insert.
Qed.

Lemma dispatch_own method params r :
  own_promises r -> own_promises (fst (dispatch method params r)).
Proof.
  intros Hr.
  assert (H : own_promises
    {| this := {| url := url (snd (get_id (this r))); opt := opt (snd (get_id (this r)));
                  ws := ws (snd (get_id (this r)));
                  state := state (snd (get_id (this r)));
                  channels :=
                    <[pretty (fst (get_id (this r))) :=
                        Channel (promise_resolve (length (store r)))
                          (promise_reject (length (store r)))
                          (envelope (fst (get_id (this r))) method params)]>
                      (channels (snd (get_id (this r)))) |};
       sockets := sockets r; store := store r ++ [None]; console := console r |}).
  { intros key p text. cbn [this channels store]. rewrite length_app. cbn [length].
    change (channels (snd (get_id (this r)))) with (channels (this r)).
    intros Hk. apply lookup_insert_Some in Hk as [[<- Heq]|[Hne Hk]].
    - assert (p = length (store r)) as ->.
      { symmetry. apply promise_resolve_inj. now inversion Heq. }
      split; [lia|]. intros key' text' Hk'.
      apply lookup_insert_Some in Hk' as [[<- _]|[_ Hk']]; [reflexivity|].
      destruct (Hr key' _ _ Hk') as [Hlt _]. lia.
    - destruct (Hr key p text Hk) as [Hlt Huniq]. split; [lia|].
      intros key' text' Hk'.
      apply lookup_insert_Some in Hk' as [[<- Heq]|[_ Hk']]; [|now apply (Huniq key' text')].
      assert (p = length (store r)); [|lia].
      symmetry. apply promise_resolve_inj. now inversion Heq. }
  unfold dispatch. destruct (get_id (this r)) as [id s1]. cbn [fst snd ws] in *.
  destruct (ws s1) as [k|]; [|exact H].
  destruct (sockets r !! k) as [sk|]; [|exact H].
  destruct (socket_send _ sk); exact H.
Qed.

Lemma on_message_own data r :
  sound r /\ own_promises r ->
  sound (snd (on_message data r)) /\ own_promises (snd (on_message data r)).
Proof.
  intros [Hs Hr]. split; [now apply on_message_sound|].
  destruct Hs as (_ & Ht & _). unfold on_message.
  destruct (JSON_parse data) as [app|]; [|exact Hr].
  destruct (get_prop app "id") as [idv|e]; [|exact Hr].
  destruct (channels (this r) !! ToString idv) as [ch|] eqn:Hch.
  - destruct (Ht _ _ Hch) as (id & p & method & params & _ & _ & ->).
    cbn [deliver resolve promise_resolve snd].
    intros key q text. cbn [this with_channels channels store].
    rewrite settle_length. intros Hk.
    apply lookup_delete_Some in Hk as [Hne Hk].
    destruct (Hr key q text Hk) as [Hlt Huniq]. split; [exact Hlt|].
    intros key' text' Hk'. apply lookup_delete_Some in Hk' as [_ Hk'].
    now apply (Huniq key' text').
  - destruct (inherited (ToString idv)); exact Hr.
Qed.

Lemma run_events_own evs w :
  sound (rt w) /\ own_promises (rt w) ->
  sound (rt (run_events evs w)) /\ own_promises (rt (run_events evs w)).
Proof.
  apply (run_events_kept (fun r => sound r /\ own_promises r)).
  - intros method params r [H1 H2].
    split; [now apply dispatch_sound|now apply dispatch_own].
  - intros r H. exact H.
  - intros k r H. exact H.
  - intros k st r H. unfold set_ready_state.
    destruct (sockets r !! k); exact H.
  - apply on_message_own.
Qed.

Lemma new_world_own addr o : own_promises (rt (new_world addr o)).
Proof. intros key p text Hk. cbn in Hk. now rewrite lookup_empty in Hk. Qed.


(** *** The entry of a frame *)

(** C6: let a frame arrive whose id has an entry in the table.  In every
    world reached from construction by any calls and events, the entry
    holds the two functions of one promise, and the listener invokes
    exactly one of them, the entry's [resolve], with the parsed frame; it
    returns normally, the promise is fulfilled with the frame, the entry is
    removed and every other entry is left as it was; the entry is removed
    once: delivering the same frame again invokes nothing.  The removal
    does not depend on what the continuations do: for any entry at all,
    also one whose [resolve] throws, the entry is removed, also when
    [reject] throws in turn, and the value thrown by [resolve] is not lost
    but passed to the entry's [reject]. *)
Theorem demux_delivers data app idv :
  JSON_parse data = Some app ->
  get_prop app "id" = Return idv ->
  (forall addr o evs ch,
     let r := rt (run_events evs (new_world addr o)) in
     channels (this r) !! ToString idv = Some ch ->
     exists p,
       resolve ch = promise_resolve p /\ reject ch = promise_reject p
       /\ let r' := {| this := with_channels (this r)
                                 (delete (ToString idv) (channels (this r)));
                       sockets := sockets r;
                       store := settle p (Fulfilled app) (store r);
                       console := console r |} in
          on_message data r = ([Invoked RESOLVE app], Return VUndefined, r')
          /\ channels (this r') !! ToString idv = None
          /\ (forall key, key <> ToString idv ->
                channels (this r') !! key = channels (this r) !! key)
          /\ fst (fst (on_message data r')) = [])
  /\ (forall r ch,
        channels (this r) !! ToString idv = Some ch ->
        let '(calls, c, r') := on_message data r in
        match resolve ch app (store r) with
        | (Return _, ps) =>
            calls = [Invoked RESOLVE app] /\ store r' = ps /\ c = Return VUndefined
        | (Throw err, ps) =>
            calls = [Invoked RESOLVE app; Invoked REJECT err]
            /\ store r' = snd (reject ch err ps)
            /\ c = match fst (reject ch err ps) with
                   | Return _ => Return VUndefined
                   | Throw err2 => Throw (parse_failure data err2)
                   end
        end
        /\ channels (this r') = delete (ToString idv) (channels (this r))
        /\ channels (this r') !! ToString idv = None
        /\ (forall key, key <> ToString idv ->
              channels (this r') !! key = channels (this r) !! key)
        /\ fst (fst (on_message data r')) = []).
Proof.
  intros Hp Hid.
  assert (Hagain : forall r ps,
    fst (fst (on_message data
      {| this := with_channels (this r) (delete (ToString idv) (channels (this r)));
         sockets := sockets r; store := ps; console := console r |})) = []).
  { intros r ps. unfold on_message. rewrite Hp, Hid. cbn [this with_channels channels].
    rewrite lookup_delete_eq. destruct (inherited (ToString idv)); reflexivity. }
  split.
  - intros addr o evs ch r Hch.
    destruct (run_events_sound evs _ (new_world_sound addr o)) as (_ & Ht & _).
    fold r in Ht.
    destruct (Ht _ _ Hch) as (id & p & method & params & _ & _ & ->).
    exists p. split; [reflexivity|]. split; [reflexivity|]. intros r'.
    split; [|split; [|split]].
    + unfold on_message. rewrite Hp, Hid, Hch. reflexivity.
    + subst r'. cbn [this with_channels channels]. apply lookup_delete_eq.
    + intros key Hne. subst r'. cbn [this with_channels channels].
      now rewrite lookup_delete_ne.
    + apply Hagain.
  - intros r ch Hch. unfold on_message at 1. rewrite Hp, Hid, Hch.
    unfold deliver.
    destruct (resolve ch app (store r)) as [[v|err] ps1] eqn:Hres.
    + cbn [this with_channels channels store].
      rewrite lookup_delete_eq. repeat split; auto.
      intros key Hne. now rewrite lookup_delete_ne.
    + destruct (reject ch err ps1) as [[v|err2] ps2] eqn:Hrej;
        cbn [this with_channels channels store snd];
        rewrite lookup_delete_eq; repeat split; auto;
        intros key Hne; now rewrite lookup_delete_ne.
Qed.

(** X22. In every world reached from construction by any calls and socket
    events, the counter is between 0 and 1001, every key of the table is
    the decimal text of an id between 0 and 1000 whose entry holds the
    resolve and reject functions of one promise and a request text
    carrying that id, and no promise of the store has been rejected. *)
Theorem reachable_sound addr o evs :
  sound (rt (run_events evs (new_world addr o))).
Proof. apply run_events_sound, new_world_sound. Qed.

(** X23. In every world reached from construction, whatever frame
    arrives, the listener never invokes an entry's [reject]: it invokes
    nothing, or the entry's [resolve] with the parsed frame, in which case
    it returns normally, fulfils the entry's promise if still pending and
    removes the entry. *)
Theorem listener_never_rejects addr o evs data :
  let r := rt (run_events evs (new_world addr o)) in
  fst (fst (on_message data r)) = []
  \/ exists app idv p text,
        JSON_parse data = Some app
        /\ get_prop app "id" = Return idv
        /\ channels (this r) !! ToString idv =
             Some (Channel (promise_resolve p) (promise_reject p) text)
        /\ on_message data r =
             ([Invoked RESOLVE app], Return VUndefined,
              {| this := with_channels (this r) (delete (ToString idv) (channels (this r)));
                 sockets := sockets r;
                 store := settle p (Fulfilled app) (store r);
                 console := console r |}).
Proof.
  intros r. destruct (run_events_sound evs _ (new_world_sound addr o)) as (_ & Ht & _).
  fold r in Ht.
  destruct (JSON_parse data) as [app|] eqn:Hp.
  2:{ left. unfold on_message. now rewrite Hp. }
  destruct (get_prop app "id") as [idv|e] eqn:Hid.
  2:{ left. unfold on_message. now rewrite Hp, Hid. }
  destruct (channels (this r) !! ToString idv) as [ch|] eqn:Hch.
  2:{ left. unfold on_message. rewrite Hp, Hid, Hch.
      now destruct (inherited (ToString idv)). }
  destruct (Ht _ _ Hch) as (id & p & method & params & _ & _ & ->).
  right. exists app, idv, p, (envelope id method params).
  split; [reflexivity|]. split; [exact Hid|]. split; [exact Hch|].
  unfold on_message. rewrite Hp, Hid, Hch. reflexivity.
Qed.

(** *** One listener per socket *)

Lemma wiring_lookup r k st n :
  wiring r !! k = Some (st, n) <->
  exists s, sockets r !! k = Some s /\ readyState s = st /\ listeners s = n.
Proof.
  unfold wiring. rewrite list_lookup_fmap. split.
  - destruct (sockets r !! k) as [s|]; [|discriminate].
    cbn. intros H. inversion H. eauto.
  - intros (s & -> & <- & <-). reflexivity.
Qed.

Lemma dispatch_wiring method params r :
  wiring (fst (dispatch method params r)) = wiring r.
Proof.
  unfold dispatch. destruct (get_id (this r)) as [id s1]. cbn [ws].
  destruct (ws s1) as [k|]; [|reflexivity].
  destruct (sockets r !! k) as [sk|] eqn:Hs; [|reflexivity].
  unfold socket_send.
  destruct (readyState sk) eqn:Hst; try reflexivity;
    cbn [fst]; unfold wiring; cbn [sockets]; rewrite list_fmap_insert;
    apply list_insert_id; rewrite list_lookup_fmap, Hs; cbn;
    now rewrite ?Hst.
Qed.

Lemma send_ready_wiring method params rest r :
  Forall plain_frame rest ->
  wiring (fst (send_ready method params rest r)) = wiring r
  /\ past_setup (snd (send_ready method params rest r)).
Proof.
  intros Hrest. unfold send_ready.
  pose proof (dispatch_wiring method params r) as H.
  destruct (dispatch method params r) as [r' [[p text]|e]]; cbn [fst snd] in *.
  - split; [exact H|]. constructor; [exact I|exact Hrest].
  - split; [exact H|exact I].
Qed.

Lemma resume_plain_wiring stack c r :
  Forall plain_frame stack ->
  wiring (fst (resume stack c r)) = wiring r
  /\ past_setup (snd (resume stack c r)).
Proof.
  intros Hstack. revert c.
  induction Hstack as [|f rest Hf Hrest IH]; intros c.
  - cbn. now split.
  - cbn [resume]. destruct c as [v|e]; [|now split].
    destruct f; try apply IH.
    + destruct Hf.
    + now apply send_ready_wiring.
Qed.

Lemma setup_opened_wiring k st n r :
  wiring r !! k = Some (st, n) ->
  wiring (setup_opened k r) = <[k := (st, S n)]> (wiring r).
Proof.
  intros Hk. apply wiring_lookup in Hk as (s & Hs & <- & <-).
  unfold setup_opened, add_listener, wiring. cbn [sockets]. rewrite Hs.
  now rewrite list_fmap_insert.
Qed.

Lemma resume_opened_wiring k n rest v r :
  wiring r !! k = Some (OPEN, n) ->
  Forall plain_frame rest ->
  wiring (fst (resume (KSetupOpened k :: rest) (Return v) r)) =
    <[k := (OPEN, S n)]> (wiring r)
  /\ past_setup (snd (resume (KSetupOpened k :: rest) (Return v) r)).
Proof.
  intros Hk Hrest. cbn [resume].
  pose proof (setup_opened_wiring k OPEN n r Hk) as Hw.
  assert (Hop : ws_open (setup_opened k r) = true).
  { assert (Hk1 : wiring (setup_opened k r) !! k = Some (OPEN, S n)).
    { rewrite Hw. apply list_lookup_insert_eq. now apply lookup_lt_Some in Hk. }
    apply wiring_lookup in Hk1 as (s & Hs & Hst & _).
    unfold ws_open, is_open.
    change (ws (this (setup_opened k r))) with (Some k). cbv iota beta.
    now rewrite Hs, Hst. }
  destruct (session (this (setup_opened k r))) as [[nsp dbn]|].
  - unfold call_send, call_setup. rewrite Hop. cbn [fst snd].
    split; [exact Hw|]. repeat constructor. exact Hrest.
  - destruct (resume_plain_wiring rest (Return VUndefined) (setup_opened k r) Hrest)
      as [H1 H2].
    split; [now rewrite H1|exact H2].
Qed.

Lemma wake_cons opened t ts r :
  wake opened (t :: ts) r =
    (fst (wake opened ts (fst (wake_step opened t r))),
     snd (wake_step opened t r) :: snd (wake opened ts (fst (wake_step opened t r)))).
Proof.
  cbn [wake]. fold (wake_step opened t r).
  destruct (wake_step opened t r) as [r1 t1]. cbn [fst snd].
  now destruct (wake opened ts r1).
Qed.

Lemma opens_app ts1 ts2 : opens (ts1 ++ ts2) = opens ts1 ++ opens ts2.
Proof.
  induction ts1 as [|t ts1 IH]; [reflexivity|].
  cbn [app opens]. destruct t as [[k|p|] stack|c]; cbn [app]; now rewrite IH.
Qed.

Lemma opens_cons t ts : opens (t :: ts) = opens [t] ++ opens ts.
Proof. exact (opens_app [t] ts). Qed.

Lemma opens_past t : past_setup t -> opens [t] = [].
Proof. destruct t as [[k|p|] stack|c]; cbn; intros H; [destruct H| | |]; reflexivity. Qed.

Lemma past_awaited W t : past_setup t -> awaited W t.
Proof. destruct t as [[k|p|] stack|c]; cbn; intros H; [destruct H| | |]; exact H. Qed.

Lemma awaited_insert W k x t :
  k ∉ opens [t] -> awaited W t -> awaited (<[k := x]> W) t.
Proof.
  destruct t as [[j|p|] stack|c]; cbn; auto.
  intros Hk. destruct stack as [|[k'| | | |] rest]; auto.
  intros (-> & Hrest & st & Hj). split; [reflexivity|]. split; [exact Hrest|].
  exists st. rewrite list_lookup_insert_ne; [exact Hj|].
  intros ->. apply Hk. now left.
Qed.

Lemma awaited_lt W t j : awaited W t -> j ∈ opens [t] -> (j < length W)%nat.
Proof.
  destruct t as [[k|p|] stack|c]; cbn; intros H Hj; try (now inversion Hj).
  apply list_elem_of_singleton in Hj as ->.
  destruct stack as [|[k'| | | |] rest]; try (exfalso; exact H).
  destruct H as (_ & _ & st & Hk). now apply lookup_lt_Some in Hk.
Qed.

Lemma opens_elem ts t j : t ∈ ts -> j ∈ opens [t] -> j ∈ opens ts.
Proof.
  intros Ht Hj. apply list_elem_of_split in Ht as (l1 & l2 & ->).
  rewrite opens_app, opens_cons. set_solver.
Qed.

Lemma opens_single t : NoDup (opens [t]).
Proof.
  destruct t as [[k|p|] stack|c]; cbn; try constructor.
  - apply not_elem_of_nil.
  - constructor.
Qed.

Lemma wake_step_wiring opened t r :
  awaited (wiring r) t ->
  (forall k, opened_socket opened = Some k ->
     exists n, wiring r !! k = Some (OPEN, n)) ->
  (wiring (fst (wake_step opened t r)) = wiring r
   /\ awaited (wiring r) (snd (wake_step opened t r))
   /\ (forall j, j ∈ opens [snd (wake_step opened t r)] -> j ∈ opens [t])
   /\ (forall k, opened_socket opened = Some k -> k ∉ opens [t]))
  \/ (exists k,
        opened_socket opened = Some k /\ opens [t] = [k]
        /\ wiring (fst (wake_step opened t r)) = <[k := (OPEN, 1%nat)]> (wiring r)
        /\ past_setup (snd (wake_step opened t r))).
Proof.
  intros Ht Hop. destruct t as [[j|p|] stack|c].
  - cbn in Ht. destruct stack as [|[k'| | | |] rest]; try (exfalso; exact Ht).
    destruct Ht as (-> & Hrest & st & Hj).
    unfold wake_step. cbn [ready].
    destruct opened as [[k c]|].
    + destruct (Nat.eqb_spec j k) as [->|Hne].
      * destruct c as [v|e].
        -- right. exists k. split; [reflexivity|]. split; [reflexivity|].
           destruct (Hop k eq_refl) as (n & Hk).
           assert (n = 0%nat) as -> by congruence.
           now apply resume_opened_wiring.
        -- left. rewrite resume_throw. cbn [fst snd].
           split; [reflexivity|]. split; [exact I|]. split.
           ++ intros j Hj'. cbn in Hj'. now inversion Hj'.
           ++ intros k0 Hk0. discriminate.
      * left. cbn [fst snd]. split; [reflexivity|]. split.
        -- cbn. eauto.
        -- split; [auto|]. intros k0 Hk0. cbn.
           destruct c; [|discriminate]. inversion Hk0; subst k0.
           intros Hin. apply list_elem_of_singleton in Hin. congruence.
    + left. cbn [fst snd]. split; [reflexivity|]. split.
      * cbn. eauto.
      * split; [auto|]. intros k0 Hk0. discriminate.
  - left. cbn in Ht. unfold wake_step.
    destruct (ready r opened (WReply p)) as [c|].
    + destruct (resume_plain_wiring stack c r Ht) as [H1 H2].
      split; [exact H1|]. split; [now apply past_awaited|]. split.
      * intros j Hj. rewrite opens_past in Hj by exact H2. now inversion Hj.
      * intros k _. cbn. apply not_elem_of_nil.
    + cbn [fst snd]. split; [reflexivity|]. split; [exact Ht|].
      split; [auto|]. intros k _. cbn. apply not_elem_of_nil.
  - left. cbn in Ht. unfold wake_step. cbn [ready].
    destruct (resume_plain_wiring stack (Return VUndefined) r Ht) as [H1 H2].
    split; [exact H1|]. split; [now apply past_awaited|]. split.
    + intros j Hj. rewrite opens_past in Hj by exact H2. now inversion Hj.
    + intros k _. cbn. apply not_elem_of_nil.
  - left. cbn [wake_step fst snd]. split; [reflexivity|]. split; [exact I|].
    split; [auto|]. intros k _. cbn. apply not_elem_of_nil.
Qed.

Lemma wake_wiring opened ts :
  forall r,
  Forall (awaited (wiring r)) ts -> NoDup (opens ts) ->
  (forall k, opened_socket opened = Some k ->
     exists n, wiring r !! k = Some (OPEN, n)) ->
  wiring (fst (wake opened ts r)) =
    match opened_socket opened with
    | Some k => if decide (k ∈ opens ts) then <[k := (OPEN, 1%nat)]> (wiring r)
                else wiring r
    | None => wiring r
    end
  /\ Forall (awaited (wiring (fst (wake opened ts r)))) (snd (wake opened ts r))
  /\ (forall j, j ∈ opens (snd (wake opened ts r)) -> j ∈ opens ts)
  /\ NoDup (opens (snd (wake opened ts r))).
Proof.
  induction ts as [|t ts IH]; intros r Hts Hnd Hop.
  - cbn. split; [now destruct (opened_socket opened)|].
    split; [constructor|]. split; [auto|constructor].
  - rewrite wake_cons. cbn [fst snd].
    rewrite opens_cons in Hnd. apply NoDup_app in Hnd as (Hnd1 & Hdisj & Hnd2).
    inversion Hts as [|? ? Ht Hts']; subst.
    destruct (wake_step_wiring opened t r Ht Hop)
      as [(Hw & Ht1 & Hsub & Hfresh)|(k & Hk & Hopen & Hw & Hpast)].
    + set (r1 := fst (wake_step opened t r)) in *.
      set (t1 := snd (wake_step opened t r)) in *.
      destruct (IH r1) as (Hw2 & Hts2 & Hsub2 & Hnd3).
      { now rewrite Hw. }
      { exact Hnd2. }
      { intros k Hk. rewrite Hw. now apply Hop. }
      set (r2 := fst (wake opened ts r1)) in *.
      set (ts2 := snd (wake opened ts r1)) in *.
      split; [|split; [|split]].
      * rewrite Hw2, Hw. destruct (opened_socket opened) as [k|]; [|reflexivity].
        rewrite opens_cons.
        destruct (decide (k ∈ opens ts)) as [Hin|Hout].
        -- rewrite decide_True by (apply elem_of_app; now right). reflexivity.
        -- rewrite decide_False; [reflexivity|].
           intros Hin. apply elem_of_app in Hin as [Hin|Hin]; [|contradiction].
           now apply (Hfresh k).
      * constructor; [|exact Hts2].
        rewrite Hw2, Hw. destruct (opened_socket opened) as [k|] eqn:Hk; [|exact Ht1].
        destruct (decide (k ∈ opens ts)); [|exact Ht1].
        apply awaited_insert; [|exact Ht1].
        intros Hin. apply (Hfresh k eq_refl). now apply Hsub.
      * intros j Hj. rewrite opens_cons in Hj |- *.
        apply elem_of_app in Hj as [Hj|Hj]; apply elem_of_app; auto.
      * rewrite opens_cons. apply NoDup_app. split; [apply opens_single|].
        split; [|exact Hnd3].
        intros j Hj Hj2. apply (Hdisj j); auto.
    + set (r1 := fst (wake_step opened t r)) in *.
      set (t1 := snd (wake_step opened t r)) in *.
      destruct (Hop k Hk) as (n & Hn).
      assert (Hlt : (k < length (wiring r))%nat) by (now apply lookup_lt_Some in Hn).
      assert (Hout : k ∉ opens ts).
      { apply Hdisj. rewrite Hopen. now left. }
      destruct (IH r1) as (Hw2 & Hts2 & Hsub2 & Hnd3).
      { rewrite Hw. apply Forall_forall. intros t' Ht'.
        apply awaited_insert.
        - intros Hin. apply Hout. now apply (opens_elem ts t').
        - rewrite Forall_forall in Hts'. now apply Hts'. }
      { exact Hnd2. }
      { intros k' Hk'. rewrite Hk in Hk'. inversion Hk'; subst k'.
        exists 1%nat. rewrite Hw. now apply list_lookup_insert_eq. }
      set (r2 := fst (wake opened ts r1)) in *.
      set (ts2 := snd (wake opened ts r1)) in *.
      split; [|split; [|split]].
      * rewrite Hw2, Hk, Hw. rewrite decide_False by exact Hout.
        rewrite opens_cons, Hopen.
        rewrite decide_True by (apply elem_of_app; left; constructor).
        reflexivity.
      * constructor; [now apply past_awaited|exact Hts2].
      * intros j Hj. rewrite opens_cons in Hj |- *.
        rewrite (opens_past t1 Hpast) in Hj. cbn [app] in Hj.
        apply elem_of_app. right. now apply Hsub2.
      * rewrite opens_cons, (opens_past t1 Hpast). exact Hnd3.
Qed.

Lemma wired_insert W k st n :
  wired W -> (n <= 1)%nat -> (st = CONNECTING -> n = 0%nat) ->
  wired (<[k := (st, n)]> W).
Proof.
  intros HW Hn Hst j st' n' Hj.
  apply list_lookup_insert_Some in Hj as [(-> & Heq & _)|[_ Hj]].
  - inversion Heq; subst. auto.
  - now apply (HW j).
Qed.

Lemma awaited_set W k st st0 n t :
  W !! k = Some (st0, n) -> awaited W t -> awaited (<[k := (st, n)]> W) t.
Proof.
  intros Hk. destruct t as [[j|p|] stack|c]; cbn; auto.
  destruct stack as [|[k'| | | |] rest]; auto.
  intros (-> & Hrest & st' & Hj). split; [reflexivity|]. split; [exact Hrest|].
  destruct (decide (j = k)) as [->|Hne].
  - exists st. assert (n = 0%nat) as -> by congruence.
    apply list_lookup_insert_eq. now apply lookup_lt_Some in Hk.
  - exists st'. now rewrite list_lookup_insert_ne by congruence.
Qed.

Lemma awaited_app W W2 t : awaited W t -> awaited (W ++ W2) t.
Proof.
  destruct t as [[j|p|] stack|c]; cbn; auto.
  destruct stack as [|[k'| | | |] rest]; auto.
  intros (-> & Hrest & st & Hj). split; [reflexivity|]. split; [exact Hrest|].
  exists st. now apply lookup_app_l_Some.
Qed.

Lemma opens_lt W ts j :
  Forall (awaited W) ts -> j ∈ opens ts -> (j < length W)%nat.
Proof.
  induction 1 as [|t ts Ht _ IH]; intros Hj; [now inversion Hj|].
  rewrite opens_cons in Hj. apply elem_of_app in Hj as [Hj|Hj]; [|auto].
  now apply (awaited_lt W t).
Qed.

Lemma set_ready_state_wiring k st r :
  wiring (set_ready_state k st r) =
    match wiring r !! k with
    | Some (_, n) => <[k := (st, n)]> (wiring r)
    | None => wiring r
    end.
Proof.
  unfold set_ready_state, wiring. rewrite list_lookup_fmap.
  destruct (sockets r !! k) as [s|]; [|reflexivity].
  cbn [sockets fmap option_fmap option_map]. now rewrite list_fmap_insert.
Qed.

Lemma run_listeners_wiring n data r errs :
  wiring (fst (run_listeners n data r errs)) = wiring r.
Proof.
  revert r errs. induction n as [|n IH]; intros r errs; [reflexivity|].
  cbn [run_listeners].
  destruct (on_message_core data r) as (_ & _ & Hs).
  destruct (on_message data r) as [[calls c] r1]. cbn [snd] in Hs.
  rewrite IH. unfold wiring. now rewrite Hs.
Qed.

Lemma tidy_set_ready_state k st w :
  tidy w -> st <> CONNECTING ->
  tidy (World (set_ready_state k st (rt w)) (tasks w) (uncaught w)).
Proof.
  intros (HW & Hts & Hnd) Hst. unfold tidy. cbn [rt tasks].
  rewrite set_ready_state_wiring.
  destruct (wiring (rt w) !! k) as [[st0 n]|] eqn:Hk;
    [|split; [exact HW|split; [exact Hts|exact Hnd]]].
  destruct (HW k st0 n Hk) as [Hn _].
  split; [apply wired_insert; [exact HW|exact Hn|intros ->; contradiction]|].
  split; [|exact Hnd].
  eapply Forall_impl; [exact Hts|]. intros t. now apply (awaited_set _ _ _ st0).
Qed.

Lemma tidy_wake opened w r u :
  wired (wiring r) -> Forall (awaited (wiring r)) (tasks w) ->
  NoDup (opens (tasks w)) ->
  (forall k, opened_socket opened = Some k ->
     exists n, wiring r !! k = Some (OPEN, n)) ->
  tidy (let '(r', ts) := wake opened (tasks w) r in World r' ts u).
Proof.
  intros HW Hts Hnd Hop.
  destruct (wake_wiring opened (tasks w) r Hts Hnd Hop) as (Hw & Hts' & _ & Hnd').
  destruct (wake opened (tasks w) r) as [r' ts]. cbn [fst snd] in *.
  split; [|split; [exact Hts'|exact Hnd']]. cbn [rt]. rewrite Hw.
  destruct (opened_socket opened) as [k|]; [|exact HW].
  destruct (decide (k ∈ opens (tasks w))); [|exact HW].
  apply wired_insert; [exact HW|lia|discriminate].
Qed.

Lemma tidy_call_send method params rest w :
  Forall plain_frame rest -> tidy w ->
  tidy (World (fst (call_send method params rest (rt w)))
          (tasks w ++ [snd (call_send method params rest (rt w))]) (uncaught w)).
Proof.
  intros Hrest (HW & Hts & Hnd). unfold call_send, call_setup.
  destruct (ws_open (rt w)).
  - assert (H2 : past_setup (Blocked WTick (KSendReady method params :: rest))).
    { constructor; [exact I|exact Hrest]. }
    split; [|split]; cbn [rt tasks fst snd].
    + exact HW.
    + apply Forall_app. split; [exact Hts|].
      constructor; [now apply past_awaited|constructor].
    + rewrite opens_app, (opens_past _ H2), app_nil_r. exact Hnd.
  - cbn [createWebSocket fst snd].
    assert (Hw : wiring (fst (createWebSocket (rt w))) =
                 wiring (rt w) ++ [(CONNECTING, 0%nat)]).
    { unfold wiring. cbn [createWebSocket fst sockets]. now rewrite fmap_app. }
    cbn [createWebSocket fst] in Hw.
    assert (Hlen : length (sockets (rt w)) = length (wiring (rt w))).
    { unfold wiring. now rewrite length_fmap. }
    split; [|split]; cbn [rt tasks]; rewrite ?Hw.
    + intros k st n Hk. apply lookup_app_Some in Hk as [Hk|[_ Hk]].
      * now apply (HW k).
      * destruct (k - length (wiring (rt w)))%nat; [|discriminate].
        inversion Hk; subst. split; [lia|reflexivity].
    + apply Forall_app. split.
      * eapply Forall_impl; [exact Hts|]. intros t. apply awaited_app.
      * constructor; [|constructor]. cbn [app awaited].
        split; [reflexivity|]. split.
        -- constructor; [exact I|exact Hrest].
        -- exists CONNECTING. rewrite Hlen. now apply list_lookup_middle.
    + rewrite opens_app. cbn [app opens]. apply NoDup_app.
      split; [exact Hnd|]. split.
      * intros j Hj Hj'. apply list_elem_of_singleton in Hj'.
        pose proof (opens_lt _ _ _ Hts Hj). lia.
      * apply NoDup_singleton.
Qed.

Lemma tidy_drain w : tidy w -> tidy (drain w).
Proof.
  intros (HW & Hts & Hnd). unfold drain. apply tidy_wake; auto.
  intros k' Hk'. discriminate.
Qed.

Lemma tidy_socket_event ev w : tidy w -> tidy (socket_event ev w).
Proof.
  intros Hw. pose proof Hw as (HW & Hts & Hnd).
  assert (Hset : forall k st n,
    wiring (rt w) !! k = Some (CONNECTING, n) -> st <> CONNECTING ->
    wired (wiring (set_ready_state k st (rt w)))
    /\ Forall (awaited (wiring (set_ready_state k st (rt w)))) (tasks w)
    /\ wiring (set_ready_state k st (rt w)) !! k = Some (st, n)).
  { intros k st n Hk Hst.
    destruct (tidy_set_ready_state k st w Hw Hst) as (H1 & H2 & _).
    split; [exact H1|]. split; [exact H2|].
    rewrite set_ready_state_wiring, Hk.
    apply list_lookup_insert_eq. now apply lookup_lt_Some in Hk. }
  assert (Hstate : forall k st,
    socket_state k (rt w) = Some st ->
    exists n, wiring (rt w) !! k = Some (st, n)).
  { intros k st. unfold socket_state, wiring. rewrite list_lookup_fmap.
    destruct (sockets (rt w) !! k) as [s|]; [|discriminate].
    cbn. intros H. inversion H. eauto. }
  destruct ev as [c| |k|k e|k e|k data|]; try exact Hw.
  - unfold socket_event.
    destruct (socket_state k (rt w)) as [[]|] eqn:Hst; try exact Hw.
    destruct (Hstate _ _ Hst) as (n & Hk).
    destruct (Hset k OPEN n Hk ltac:(discriminate)) as (H1 & H2 & H3).
    apply tidy_wake; auto.
    intros k' Hk'. inversion Hk'; subst k'. eauto.
  - unfold socket_event.
    destruct (socket_state k (rt w)) as [[]|] eqn:Hst; try exact Hw.
    destruct (Hstate _ _ Hst) as (n & Hk).
    destruct (Hset k CLOSED n Hk ltac:(discriminate)) as (H1 & H2 & H3).
    apply tidy_wake; auto. intros k' Hk'. discriminate.
  - unfold socket_event.
    destruct (socket_state k (rt w)) as [[]|] eqn:Hst; try exact Hw;
      try (now apply tidy_set_ready_state).
    destruct (Hstate _ _ Hst) as (n & Hk).
    destruct (Hset k CLOSED n Hk ltac:(discriminate)) as (H1 & H2 & H3).
    apply tidy_wake; auto. intros k' Hk'. discriminate.
  - unfold socket_event. destruct (sockets (rt w) !! k) as [s|]; [|exact Hw].
    assert (H : tidy
      (let '(r1, errs) := run_listeners (listeners s) data (rt w) (uncaught w) in
       let '(r2, ts) := wake None (tasks w) r1 in World r2 ts errs)).
    { pose proof (run_listeners_wiring (listeners s) data (rt w) (uncaught w)) as Hl.
      destruct (run_listeners _ _ _ _) as [r1 errs]. cbn [fst] in Hl.
      apply tidy_wake; rewrite ?Hl; auto. intros k' Hk'. discriminate. }
    destruct (readyState s); try exact Hw; exact H.
Qed.

Lemma tidy_event ev w : tidy w -> tidy (run_event ev w).
Proof.
  intros Hw.
  assert (Hsock : tidy (drain (socket_event ev (drain w)))).
  { now apply tidy_drain, tidy_socket_event, tidy_drain. }
  destruct ev as [c| |k|k e|k e|k data|]; try exact Hsock.
  - rewrite run_event_call. destruct c; cbn [start];
      apply tidy_call_send; auto. repeat constructor.
  - unfold run_event. destruct (ws (this (rt w))) as [k|]; [|exact Hw].
    destruct (socket_state k (rt w)) as [[]|]; try exact Hw;
      now apply tidy_set_ready_state.
  - now apply tidy_drain.
Qed.

Lemma tidy_events evs w : tidy w -> tidy (run_events evs w).
Proof.
  revert w. induction evs as [|ev evs IH]; intros w Hw; [exact Hw|].
  cbn [run_events fold_left]. apply IH. now apply tidy_event.
Qed.

(** X24. In every world reached from construction by any calls and
    socket events, every socket carries at most one [message] listener,
    and none while it is still connecting: the listener is installed once
    per connection, by the one call that created the socket, so each
    frame is handled once. *)
Theorem one_listener_per_socket addr o evs k s :
  sockets (rt (run_events evs (new_world addr o))) !! k = Some s ->
  (listeners s <= 1)%nat /\ (readyState s = CONNECTING -> listeners s = 0%nat).
Proof.
  intros Hs.
  assert (Ht : tidy (new_world addr o)).
  { split; [|split].
    - intros j st n Hj. cbn in Hj. now rewrite lookup_nil in Hj.
    - constructor.
    - constructor. }
  destruct (tidy_events evs _ Ht) as (HW & _).
  apply (HW k (readyState s) (listeners s)).
  apply wiring_lookup. eauto.
Qed.

End Runtime.

(** * Examples *)

(** [served] is where a fresh handle is after its first call, the opening of
    the socket and the reply. *)
Lemma served_reached :
  run_events literal_text quoted_strings
    [ECall (CSend "info" None); EOpen 0; EMessage 0 (js "{'id':0,'result':null}")]
    (new_world endpoint None)
  = served.
Proof. vm_compute. reflexivity. Qed.

(** C2: the claim's k-th id, (k-1) mod 1000, fails at k = 1001: the
    1001st read of [id] returns 1000, not 0. *)
Lemma id_1001_is_1000 :
  kth_id 1001 (new_Surreal endpoint None) = 1000
  /\ kth_id 1001 (new_Surreal endpoint None) <> (1001 - 1) mod 1000.
Proof. split; [vm_compute; reflexivity|vm_compute; discriminate]. Qed.

(** C5: two operations begun on a fresh handle before any socket is open
    create two sockets, not one. *)
Lemma two_first_calls_two_sockets :
  length (sockets (rt (run_events literal_text quoted_strings
                         [ECall (CSend "info" None); ECall (CSend "info" None)]
                         (new_world endpoint None)))) = 2%nat.
Proof. vm_compute. reflexivity. Qed.



(** C10: a method with a line feed in it has no double quote and no
    backslash, and the request text is not JSON. *)
Lemma line_feed_breaks_envelope :
  quote_free (String "a" (String "010" "b")) = true
  /\ JSON_parse (envelope 0 (String "a" (String "010" "b")) None) = None.
Proof. split; vm_compute; reflexivity. Qed.



(** A frame that is not JSON, on a handle with two calls outstanding. *)
Lemma malformed_frame_witness :
  let w := run_events literal_text quoted_strings (issue two_calls ++ [EYield]) served in
  on_message literal_text "garbage" (rt w)
    = ([], Throw (parse_failure "garbage" syntax_error), rt w)
  /\ rt (run_event literal_text quoted_strings (EMessage 0 "garbage") w) = rt w
  /\ tasks (run_event literal_text quoted_strings (EMessage 0 "garbage") w) = tasks w.
Proof.
  intros w.
  destruct (malformed_frame literal_text quoted_strings "garbage") as [H1 H2];
    [vm_compute; reflexivity|].
  split; [apply H1|].
  destruct (H2 w 0%nat) as (Hrt & Hts & _).
  - vm_compute. repeat constructor.
  - split; assumption.
Defined.

(** The first call of a handle, [info], once its socket is open, and the
    frame with its id: the listener calls the entry's [resolve], and that
    only; delivered again, the frame invokes nothing. *)
Lemma demux_delivers_witness :
  let data := js "{'id':0,'result':1}" in
  let app := VObj [("id", VNum 0); ("result", VNum 1)] in
  let r := rt (run_events literal_text quoted_strings
                 [ECall (CSend "info" None); EOpen 0] (new_world endpoint None)) in
  fst (fst (on_message literal_text data r)) = [Invoked RESOLVE app]
  /\ channels (this (snd (on_message literal_text data r))) !! "0" = None
  /\ fst (fst (on_message literal_text data (snd (on_message literal_text data r)))) = [].
Proof.
  intros data app r.
  destruct (proj1 (demux_delivers literal_text quoted_strings data app (VNum 0)
                     ltac:(vm_compute; reflexivity) ltac:(reflexivity))
              endpoint None [ECall (CSend "info" None); EOpen 0]
              (Channel (promise_resolve 0) (promise_reject 0) (envelope 0 "info" None)))
    as (p & _ & _ & Hm & Hgone & _ & Hagain).
  - vm_compute. reflexivity.
  - fold r in Hm, Hgone, Hagain. rewrite Hm. cbn [fst snd].
    split; [reflexivity|]. split; [exact Hgone|exact Hagain].
Defined.


(** The texts of [info] and of [use] with namespace and database [test],
    and the text of a method with a double quote in it. *)
Lemma envelope_text_witness :
  JSON_parse (envelope 3 "info" None)
    = Some (VObj [("id", VNum 3); ("method", VStr "info")])
  /\ JSON_parse (envelope 0 "use" (Some (use_params "test" "test")))
     = Some (VObj [("id", VNum 0); ("method", VStr "use");
                   ("params", VArr [VStr "test"; VStr "test"])])
  /\ JSON_parse (envelope 0 ("in" +:+ String "034" "fo") None) = None.
Proof.
  split; [|split].
  - apply (proj1 envelope_text 3 "info"). reflexivity.
  - apply (proj1 (proj2 envelope_text) 0 "test" "test"); reflexivity.
  - apply (proj2 (proj2 envelope_text) 0 "in" "fo"); reflexivity.
Defined.

(** Two first calls on a fresh handle, and one call on [served]. *)
Lemma setup_attempts_witness :
  length (sockets (rt (run_events literal_text quoted_strings
                         (map ECall [CSend "info" None; CSend "info" None])
                         (new_world endpoint None)))) = (0 + 2)%nat
  /\ length (sockets (rt (run_event literal_text quoted_strings
                            (ECall (CSend "info" None)) served)))
     = length (sockets (rt served)).
Proof.
  split.
  - apply (proj1 (setup_attempts literal_text quoted_strings (new_world endpoint None))
             [CSend "info" None; CSend "info" None]).
    reflexivity.
  - apply (proj2 (setup_attempts literal_text quoted_strings served) (CSend "info" None)).
    vm_compute. reflexivity.
Defined.

(** ** Examples of the further properties *)

(** The request of [select("app")] on [served]. *)
Lemma send_params_embedded_witness :
  JSON_parse (envelope 1 "select" (Some (js "['app']"))) =
    Some (VObj [("id", VNum (fst (get_id (this (rt served)))));
                ("method", VStr "select"); ("params", VArr [VStr "app"])]).
Proof.
  apply (send_params_embedded "select" (js "['app']") (VArr [VStr "app"]) (rt served)
           (fst (dispatch "select" (Some (js "['app']")) (rt served))) 1%nat).
  - reflexivity.
  - vm_compute. reflexivity.
  - vm_compute. reflexivity.
Defined.

(** The three one-argument operations on the name [app]. *)
Lemma single_argument_requests_witness :
  JSON_parse (request_text literal_text quoted_strings 1 (op_authenticate "app")) =
    Some (VObj [("id", VNum 1); ("method", VStr "authenticate");
                ("params", VArr [VStr "app"])])
  /\ JSON_parse (request_text literal_text quoted_strings 1 (op_select "app")) =
       Some (VObj [("id", VNum 1); ("method", VStr "select");
                   ("params", VArr [VStr "app"])])
  /\ JSON_parse (request_text literal_text quoted_strings 1 (op_delete "app")) =
       Some (VObj [("id", VNum 1); ("method", VStr "delete");
                   ("params", VArr [VStr "app"])]).
Proof.
  apply (single_argument_requests literal_text quoted_strings 1 "app").
  reflexivity.
Defined.

(** Signing in with a namespace, without a database and with an empty
    scope: only [NS] is added. *)
Lemma signin_request_witness :
  JSON_parse (request_text literal_text quoted_strings 0
                (op_signin "root" "secret" (Some "test") None (Some ""))) =
    Some (VObj [("id", VNum 0); ("method", VStr "signin");
                ("params",
                 VArr [VObj ([("user", VStr "root"); ("pass", VStr "secret")]
                             ++ member_value "NS" (Some "test")
                             ++ member_value "DB" None
                             ++ member_value "SC" (Some ""))])]).
Proof.
  apply (signin_request literal_text quoted_strings 0 "root" "secret"
           (Some "test") None (Some "")); reflexivity.
Defined.

Lemma signup_request_witness :
  JSON_parse (request_text literal_text quoted_strings 0
                (op_signup "test" "test" "user" "ann" "secret")) =
    Some (VObj [("id", VNum 0); ("method", VStr "signup");
                ("params",
                 VArr [VObj [("NS", VStr "test"); ("DB", VStr "test");
                             ("SC", VStr "user"); ("username", VStr "ann");
                             ("password", VStr "secret")]])]).
Proof.
  apply (signup_request literal_text quoted_strings 0 "test" "test" "user" "ann"
           "secret"); reflexivity.
Defined.

(** Records written with the string [x] as their content. *)
Lemma record_requests_witness :
  JSON_parse (request_text literal_text quoted_strings 2
                (op_create quoted_strings "app" (VStr "x"))) =
    Some (VObj [("id", VNum 2); ("method", VStr "create");
                ("params", VArr [VStr "app"; VStr "x"])])
  /\ JSON_parse (request_text literal_text quoted_strings 2
                   (op_update quoted_strings "app" (VStr "x"))) =
       Some (VObj [("id", VNum 2); ("method", VStr "update");
                   ("params", VArr [VStr "app"; VStr "x"])])
  /\ JSON_parse (request_text literal_text quoted_strings 2
                   (op_merge quoted_strings "app" (VStr "x"))) =
       Some (VObj [("id", VNum 2); ("method", VStr "merge");
                   ("params", VArr [VStr "app"; VStr "x"])])
  /\ JSON_parse (request_text literal_text quoted_strings 2
                   (op_patch quoted_strings "app" (VStr "x"))) =
       Some (VObj [("id", VNum 2); ("method", VStr "patch");
                   ("params", VArr [VStr "app"; VStr "x"])]).
Proof.
  apply (record_requests literal_text quoted_strings 2 "app" (VStr "x") (VStr "x"));
    vm_compute; reflexivity.
Defined.

(** A table name with a quote, a comma and a quote in it. *)
Lemma select_splits_argument_witness :
  JSON_parse (request_text literal_text quoted_strings 0
                (op_select ("app" +:+ js "','" +:+ "user"))) =
    Some (VObj [("id", VNum 0); ("method", VStr "select");
                ("params", VArr [VStr "app"; VStr "user"])]).
Proof.
  apply (select_splits_argument literal_text quoted_strings 0 "app" "user");
    reflexivity.
Defined.

(** Two calls on [served]: nothing is sent while they are begun, both
    requests once the code yields, none when it closes the connection
    first. *)
Lemma calls_sent_in_order_witness :
  rt (run_events literal_text quoted_strings
        (map ECall [op_select "app"; op_info]) served) = rt served
  /\ (exists s',
        sockets (rt (run_events literal_text quoted_strings
                       (map ECall [op_select "app"; op_info] ++ [EYield]) served))
          !! 0%nat = Some s'
        /\ readyState s' = OPEN
        /\ sent s' =
             sent (Socket endpoint OPEN 1 [envelope 0 "info" None]) ++
             imap (fun i c => request_text literal_text quoted_strings
                                (kth_id (S i) (this (rt served))) c)
               [op_select "app"; op_info])
  /\ (exists s',
        sockets (rt (run_events literal_text quoted_strings
                       (map ECall [op_select "app"; op_info] ++ [EShutdown; EYield])
                       served))
          !! 0%nat = Some s'
        /\ readyState s' = CLOSING
        /\ sent s' = sent (Socket endpoint OPEN 1 [envelope 0 "info" None])).
Proof.
  apply (calls_sent_in_order literal_text quoted_strings 0%nat served
           [op_select "app"; op_info] (Socket endpoint OPEN 1 [envelope 0 "info" None])).
  - split; [reflexivity|]. eexists. split; [vm_compute; reflexivity|].
    split; [reflexivity|]. cbn. lia.
  - vm_compute. repeat constructor.
  - reflexivity.
Defined.

(** The sixth read of the counter of a new handle. *)
Lemma id_range_and_period_witness :
  0 <= kth_id 6 (new_Surreal endpoint None) <= 1000
  /\ (forall j, (5 < j < 5 + 1001)%nat ->
        kth_id (S j) (new_Surreal endpoint None) <> kth_id 6 (new_Surreal endpoint None))
  /\ kth_id (S (5 + 1001)) (new_Surreal endpoint None) =
       kth_id 6 (new_Surreal endpoint None).
Proof.
  apply (id_range_and_period (new_Surreal endpoint None) 5%nat).
  unfold counter_ok. cbn. lia.
Defined.

(** 1002 calls on [served], none of them answered. *)
Lemma id_reuse_overwrites_witness :
  let first := ("info", None) in
  let others := replicate 1000 ("info", None) in
  let last := ("select", Some (js "['app']")) in
  let w1 := run_events literal_text quoted_strings
              (issue (first :: others ++ [last]) ++ [EYield]) served in
  let id := kth_id 1 (this (rt served)) in
  let p := (length (store (rt served)) + 1001)%nat in
  channels (this (rt w1)) !! pretty id =
    Some (Channel (promise_resolve p) (promise_reject p)
            (envelope id (fst last) (snd last)))
  /\ tasks w1 !! length (tasks served) =
       Some (Blocked (WReply (length (store (rt served))))
               [KSendDone (envelope id (fst first) (snd first))]).
Proof.
  apply (id_reuse_overwrites literal_text quoted_strings 0%nat served ("info", None)
           (replicate 1000 ("info", None)) ("select", Some (js "['app']"))).
  - split; [reflexivity|]. eexists. split; [vm_compute; reflexivity|].
    split; [reflexivity|]. cbn. lia.
  - unfold counter_ok. change (state (this (rt served))) with 1. lia.
  - vm_compute. repeat constructor.
  - vm_compute. reflexivity.
Defined.





(** The first call of a handle without options, answered. *)
Lemma first_call_round_trip_witness :
  let data := js "{'id':0,'result':null}" in
  let props := [("id", VNum 0); ("result", VNull)] in
  let w := run_events literal_text quoted_strings
             [ECall (CSend "info" None); EOpen 0; EMessage 0 data]
             (new_world endpoint None) in
  tasks w = [Finished (Return (default VUndefined (obj_get props "result")))]
  /\ channels (this (rt w)) = ∅
  /\ sockets (rt w) = [Socket endpoint OPEN 1 [envelope 0 "info" None]]
  /\ store (rt w) = [Some (Fulfilled (VObj props))]
  /\ uncaught w = [].
Proof.
  intros data props.
  apply (first_call_round_trip literal_text quoted_strings endpoint None "info" None
           data props).
  - reflexivity.
  - vm_compute. reflexivity.
  - reflexivity.
  - reflexivity.
Defined.


(** A reply whose [error] is [null], and one whose [error] is a string. *)
Lemma send_error_member_witness :
  resume literal_text [KSendDone "q"]
    (Return (VObj [("id", VNum 0); ("error", VNull); ("result", VNum 7)])) (rt served) =
    resume literal_text []
      (Return (default VUndefined
                 (obj_get [("id", VNum 0); ("error", VNull); ("result", VNum 7)] "result")))
      (rt served)
  /\ resume literal_text [KSendDone "q"]
       (Return (VObj [("id", VNum 0); ("error", VStr "boom")])) (rt served) =
       (rt served, Finished (Throw type_error)).
Proof.
  split.
  - apply (proj1 (send_error_member literal_text "q"
                    [("id", VNum 0); ("error", VNull); ("result", VNum 7)] VNull []
                    (rt served) eq_refl)).
    reflexivity.
  - apply (proj2 (send_error_member literal_text "q"
                    [("id", VNum 0); ("error", VStr "boom")] (VStr "boom") []
                    (rt served) eq_refl)); reflexivity.
Defined.


(** The reply whose [result] is the list of outcomes itself. *)
Lemma query_needs_nested_result_witness :
  resume literal_text [KSendDone "q"; KQueryDone "t"]
    (Return (VObj [("id", VNum 0);
                   ("result", VArr [VObj [("status", VStr "OK"); ("result", VNum 1)]])]))
    (rt served) =
    (rt served, Finished (Throw type_error)).
Proof.
  apply (query_needs_nested_result literal_text "t" "q"); reflexivity.
Defined.


(** An outcome list holding [null]. *)
Lemma query_nullish_outcome_witness :
  resume literal_text [KSendDone "q"; KQueryDone "t"]
    (Return (VObj [("id", VNum 0); ("result", VObj [("result", VArr [VNull])])]))
    (rt served) =
    (rt served, Finished (Throw type_error)).
Proof.
  apply (query_nullish_outcome literal_text "t" "q" _ [VNull]); reflexivity.
Defined.

(** A query without bindings. *)
Lemma query_request_witness :
  JSON_parse (request_text literal_text quoted_strings 0 (CQuery "SELECT 1" VUndefined)) =
    Some (VObj [("id", VNum 0); ("method", VStr "query");
                ("params", VArr [VStr "SELECT 1"])]).
Proof.
  apply (proj1 (query_request literal_text quoted_strings 0 "SELECT 1" VUndefined
                  (VStr "SELECT 1") ltac:(vm_compute; reflexivity))).
  reflexivity.
Defined.

(** The socket of a handle after its first call and the opening. *)
Lemma one_listener_per_socket_witness :
  (listeners (Socket endpoint OPEN 1 [envelope 0 "info" None]) <= 1)%nat
  /\ (readyState (Socket endpoint OPEN 1 [envelope 0 "info" None]) = CONNECTING ->
      listeners (Socket endpoint OPEN 1 [envelope 0 "info" None]) = 0%nat).
Proof.
  apply (one_listener_per_socket literal_text quoted_strings endpoint None
           [ECall (CSend "info" None); EOpen 0] 0%nat).
  vm_compute. reflexivity.
Defined.
